(** * convert_qa.py: extraction of question/answer records from a text

    A shallow embedding of [convert_txt_to_json] (src/convert_qa.py).
    The text is a Python [str], that is a sequence of Unicode code
    points; the two regular expressions of the source are written as
    abstract syntax and run by a backtracking matcher that follows the
    priorities of Python's [re] module (greedy and lazy single-character
    repeats, ordered alternation, atomic lookahead, capture groups). *)

From Stdlib Require Import String Ascii.
From Stdlib Require Import List NArith Arith Bool Lia.
From Stdlib Require Import Sorted Permutation.
Import ListNotations.

(** ** Characters and strings *)

Definition char := N.
Definition str := list char.

Definition LF : char := 10%N.
Definition CR : char := 13%N.
Definition cQ : char := 81%N.
Definition cA : char := 65%N.
Definition colon : char := 58%N.
(** U+FF1A, the full-width colon. *)
Definition fwcolon : char := 65306%N.

(** ASCII text as code points, for writing documents down. *)
Fixpoint txt (s : string) : str :=
  match s with
  | EmptyString => []
  | String a s' => N_of_ascii a :: txt s'
  end.

(** [str.isspace] on one character, which is also the class [\s] of a
    [str] pattern (CPython's [Py_UNICODE_ISSPACE]). *)
Definition space_chars : list char :=
  [9; 10; 11; 12; 13; 28; 29; 30; 31; 32; 133; 160; 5760;
   8192; 8193; 8194; 8195; 8196; 8197; 8198; 8199; 8200; 8201; 8202;
   8232; 8233; 8239; 8287; 12288]%N.

Definition is_space (c : char) : bool := existsb (N.eqb c) space_chars.

(** The decimal digits of the Unicode database (general category Nd,
    Unicode 14): the class [\d] of a [str] pattern and the digits that
    [int] accepts.  Every range is made of runs of ten code points
    standing for 0..9. *)
Definition decimal_ranges : list (N * N) :=
  [(48, 57); (1632, 1641); (1776, 1785); (1984, 1993); (2406, 2415);
   (2534, 2543); (2662, 2671); (2790, 2799); (2918, 2927); (3046, 3055);
   (3174, 3183); (3302, 3311); (3430, 3439); (3558, 3567); (3664, 3673);
   (3792, 3801); (3872, 3881); (4160, 4169); (4240, 4249); (6112, 6121);
   (6160, 6169); (6470, 6479); (6608, 6617); (6784, 6793); (6800, 6809);
   (6992, 7001); (7088, 7097); (7232, 7241); (7248, 7257); (42528, 42537);
   (43216, 43225); (43264, 43273); (43472, 43481); (43504, 43513);
   (43600, 43609); (44016, 44025); (65296, 65305); (66720, 66729);
   (68912, 68921); (69734, 69743); (69872, 69881); (69942, 69951);
   (70096, 70105); (70384, 70393); (70736, 70745); (70864, 70873);
   (71248, 71257); (71360, 71369); (71472, 71481); (71904, 71913);
   (72016, 72025); (72784, 72793); (73040, 73049); (73120, 73129);
   (92768, 92777); (92864, 92873); (93008, 93017); (120782, 120831);
   (123200, 123209); (123632, 123641); (125264, 125273);
   (130032, 130041)]%N.

Definition in_range (c : char) (r : N * N) : bool :=
  ((fst r <=? c) && (c <=? snd r))%N.

Definition is_digit (c : char) : bool := existsb (in_range c) decimal_ranges.

Definition digit_value (c : char) : option N :=
  match find (in_range c) decimal_ranges with
  | Some r => Some ((c - fst r) mod 10)%N
  | None => None
  end.

(** ** Regular expressions *)

(** What one position of a pattern can ask of a character. *)
Inductive cclass : Type :=
| CLit (c : char)          (* a literal character *)
| CSet (cs : list char)    (* [...] *)
| CDigit                   (* \d *)
| CSpace                   (* \s *)
| CAny.                    (* . under re.DOTALL *)

Definition cmatch (k : cclass) (c : char) : bool :=
  match k with
  | CLit a => N.eqb c a
  | CSet cs => existsb (N.eqb c) cs
  | CDigit => is_digit c
  | CSpace => is_space c
  | CAny => true
  end.

(** The fragment of [re] syntax the source uses.  All its repeats are
    over a single character class. *)
Inductive regex : Type :=
| RChar (k : cclass)
| RRep (greedy : bool) (lo : nat) (hi : option nat) (k : cclass)
| RSeq (r1 r2 : regex)
| RAlt (r1 r2 : regex)
| RGroup (i : nat) (r : regex)
| RLook (r : regex)        (* (?=r) *)
| REnd                     (* \Z *)
| REps.

Fixpoint rseq (rs : list regex) : regex :=
  match rs with
  | [] => REps
  | [r] => r
  | r :: rs' => RSeq r (rseq rs')
  end.

Definition rstar (k : cclass) := RRep true 0 None k.
Definition rplus (k : cclass) := RRep true 1 None k.
Definition ropt (k : cclass) := RRep true 0 (Some 1) k.
Definition rplus_lazy (k : cclass) := RRep false 1 None k.

(** ** The backtracking matcher *)

(** The capture groups set so far, most recent first. *)
Definition groups := list (nat * str).

Definition set_group (i : nat) (v : str) (g : groups) : groups := (i, v) :: g.

Fixpoint get_group (i : nat) (g : groups) : str :=
  match g with
  | [] => []
  | (j, v) :: g' => if Nat.eqb i j then v else get_group i g'
  end.

(** The text between two positions, each given by what remains to be
    read there. *)
Definition capture (s s' : str) : str := firstn (length s - length s') s.

Definition below (hi : option nat) (n : nat) : bool :=
  match hi with
  | None => true
  | Some h => Nat.ltb n h
  end.

Section Repeat.
Variable R : Type.
Variable k : cclass.
Variables (lo : nat) (hi : option nat).
Variable K : str -> option R.

(** [n] characters are already taken.  Longest first. *)
Fixpoint rep_greedy (n : nat) (s : str) : option R :=
  match s with
  | c :: s' =>
      if cmatch k c && below hi n then
        match rep_greedy (S n) s' with
        | Some r => Some r
        | None => if Nat.leb lo n then K s else None
        end
      else if Nat.leb lo n then K s else None
  | [] => if Nat.leb lo n then K s else None
  end.

(** Shortest first. *)
Fixpoint rep_lazy (n : nat) (s : str) : option R :=
  match (if Nat.leb lo n then K s else None) with
  | Some r => Some r
  | None =>
      match s with
      | c :: s' =>
          if cmatch k c && below hi n then rep_lazy (S n) s' else None
      | [] => None
      end
  end.
End Repeat.

Arguments rep_greedy {R} k lo hi K n s.
Arguments rep_lazy {R} k lo hi K n s.

Definition result := (str * groups)%type.
Definition cont := str -> groups -> option result.

(** [run r s g K]: match [r] at the start of [s]; on each way of
    matching, in priority order, hand what is left of the text and the
    groups to [K]; the first answer of [K] wins. *)
Fixpoint run (r : regex) (s : str) (g : groups) (K : cont) : option result :=
  match r with
  | RChar k =>
      match s with
      | c :: s' => if cmatch k c then K s' g else None
      | [] => None
      end
  | RRep true lo hi k => rep_greedy k lo hi (fun s' => K s' g) 0 s
  | RRep false lo hi k => rep_lazy k lo hi (fun s' => K s' g) 0 s
  | RSeq r1 r2 => run r1 s g (fun s' g' => run r2 s' g' K)
  | RAlt r1 r2 =>
      match run r1 s g K with
      | Some x => Some x
      | None => run r2 s g K
      end
  | RGroup i r1 => run r1 s g (fun s' g' => K s' (set_group i (capture s s') g'))
  | RLook r1 =>
      match run r1 s g (fun s' g' => Some (s', g')) with
      | Some (_, g') => K s g'
      | None => None
      end
  | REnd => match s with [] => K s g | _ :: _ => None end
  | REps => K s g
  end.

Definition accept : cont := fun s g => Some (s, g).

(** One attempt at the start of [s]: what is left after the match, and
    the groups. *)
Definition match_here (r : regex) (s : str) : option result :=
  run r s [] accept.

(** ** [re.findall] and [re.sub]

    Both scan the text from left to right: at each position one attempt;
    after a match the scan resumes where the match ended.  A match that
    consumed nothing makes the scan step over one character; neither
    pattern of the source can match the empty string, so that rule is
    never exercised here.  The fuel counts attempts and [None] means it
    ran out; [S (length s)] attempts are always enough. *)

Definition consumed (s rest : str) : bool := Nat.ltb (length rest) (length s).

Fixpoint findall_from (fuel : nat) (r : regex) (s : str) : option (list groups) :=
  match fuel with
  | O => None
  | S fuel' =>
      match match_here r s with
      | Some (rest, g) =>
          if consumed s rest
          then option_map (cons g) (findall_from fuel' r rest)
          else match s with
               | [] => Some [g]
               | _ :: s' => option_map (cons g) (findall_from fuel' r s')
               end
      | None =>
          match s with
          | [] => Some []
          | _ :: s' => findall_from fuel' r s'
          end
      end
  end.

Definition findall (r : regex) (s : str) : option (list groups) :=
  findall_from (S (length s)) r s.

(** [re.sub(r, '', s)]: every match is deleted. *)
Fixpoint sub_from (fuel : nat) (r : regex) (s : str) : option str :=
  match fuel with
  | O => None
  | S fuel' =>
      match match_here r s with
      | Some (rest, _) =>
          if consumed s rest
          then sub_from fuel' r rest
          else match s with
               | [] => Some []
               | c :: s' => option_map (cons c) (sub_from fuel' r s')
               end
      | None =>
          match s with
          | [] => Some []
          | c :: s' => option_map (cons c) (sub_from fuel' r s')
          end
      end
  end.

Definition sub_empty (r : regex) (s : str) : option str :=
  sub_from (S (length s)) r s.

(** ** [str.strip] and [int] *)

Fixpoint lstrip (s : str) : str :=
  match s with
  | c :: s' => if is_space c then lstrip s' else s
  | [] => []
  end.

Definition rstrip (s : str) : str := rev (lstrip (rev s)).

Definition strip (s : str) : str := rstrip (lstrip s).

Fixpoint int_digits (acc : N) (s : str) : option N :=
  match s with
  | [] => Some acc
  | c :: s' =>
      match digit_value c with
      | Some v => int_digits (acc * 10 + v) s'
      | None => None
      end
  end.

(** The number that a string of decimal digits stands for: what [int(s)]
    returns when it returns; [None] stands for [ValueError] (no digit at
    all, or a character that is not a digit).  Python integers are
    unbounded, and so is [N].  This is [int] on an interpreter without
    a limit on the number of digits ([sys.set_int_max_str_digits(0)],
    or a version before that limit came); [Host.py_int] below adds the
    limit, 4300 digits unless the host sets another. *)
Definition py_int (s : str) : option N :=
  match s with
  | [] => None
  | _ :: _ => int_digits 0 s
  end.

(** ** The two patterns of the source *)

Definition seps : cclass := CSet [fwcolon; colon].

(** (?=\r?\n\r?\nQ\d+[：:]|\r?\n\r?\n\r?\n|\Z) *)
Definition boundary_re : regex :=
  RLook
    (RAlt (rseq [ropt (CLit CR); RChar (CLit LF); ropt (CLit CR); RChar (CLit LF);
                 RChar (CLit cQ); rplus CDigit; RChar seps])
    (RAlt (rseq [ropt (CLit CR); RChar (CLit LF); ropt (CLit CR); RChar (CLit LF);
                 ropt (CLit CR); RChar (CLit LF)])
          REnd)).

(** Q(\d+)[：:]\s*(.+?)\r?\n\s*A\d+[：:]\s*(.+?)(?=...) under re.DOTALL *)
Definition pattern : regex :=
  rseq [RChar (CLit cQ); RGroup 1 (rplus CDigit); RChar seps; rstar CSpace;
        RGroup 2 (rplus_lazy CAny);
        ropt (CLit CR); RChar (CLit LF); rstar CSpace;
        RChar (CLit cA); rplus CDigit; RChar seps; rstar CSpace;
        RGroup 3 (rplus_lazy CAny);
        boundary_re].

(** \r?\n\s* *)
Definition newline_re : regex :=
  rseq [ropt (CLit CR); RChar (CLit LF); rstar CSpace].

(** ** The records *)

Record qa : Type := mk_qa { qa_id : N; question : str; answer : str }.

(** [None] is an exception raised on the way (or fuel that ran out). *)
Definition bind {A B : Type} (x : option A) (f : A -> option B) : option B :=
  match x with
  | Some a => f a
  | None => None
  end.

Notation "x <- e ;; k" := (bind e (fun x => k))
  (at level 61, e at next level, right associativity).

(** The body of the loop over the matches. *)
Definition record_of (m : groups) : option qa :=
  i <- py_int (get_group 1 m) ;;
  let q := strip (get_group 2 m) in
  a <- sub_empty newline_re (strip (get_group 3 m)) ;;
  Some (mk_qa i q a).

Fixpoint records_of (ms : list groups) : option (list qa) :=
  match ms with
  | [] => Some []
  | m :: ms' =>
      r <- record_of m ;;
      rs <- records_of ms' ;;
      Some (r :: rs)
  end.

(** [list.sort(key=lambda x: x['id'])]: a stable sort on the key.  An
    element goes in front of the first one whose key is not smaller. *)
Fixpoint insert_by_id (x : qa) (l : list qa) : list qa :=
  match l with
  | [] => [x]
  | y :: l' =>
      if (qa_id x <=? qa_id y)%N then x :: l else y :: insert_by_id x l'
  end.

Definition sort_by_id (l : list qa) : list qa := fold_right insert_by_id [] l.

(** [qa_list] as the loop leaves it, in document order. *)
Definition collected (content : str) : option (list qa) :=
  ms <- findall pattern content ;;
  records_of ms.

(** [qa_list] after the sort: what [convert_txt_to_json] writes and
    returns. *)
Definition qa_list (content : str) : option (list qa) :=
  option_map sort_by_id (collected content).

(** ** The example document of the specification *)

Definition example_doc : str :=
  txt "Q2" ++ [fwcolon] ++ txt "What is X?" ++ [LF] ++
  txt "A2" ++ [fwcolon] ++ txt "X is" ++ [LF] ++ txt "a thing." ++ [LF; LF] ++
  txt "Q1" ++ [fwcolon] ++ txt "What is Y?" ++ [LF] ++
  txt "A1" ++ [fwcolon] ++ txt "Y is simple.".

(** A document whose entries are not in the order of their numbers. *)
Definition q5_q1_doc : str :=
  txt "Q5:five" ++ [LF] ++ txt "A5:e" ++ [LF; LF] ++
  txt "Q1:one" ++ [LF] ++ txt "A1:a".

(** A question of two lines, and an answer of two lines. *)
Definition two_line_doc : str :=
  txt "Q1:first line" ++ [LF] ++ txt "second line" ++ [LF] ++
  txt "A1:one" ++ [LF] ++ txt "  two".

(** An entry whose answer is empty, followed by another entry. *)
Definition empty_answer_doc : str :=
  txt "Q1:a" ++ [LF] ++ txt "A1:" ++ [LF; LF] ++
  txt "Q2:b" ++ [LF] ++ txt "A2:c".

(** ** Reading the source, writing the result

    [convert_txt_to_json] with its effects: what it prints, what it
    writes and how it ends.  The file system is a parameter: what
    opening and reading a path gives, and whether a path can be
    written.  Here the console takes every line and [int] has no limit
    on its digits; the module [Host] below makes both a parameter and
    agrees with this on such a host. *)

Inductive exn : Type :=
| FileNotFoundError
| PermissionError
| IsADirectoryError
| UnicodeDecodeError
| UnicodeEncodeError
| ValueError.

Inductive read_result : Type :=
| ReadText (content : str)
| ReadFails (e : exn).

Record world : Type := mk_world {
  read_file : str -> read_result;    (* open(path, "r", encoding="utf-8"), f.read() *)
  write_fails : str -> option exn    (* open(path, "w", encoding="utf-8") *)
}.

Inductive event : Type :=
| Print (line : str)
| WriteJson (path : str) (data : list qa).

(** How the call ends: it returns, [sys.exit] is called, or an
    exception leaves it that nothing catches. *)
Inductive outcome : Type :=
| Returned (l : list qa)
| SysExit (code : N)
| Uncaught (e : exn).

Fixpoint decimal_of (fuel n : nat) (acc : str) : str :=
  match fuel with
  | O => acc
  | S fuel' =>
      let acc' := N.of_nat (48 + n mod 10) :: acc in
      if Nat.eqb (n / 10) 0 then acc' else decimal_of fuel' (n / 10) acc'
  end.

(** [str(n)] for a length. *)
Definition str_of_nat (n : nat) : str := decimal_of (S n) n [].

(** f"錯誤：找不到檔案 {input_file}" *)
Definition not_found_msg (input_file : str) : str :=
  [37679; 35492; 65306; 25214; 19981; 21040; 27284; 26696; 32]%N ++ input_file.

(** f"✅ 成功轉換 {len(qa_list)} 條 QA 到 {output_file}" *)
Definition done_msg (n : nat) (output_file : str) : str :=
  [9989; 32; 25104; 21151; 36681; 25563; 32]%N ++ str_of_nat n ++
  [32; 26781; 32; 81; 65; 32; 21040; 32]%N ++ output_file.

Definition convert_txt_to_json (w : world) (input_file output_file : str)
  : list event * outcome :=
  match read_file w input_file with
  | ReadFails FileNotFoundError =>
      ([Print (not_found_msg input_file)], SysExit 1)
  | ReadFails e => ([], Uncaught e)
  | ReadText content =>
      match qa_list content with
      | None => ([], Uncaught ValueError)
      | Some l =>
          match write_fails w output_file with
          | Some e => ([], Uncaught e)
          | None =>
              ([WriteJson output_file l; Print (done_msg (length l) output_file)],
               Returned l)
          end
      end
  end.




(** Three entries with answer markers numbered as the questions, and the
    same text with other numbers in the answer markers. *)
Definition numbered_doc : str :=
  txt "Q2:b" ++ [LF] ++ txt "A2: y" ++ [LF; LF] ++
  txt "Q1:a" ++ [LF] ++ txt "A1:x" ++ [LF; LF] ++
  txt "Q3:c" ++ [LF] ++ txt "A3:z".

Definition renumbered_doc : str :=
  txt "Q2:b" ++ [LF] ++ txt "A2: y" ++ [LF; LF] ++
  txt "Q1:a" ++ [LF] ++ txt "A950:x" ++ [LF; LF] ++
  txt "Q3:c" ++ [LF] ++ txt "A0:z".

(** * Auxiliary definitions

    Direct readings of the parts of the pattern, used to reason about
    the matcher; each is proved to agree with it below. *)

Definition is_sep (c : char) : bool := cmatch seps c.

(** The longest prefix made of characters of [p], and what follows it. *)
Fixpoint take_while (p : char -> bool) (s : str) : str :=
  match s with
  | c :: s' => if p c then c :: take_while p s' else []
  | [] => []
  end.

Fixpoint drop_while (p : char -> bool) (s : str) : str :=
  match s with
  | c :: s' => if p c then drop_while p s' else s
  | [] => []
  end.

Definition all (p : char -> bool) (s : str) : Prop :=
  Forall (fun c => p c = true) s.

(** The text is empty or starts with a character outside [p]. *)
Definition stops (p : char -> bool) (s : str) : Prop :=
  match s with
  | [] => True
  | c :: _ => p c = false
  end.

Definition is_some {A : Type} (x : option A) : bool :=
  match x with
  | Some _ => true
  | None => false
  end.

(** \r?\n : what follows the line break that starts [s]. *)
Definition eat_nl (s : str) : option str :=
  match s with
  | c :: s' =>
      if (c =? CR)%N then
        match s' with
        | c' :: s'' => if (c' =? LF)%N then Some s'' else None
        | [] => None
        end
      else if (c =? LF)%N then Some s' else None
  | [] => None
  end.

(** \d+[：:] : the digits, and what follows the separator. *)
Definition digits_sep (s : str) : option (str * str) :=
  match take_while is_digit s, drop_while is_digit s with
  | (_ :: _) as ds, c :: s' => if is_sep c then Some (ds, s') else None
  | _, _ => None
  end.

(** \r?\n\s*A\d+[：:] : what follows the answer marker. *)
Definition marker_at (s : str) : option str :=
  s1 <- eat_nl s ;;
  match drop_while is_space s1 with
  | c :: s2 => if (c =? cA)%N then option_map snd (digits_sep s2) else None
  | [] => None
  end.

(** Q\d+[：:] *)
Definition q_marker_at (s : str) : bool :=
  match s with
  | c :: s' => (c =? cQ)%N && is_some (digits_sep s')
  | [] => false
  end.

(** The lookahead that ends an answer: a blank line and a question
    marker, or two blank lines, or the end of the text. *)
Definition boundary (s : str) : bool :=
  match s with
  | [] => true
  | _ :: _ =>
      match s1 <- eat_nl s ;; eat_nl s1 with
      | Some s2 => q_marker_at s2 || is_some (eat_nl s2)
      | None => false
      end
  end.

(** (.+?)(?=...) : the answer body and what is left after it. *)
Definition body_at (s : str) : option (str * str) :=
  rep_lazy CAny 1 None
    (fun s' => if boundary s' then Some (capture s s', s') else None) 0 s.

(** \s*(.+?)(?=...) *)
Definition answer_at (s : str) : option (str * str) :=
  rep_greedy CSpace 0 None body_at 0 s.

(** (.+?)\r?\n\s*A\d+[：:]\s*(.+?)(?=...) : the question body, then
    the answer body and what is left. *)
Definition question_body_at (s : str) : option (str * (str * str)) :=
  rep_lazy CAny 1 None
    (fun s' => s'' <- marker_at s' ;; ar <- answer_at s'' ;; Some (capture s s', ar))
    0 s.

(** \s*(.+?)\r?\n\s*A\d+[：:]\s*(.+?)(?=...) *)
Definition question_at (s : str) : option (str * (str * str)) :=
  rep_greedy CSpace 0 None question_body_at 0 s.

(** The whole pattern: group 1, group 2, group 3 and what is left. *)
Definition match_direct (s : str) : option (str * str * str * str) :=
  match s with
  | c :: s1 =>
      if (c =? cQ)%N then
        match digits_sep s1 with
        | Some (g1, s3) =>
            match question_at s3 with
            | Some (g2, (g3, rest)) => Some (g1, g2, g3, rest)
            | None => None
            end
        | None => None
        end
      else None
  | [] => None
  end.

Definition groups_of (m : str * str * str * str) : result :=
  let '(g1, g2, g3, rest) := m in (rest, [(3, g3); (2, g2); (1, g1)]).

(** The two line breaks the pattern knows. *)
Definition is_nl (nl : str) : Prop := nl = [LF] \/ nl = [CR; LF].

(** \r?\n\s*A\d+[：:]\s*(.+?)(?=...) : an answer marker and an answer
    start here. *)
Definition answer_after (s : str) : option (str * str) :=
  s' <- marker_at s ;; answer_at s'.

(** No white character at either end. *)
Definition trimmed (s : str) : Prop :=
  stops is_space s /\ stops is_space (rev s).

(** Every carriage return is the first half of a CRLF line break. *)
Fixpoint crlf_lines (s : str) : bool :=
  match s with
  | [] => true
  | c :: s' =>
      (if (c =? CR)%N
       then match s' with
            | c' :: _ => (c' =? LF)%N
            | [] => false
            end
       else true) && crlf_lines s'
  end.

Definition has_id (k : N) (r : qa) : bool := (qa_id r =? k)%N.

Definition id_le (a b : qa) : Prop := (qa_id a <= qa_id b)%N.

(** [a] stands in [s] as it is, in one piece. *)
Definition sub_text (a s : str) : Prop := exists pre post, s = pre ++ a ++ post.

(** The groups [g] are those of a match found somewhere in [content]. *)
Definition matched_in (content : str) (g : groups) : Prop :=
  exists pre s rest, content = pre ++ s /\ match_here pattern s = Some (rest, g).

(** [head] runs from the question marker of a match through the
    separator of its answer marker. *)
Definition answer_head (g : groups) (head : str) : Prop :=
  exists c1 w1 w2 da c2,
    head = cQ :: get_group 1 g ++ c1 :: w1 ++ get_group 2 g ++ w2 ++ cA :: da ++ [c2] /\
    is_sep c1 = true /\ all is_space w1 /\ all is_space w2 /\
    da <> [] /\ all is_digit da /\ is_sep c2 = true.

(** [u = x ++ y], and [y] is the first place of [u], counted from its
    very start, where the lookahead holds. *)
Definition first_boundary (u x y : str) : Prop :=
  u = x ++ y /\ boundary y = true /\
  forall x1 x2, x = x1 ++ x2 -> x2 <> [] -> boundary (x2 ++ y) = false.

(** The answer body read as running from right after the answer
    separator to the first place where the lookahead holds, the rest of
    the text staying out of the match. *)
Definition body_to_first_boundary (s : str) : Prop :=
  forall rest g head u x y,
    match_here pattern s = Some (rest, g) ->
    s = head ++ u -> answer_head g head ->
    first_boundary u x y ->
    (exists w3, x = w3 ++ get_group 3 g /\ all is_space w3) /\ rest = y.

(** ** Well-formed documents

    An entry as the specification writes it: [Q<digits><colon> question]
    on one line, then [A<digits><colon> answer], each text starting with
    a visible character after optional blank padding.  The answer may
    run over several lines, as long as it has no blank line inside and
    does not end with a line break. *)

Record entry : Type := mk_entry {
  e_qdigits : str;
  e_qsep : char;
  e_qpad : str;
  e_question : str;
  e_adigits : str;
  e_asep : char;
  e_apad : str;
  e_answer : str
}.

Definition one_line (s : str) : bool :=
  forallb (fun c => negb ((c =? LF)%N || (c =? CR)%N)) s.

Definition digits_ok (d : str) : bool :=
  match d with
  | [] => false
  | _ :: _ => forallb is_digit d
  end.

Definition pad_ok (w : str) : bool := forallb is_space w && one_line w.

(** Not empty, a visible character first, no line break inside. *)
Definition text_ok (s : str) : bool :=
  match s with
  | c :: _ => negb (is_space c) && one_line s
  | [] => false
  end.

Definition is_break (c : char) : bool := (c =? LF)%N || (c =? CR)%N.

(** Two line breaks start here. *)
Definition two_breaks (s : str) : bool :=
  is_some (s1 <- eat_nl s ;; eat_nl s1).

Fixpoint no_blank_line (s : str) : bool :=
  match s with
  | [] => true
  | _ :: s' => negb (two_breaks s) && no_blank_line s'
  end.

Definition last_not_break (s : str) : bool :=
  match rev s with
  | c :: _ => negb (is_break c)
  | [] => false
  end.

(** Not empty, a visible character first, no blank line inside, no line
    break at the end. *)
Definition answer_ok (s : str) : bool :=
  match s with
  | c :: _ => negb (is_space c) && no_blank_line s && last_not_break s
  | [] => false
  end.

Definition well_formed (e : entry) : bool :=
  digits_ok (e_qdigits e) && is_sep (e_qsep e) && pad_ok (e_qpad e) &&
  text_ok (e_question e) &&
  digits_ok (e_adigits e) && is_sep (e_asep e) && pad_ok (e_apad e) &&
  answer_ok (e_answer e).

Definition render (nl : str) (e : entry) : str :=
  cQ :: e_qdigits e ++ e_qsep e :: e_qpad e ++ e_question e ++ nl ++
  cA :: e_adigits e ++ e_asep e :: e_apad e ++ e_answer e.

(** The entries, one blank line between two of them. *)
Fixpoint document (nl : str) (es : list entry) : str :=
  match es with
  | [] => []
  | e :: es' =>
      match es' with
      | [] => render nl e
      | _ :: _ => render nl e ++ nl ++ nl ++ document nl es'
      end
  end.

Definition entry_groups (e : entry) : groups :=
  [(3, e_answer e); (2, e_question e); (1, e_qdigits e)].

(** What may follow an entry: nothing, or a blank line and an entry. *)
Definition entry_tail (nl tail : str) : Prop :=
  tail = [] \/
  exists e t, well_formed e = true /\ tail = nl ++ nl ++ render nl e ++ t.

(** Two entries, the first with an answer of two lines, the second with
    full-width separators. *)
Definition sample_entries : list entry :=
  [mk_entry (txt "7") colon (txt " ") (txt "Where?")
            (txt "7") colon (txt " ") (txt "Here," ++ [CR; LF] ++ txt "  or there.");
   mk_entry (txt "3") fwcolon [] (txt "When?") (txt "30") fwcolon [] (txt "Now.")].

(** ** The failure to read, as the specification puts it *)



(** ** Looking for a place where something holds *)

(** [P] holds here or further on. *)
Fixpoint any_at (P : str -> bool) (s : str) : bool :=
  P s || match s with
         | [] => false
         | _ :: s' => any_at P s'
         end.

(** [P] holds here or further on, going over white characters only. *)
Fixpoint any_ws (P : str -> bool) (s : str) : bool :=
  P s || match s with
         | [] => false
         | c :: s' => is_space c && any_ws P s'
         end.

(** ** The scan, and answer markers with other digits *)

(** The scan of [findall], started on [t], makes an attempt on [u]. *)
Inductive reaches : str -> str -> Prop :=
| reach_here (t : str) : reaches t t
| reach_skip (c : char) (t u : str) :
    match_here pattern (c :: t) = None -> reaches t u -> reaches (c :: t) u
| reach_match (t rest u : str) (g : groups) :
    match_here pattern t = Some (rest, g) -> reaches rest u -> reaches t u.

(** [t'] is [t] with other digits in the answer markers of some of its
    matches.  The markers change one after the other; each is the
    answer marker of a match that the scan of the text at hand finds:
    the [A<digits><colon>] that stands right before the white characters
    and the body of group 3. *)
Inductive answer_digits_variant : str -> str -> Prop :=
| adv_same (t : str) : answer_digits_variant t t
| adv_marker (pre head d d' : str) (c : char) (w3 rest : str) (g : groups) (t' : str) :
    reaches (pre ++ head ++ cA :: d ++ c :: w3 ++ get_group 3 g ++ rest)
            (head ++ cA :: d ++ c :: w3 ++ get_group 3 g ++ rest) ->
    match_here pattern (head ++ cA :: d ++ c :: w3 ++ get_group 3 g ++ rest) =
      Some (rest, g) ->
    d <> [] /\ all is_digit d -> d' <> [] /\ all is_digit d' ->
    is_sep c = true -> all is_space w3 ->
    answer_digits_variant
      (pre ++ head ++ cA :: d' ++ c :: w3 ++ get_group 3 g ++ rest) t' ->
    answer_digits_variant
      (pre ++ head ++ cA :: d ++ c :: w3 ++ get_group 3 g ++ rest) t'.
(** * The command line: [main]

    [main] picks the two paths, announces them, calls
    [convert_txt_to_json] and previews the first three records.  The
    two default paths are built from the place of the script with
    [os.path]; they are parameters here. *)

(** [str(n)] for an integer that is not negative: its decimal digits,
    most significant first.  The fuel is the number of binary digits,
    which is never less than the number of decimal ones. *)
Fixpoint decimal_N (fuel : nat) (n : N) (acc : str) : str :=
  match fuel with
  | O => acc
  | S fuel' =>
      let acc' := (48 + n mod 10)%N :: acc in
      if (n / 10 =? 0)%N then acc' else decimal_N fuel' (n / 10)%N acc'
  end.

Definition str_of_N (n : N) : str :=
  decimal_N (S (N.to_nat (N.log2 n))) n [].

(** The input and the output path, from [sys.argv]. *)
Definition choose_paths (argv : list str) (default_input default_output : str)
  : str * str :=
  if 3 <=? length argv then (nth 1 argv [], nth 2 argv [])
  else if length argv =? 2 then (nth 1 argv [], default_output)
  else (default_input, default_output).

(** f"📖 讀取檔案: {input_file}" *)
Definition reading_msg (input_file : str) : str :=
  [128214; 32; 35712; 21462; 27284; 26696; 58; 32]%N ++ input_file.

(** f"📝 輸出檔案: {output_file}" *)
Definition writing_msg (output_file : str) : str :=
  [128221; 32; 36664; 20986; 27284; 26696; 58; 32]%N ++ output_file.

(** "\n📋 預覽前 3 條 QA:" *)
Definition preview_header : str :=
  [10; 128203; 32; 38928; 35261; 21069; 32; 51; 32; 26781; 32; 81; 65; 58]%N.

(** The three [print] calls of the preview loop for one record. *)
Definition preview (r : qa) : list event :=
  [Print (txt "  [" ++ str_of_N (qa_id r) ++ txt "] Q: " ++
          firstn 40 (question r) ++ txt "...");
   Print (txt "       A: " ++ firstn 50 (answer r) ++ txt "...");
   Print []].

(** How [main] ends: it runs to its end, [sys.exit] is called, or an
    exception leaves it. *)
Inductive ending : Type :=
| Finished
| Exited (code : N)
| Failed (e : exn).

Definition main (w : world) (argv : list str)
  (default_input default_output : str) : list event * ending :=
  let (input_file, output_file) :=
    choose_paths argv default_input default_output in
  let announced :=
    [Print (reading_msg input_file); Print (writing_msg output_file)] in
  match convert_txt_to_json w input_file output_file with
  | (ev, Returned l) =>
      (announced ++ ev ++ Print preview_header :: flat_map preview (firstn 3 l),
       Finished)
  | (ev, SysExit code) => (announced ++ ev, Exited code)
  | (ev, Uncaught e) => (announced ++ ev, Failed e)
  end.

(** A file system that holds the example document under every name and
    lets every path be written. *)
Definition example_world : world :=
  mk_world (fun _ => ReadText example_doc) (fun _ => None).

(** ** Further notions used to state what the extraction does *)

(** How often [c] stands in [s]. *)
Definition occurrences (c : char) (s : str) : nat :=
  length (filter (N.eqb c) s).

(** The characters of [s] that are not white. *)
Definition visible (s : str) : str :=
  filter (fun c => negb (is_space c)) s.

(** The pieces stand in the text one after the other, without
    overlapping. *)
Inductive in_order : list str -> str -> Prop :=
| in_order_nil (t : str) : in_order [] t
| in_order_cons (p : str) (ps : list str) (pre t : str) :
    in_order ps t -> in_order (p :: ps) (pre ++ p ++ t).

(** The three groups of a match, as they come in the text. *)
Definition pieces (g : groups) : list str :=
  [get_group 1 g; get_group 2 g; get_group 3 g].

(** [f] keeps everything the two patterns, [strip] and [int] can see of
    a character. *)
Definition class_preserving (f : char -> char) : Prop :=
  forall c,
    is_space (f c) = is_space c /\
    is_digit (f c) = is_digit c /\
    digit_value (f c) = digit_value c /\
    is_sep (f c) = is_sep c /\
    (f c =? cQ)%N = (c =? cQ)%N /\
    (f c =? cA)%N = (c =? cA)%N /\
    (f c =? CR)%N = (c =? CR)%N /\
    (f c =? LF)%N = (c =? LF)%N.

(** [f] applied to the two texts of a record. *)
Definition map_texts (f : char -> char) (r : qa) : qa :=
  mk_qa (qa_id r) (map f (question r)) (map f (answer r)).

(** Every half-width colon made full-width, and the other way round. *)
Definition to_fullwidth (c : char) : char :=
  if (c =? colon)%N then fwcolon else c.

Definition to_halfwidth (c : char) : char :=
  if (c =? fwcolon)%N then colon else c.

(** [f] applied to the texts of the groups, and to a result of the
    matcher. *)
Definition map_groups (f : char -> char) (g : groups) : groups :=
  map (fun p => (fst p, map f (snd p))) g.

Definition map_result (f : char -> char) (x : result) : result :=
  (map f (fst x), map_groups f (snd x)).

(** [f] keeps every class that [r] asks for. *)
Fixpoint keeps_classes (f : char -> char) (r : regex) : Prop :=
  match r with
  | RChar k => forall c, cmatch k (f c) = cmatch k c
  | RRep _ _ _ k => forall c, cmatch k (f c) = cmatch k c
  | RSeq r1 r2 => keeps_classes f r1 /\ keeps_classes f r2
  | RAlt r1 r2 => keeps_classes f r1 /\ keeps_classes f r2
  | RGroup _ r1 => keeps_classes f r1
  | RLook r1 => keeps_classes f r1
  | REnd => True
  | REps => True
  end.

(** A question with no answer of its own, then a full entry. *)
Definition unanswered_doc : str :=
  txt "Q1:a" ++ [LF; LF] ++ txt "Q2:b" ++ [LF] ++ txt "A2:c".

(** The number of characters in the questions and answers of the
    records. *)
Fixpoint text_size (rs : list qa) : nat :=
  match rs with
  | [] => 0
  | r :: rs' => length (question r) + length (answer r) + text_size rs'
  end.
(** * The host

    Two things the run depends on besides the file system: the limit
    the interpreter puts on the number of digits that [int] converts
    ([sys.get_int_max_str_digits()]: 4300 unless set otherwise, 0 for
    no limit; the interpreter accepts 0 or a value of at least 640), and
    a console that can refuse a line ([print] raises, for instance
    [UnicodeEncodeError] when the encoding of the console has no code
    for a character).  The functions of the source are modelled again
    with both. *)

Module Host.

Record host : Type := mk_host {
  files : world;
  int_max_str_digits : nat;            (* sys.get_int_max_str_digits() *)
  print_fails : str -> option exn      (* print(line) raises *)
}.

Definition default_max_str_digits : nat := 4300.

(** The string has more digits than the limit allows.  Every character
    counts, zeros in front included. *)
Definition over_limit (limit : nat) (s : str) : bool :=
  (0 <? limit) && (limit <? length s).

(** [int(s)] under the limit. *)
Definition py_int (limit : nat) (s : str) : option N :=
  if over_limit limit s then None else py_int s.

(** The body of the loop over the matches. *)
Definition record_of (limit : nat) (m : groups) : option qa :=
  i <- py_int limit (get_group 1 m) ;;
  let q := strip (get_group 2 m) in
  a <- sub_empty newline_re (strip (get_group 3 m)) ;;
  Some (mk_qa i q a).

Fixpoint records_of (limit : nat) (ms : list groups) : option (list qa) :=
  match ms with
  | [] => Some []
  | m :: ms' =>
      r <- record_of limit m ;;
      rs <- records_of limit ms' ;;
      Some (r :: rs)
  end.

Definition collected (limit : nat) (content : str) : option (list qa) :=
  ms <- findall pattern content ;;
  records_of limit ms.

(** [qa_list] after the sort; [None] is the [ValueError] of [int]. *)
Definition qa_list (limit : nat) (content : str) : option (list qa) :=
  option_map sort_by_id (collected limit content).

(** ** Effects

    A computation leaves the events that happened, in order, and ends
    with a value, with [sys.exit] or with an exception. *)

Inductive result (A : Type) : Type :=
| Done (a : A)
| Exits (code : N)
| Raises (e : exn).

Arguments Done {A} a.
Arguments Exits {A} code.
Arguments Raises {A} e.

Definition io (A : Type) : Type := (list event * result A)%type.

Definition ret {A : Type} (a : A) : io A := ([], Done a).

Definition raise {A : Type} (e : exn) : io A := ([], Raises e).

Definition sys_exit {A : Type} (code : N) : io A := ([], Exits code).

Definition and_then {A B : Type} (m : io A) (k : A -> io B) : io B :=
  match m with
  | (ev, Done a) => let (ev', r) := k a in (ev ++ ev', r)
  | (ev, Exits code) => (ev, Exits code)
  | (ev, Raises e) => (ev, Raises e)
  end.

Notation "x <~ m ;; k" := (and_then m (fun x => k))
  (at level 61, m at next level, right associativity).

(** [print(line)]: the line reaches the console, or nothing does and
    the exception is raised. *)
Definition print (h : host) (line : str) : io unit :=
  match print_fails h line with
  | Some e => raise e
  | None => ([Print line], Done tt)
  end.

(** [with open(path, "w", encoding="utf-8") as f: json.dump(data, f, ...)]:
    the path cannot be opened for writing and the exception is raised,
    or the file receives the records.  A device that fails in the
    middle of the writing is not modelled. *)
Definition write_json (h : host) (path : str) (data : list qa) : io unit :=
  match write_fails (files h) path with
  | Some e => raise e
  | None => ([WriteJson path data], Done tt)
  end.

Definition convert_txt_to_json (h : host) (input_file output_file : str)
  : io (list qa) :=
  match read_file (files h) input_file with
  | ReadFails FileNotFoundError =>
      _ <~ print h (not_found_msg input_file) ;;
      sys_exit 1
  | ReadFails e => raise e
  | ReadText content =>
      match qa_list (int_max_str_digits h) content with
      | None => raise ValueError
      | Some l =>
          _ <~ write_json h output_file l ;;
          _ <~ print h (done_msg (length l) output_file) ;;
          ret l
      end
  end.

(** f"  [{qa['id']}] Q: {qa['question'][:40]}..." *)
Definition question_line (r : qa) : str :=
  txt "  [" ++ str_of_N (qa_id r) ++ txt "] Q: " ++
  firstn 40 (question r) ++ txt "...".

(** f"       A: {qa['answer'][:50]}..." *)
Definition answer_line (r : qa) : str :=
  txt "       A: " ++ firstn 50 (answer r) ++ txt "...".

(** The preview loop. *)
Fixpoint preview_all (h : host) (rs : list qa) : io unit :=
  match rs with
  | [] => ret tt
  | r :: rs' =>
      _ <~ print h (question_line r) ;;
      _ <~ print h (answer_line r) ;;
      _ <~ print h [] ;;
      preview_all h rs'
  end.

Definition main (h : host) (argv : list str)
  (default_input default_output : str) : io unit :=
  let (input_file, output_file) :=
    choose_paths argv default_input default_output in
  _ <~ print h (reading_msg input_file) ;;
  _ <~ print h (writing_msg output_file) ;;
  l <~ convert_txt_to_json h input_file output_file ;;
  _ <~ print h preview_header ;;
  preview_all h (firstn 3 l).

(** A host with no limit on the digits and a console that takes every
    line; and one with the limit the interpreter starts with. *)
Definition ideal (w : world) : host := mk_host w 0 (fun _ => None).

Definition usual (w : world) : host :=
  mk_host w default_max_str_digits (fun _ => None).

(** The results of the first model, read as results of this one. *)
Definition of_outcome (x : list event * outcome) : io (list qa) :=
  match x with
  | (ev, Returned l) => (ev, Done l)
  | (ev, SysExit code) => (ev, Exits code)
  | (ev, Uncaught e) => (ev, Raises e)
  end.

Definition of_ending (x : list event * ending) : io unit :=
  match x with
  | (ev, Finished) => (ev, Done tt)
  | (ev, Exited code) => (ev, Exits code)
  | (ev, Failed e) => (ev, Raises e)
  end.

End Host.
(** * What the specification says, where the code does otherwise *)

(** The extraction returns a list of records on this text. *)
Definition returns_records (limit : nat) (content : str) : Prop :=
  exists rs, Host.qa_list limit content = Some rs.

(** One entry whose question marker has 4301 digits. *)
Definition long_id_doc : str :=
  cQ :: repeat 49%N 4301 ++ txt ":a" ++ [LF] ++ txt "A1:b".

(** A file system that holds that document under every name. *)
Definition long_id_world : world :=
  mk_world (fun _ => ReadText long_id_doc) (fun _ => None).

(** An entry as the specification words it: [Q<digits><colon> question] on
    one line, then [A<digits><colon> answer] on one line with an answer
    that is not empty. *)
Definition as_claimed (e : entry) : bool :=
  digits_ok (e_qdigits e) && is_sep (e_qsep e) && pad_ok (e_qpad e) &&
  one_line (e_question e) &&
  digits_ok (e_adigits e) && is_sep (e_asep e) && pad_ok (e_apad e) &&
  one_line (e_answer e) &&
  match e_answer e with
  | [] => false
  | _ :: _ => true
  end.

(** The document of these entries gives one record for each. *)
Definition all_extracted (limit : nat) (nl : str) (es : list entry) : Prop :=
  exists rs,
    Host.qa_list limit (document nl es) = Some rs /\ length rs = length es.

(** An entry with no question text; and two entries, the first with an
    answer made of one space. *)
Definition empty_question_entries : list entry :=
  [mk_entry (txt "1") colon [] [] (txt "1") colon [] (txt "x")].

Definition white_answer_entries : list entry :=
  [mk_entry (txt "1") colon [] (txt "a") (txt "1") colon [] (txt " ");
   mk_entry (txt "2") colon [] (txt "b") (txt "2") colon [] (txt "c")].

(** [t'] is [t] with other digits in one place where a line break,
    white characters if any, [A], digits and a colon stand. *)
Definition answer_digits_changed (t t' : str) : Prop :=
  exists pre nl ws d d' c post,
    t = pre ++ nl ++ ws ++ cA :: d ++ c :: post /\
    t' = pre ++ nl ++ ws ++ cA :: d' ++ c :: post /\
    is_nl nl /\ all is_space ws /\
    (d <> [] /\ all is_digit d) /\ (d' <> [] /\ all is_digit d') /\
    is_sep c = true.

(** Two such texts always give the same records. *)
Definition answer_digits_never_matter (limit : nat) : Prop :=
  forall t t', answer_digits_changed t t' ->
               Host.qa_list limit t = Host.qa_list limit t'.

(** [empty_answer_doc] with [A7] for [A2]. *)
Definition empty_answer_doc_A7 : str :=
  txt "Q1:a" ++ [LF] ++ txt "A1:" ++ [LF; LF] ++
  txt "Q2:b" ++ [LF] ++ txt "A7:c".

(** A console that has no code for the check mark of the success
    message, and takes every other line. *)
Definition no_check_mark (line : str) : option exn :=
  if existsb (N.eqb 9989) line then Some UnicodeEncodeError else None.

Definition plain_console_host : Host.host :=
  Host.mk_host example_world Host.default_max_str_digits no_check_mark.

(** What [findall] gives for a well-formed entry: its digits, its
    question, and its answer with white text after it at most. *)
Definition entry_matched (e : entry) (g : groups) : Prop :=
  get_group 1 g = e_qdigits e /\ get_group 2 g = e_question e /\
  exists t, get_group 3 g = e_answer e ++ t /\ all is_space t.

(** The event is a write to a file. *)
Definition is_write (e : event) : bool :=
  match e with
  | WriteJson _ _ => true
  | Print _ => false
  end.

(** * Properties *)

(** ** Characters *)

Lemma is_space_In (c : char) : is_space c = true <-> In c space_chars.
Proof.
  unfold is_space. rewrite existsb_exists. split.
  - intros (x & Hx & E). apply N.eqb_eq in E. now subst.
  - intros H. exists c. split; [assumption | apply N.eqb_refl].
Qed.

Lemma digit_not_space (c : char) : is_digit c = true -> is_space c = false.
Proof.
  intros Hd. destruct (is_space c) eqn:Hs; [|reflexivity].
  apply is_space_In in Hs. simpl in Hs.
  repeat (destruct Hs as [Hs|Hs]; [subst c; vm_compute in Hd; discriminate|]).
  contradiction.
Qed.

Lemma digit_has_value (c : char) :
  is_digit c = true -> exists v, digit_value c = Some v.
Proof.
  unfold is_digit, digit_value. intros H.
  destruct (find (in_range c) decimal_ranges) eqn:F.
  - eexists. reflexivity.
  - apply existsb_exists in H. destruct H as (r & Hin & Hr).
    rewrite (find_none _ _ F r Hin) in Hr. discriminate.
Qed.

Lemma is_sep_cases (c : char) : is_sep c = true <-> c = fwcolon \/ c = colon.
Proof.
  unfold is_sep, seps. simpl. rewrite !orb_true_iff, !N.eqb_eq.
  intuition discriminate.
Qed.

Lemma sep_not_digit (c : char) : is_sep c = true -> is_digit c = false.
Proof. intros H. apply is_sep_cases in H. destruct H; subst; reflexivity. Qed.

Lemma sep_not_space (c : char) : is_sep c = true -> is_space c = false.
Proof. intros H. apply is_sep_cases in H. destruct H; subst; reflexivity. Qed.

(** ** Longest prefixes *)

Section Prefix.
Variable p : char -> bool.

Lemma take_drop (s : str) : take_while p s ++ drop_while p s = s.
Proof.
  induction s as [|c s IH]; simpl; [reflexivity|].
  destruct (p c); simpl; [now rewrite IH | reflexivity].
Qed.

Lemma take_while_all (s : str) : all p (take_while p s).
Proof.
  induction s as [|c s IH]; simpl; [constructor|].
  destruct (p c) eqn:E; constructor; assumption.
Qed.

Lemma drop_while_stops (s : str) : stops p (drop_while p s).
Proof.
  induction s as [|c s IH]; simpl; [exact I|].
  destruct (p c) eqn:E; [assumption | exact E].
Qed.

Lemma take_while_app (a s : str) :
  all p a -> stops p s -> take_while p (a ++ s) = a.
Proof.
  induction 1 as [|c a Hc Ha IH]; intros Hs; simpl.
  - destruct s as [|c s]; simpl in *; [reflexivity | now rewrite Hs].
  - rewrite Hc. now rewrite IH.
Qed.

Lemma drop_while_app (a s : str) :
  all p a -> stops p s -> drop_while p (a ++ s) = s.
Proof.
  induction 1 as [|c a Hc Ha IH]; intros Hs; simpl.
  - destruct s as [|c s]; simpl in *; [reflexivity | now rewrite Hs].
  - rewrite Hc. now apply IH.
Qed.

(** A text splits in one way only into a run of [p] and a rest that
    stops. *)
Lemma split_unique (a b s t : str) :
  all p a -> all p b -> stops p s -> stops p t -> a ++ s = b ++ t ->
  a = b /\ s = t.
Proof.
  intros Ha Hb Hs Ht E.
  assert (Ea : take_while p (a ++ s) = a) by now apply take_while_app.
  assert (Es : drop_while p (a ++ s) = s) by now apply drop_while_app.
  rewrite E in Ea, Es.
  rewrite take_while_app in Ea by assumption.
  rewrite drop_while_app in Es by assumption.
  now split.
Qed.
End Prefix.

Lemma capture_app (a s : str) : capture (a ++ s) s = a.
Proof.
  unfold capture. rewrite length_app.
  replace (length a + length s - length s) with (length a) by lia.
  rewrite firstn_app, firstn_all, Nat.sub_diag. simpl. apply app_nil_r.
Qed.

(** ** The single-character repeats

    With no upper bound, a repeat offers its continuation every split of
    the text after a run of the class: the lazy one from the shortest
    run up, the greedy one from the longest run down. *)

Section RepeatFacts.
Variable R : Type.
Variable k : cclass.
Variable lo : nat.
Variable K : str -> option R.

Local Abbreviation inclass := (all (cmatch k)).

Lemma rep_lazy_sound (s : str) : forall n r,
  rep_lazy k lo None K n s = Some r ->
  exists p s', s = p ++ s' /\ inclass p /\ lo <= n + length p /\ K s' = Some r /\
    (forall p1 p2, p = p1 ++ p2 -> p2 <> [] -> lo <= n + length p1 ->
       K (p2 ++ s') = None).
Proof.
  induction s as [|c s IH]; intros n r H; simpl in H.
  - destruct (Nat.leb lo n) eqn:L; [|discriminate].
    destruct (K []) eqn:E; [|discriminate]. injection H as ->.
    apply Nat.leb_le in L.
    exists [], []. repeat split; simpl; try assumption; try constructor; try lia.
    intros p1 p2 E'. symmetry in E'. apply app_eq_nil in E' as [_ ->]. congruence.
  - destruct (if Nat.leb lo n then K (c :: s) else None) eqn:E.
    + injection H as ->. destruct (Nat.leb lo n) eqn:L; [|discriminate].
      apply Nat.leb_le in L.
      exists [], (c :: s). repeat split; simpl; try assumption; try constructor; try lia.
      intros p1 p2 E'. symmetry in E'. apply app_eq_nil in E' as [_ ->]. congruence.
    + rewrite andb_true_r in H. destruct (cmatch k c) eqn:C; [|discriminate].
      apply IH in H. destruct H as (p & s' & -> & Hp & Hlo & HK & Hmin).
      exists (c :: p), s'. repeat split; simpl; try assumption; try lia.
      * constructor; assumption.
      * intros p1 p2 E' Hne Hl. destruct p1 as [|c1 p1]; simpl in *.
        -- subst p2. simpl. destruct (Nat.leb lo n) eqn:L; [assumption|].
           apply Nat.leb_gt in L. lia.
        -- injection E' as <- ->. apply (Hmin p1 p2); [reflexivity|assumption|lia].
Qed.

Lemma rep_lazy_complete (p : str) : forall n s' r,
  inclass p -> lo <= n + length p -> K s' = Some r ->
  (forall p1 p2, p = p1 ++ p2 -> p2 <> [] -> lo <= n + length p1 ->
     K (p2 ++ s') = None) ->
  rep_lazy k lo None K n (p ++ s') = Some r.
Proof.
  induction p as [|c p IH]; intros n s' r Hp Hlo HK Hmin; simpl in *.
  - assert (L : Nat.leb lo n = true) by (apply Nat.leb_le; lia).
    destruct s'; simpl; rewrite L, HK; reflexivity.
  - inversion Hp as [|? ? Hc Hp']; subst.
    assert (E : (if Nat.leb lo n then K (c :: p ++ s') else None) = None).
    { destruct (Nat.leb lo n) eqn:L; [|reflexivity]. apply Nat.leb_le in L.
      apply (Hmin [] (c :: p)); [reflexivity|discriminate|simpl; lia]. }
    rewrite E, Hc. simpl. apply IH; try assumption; try lia.
    intros p1 p2 -> Hne Hl. apply (Hmin (c :: p1) p2); [reflexivity|assumption|simpl; lia].
Qed.

Lemma rep_lazy_none (s : str) : forall n,
  rep_lazy k lo None K n s = None ->
  forall p s', s = p ++ s' -> inclass p -> lo <= n + length p -> K s' = None.
Proof.
  induction s as [|c s IH]; intros n H p s' E Hp Hlo; simpl in H.
  - symmetry in E. apply app_eq_nil in E as [-> ->]. simpl in Hlo.
    assert (L : Nat.leb lo n = true) by (apply Nat.leb_le; lia).
    rewrite L in H. destruct (K []); [discriminate|reflexivity].
  - destruct (if Nat.leb lo n then K (c :: s) else None) eqn:E0; [discriminate|].
    destruct p as [|c' p]; simpl in *.
    + subst s'. assert (L : Nat.leb lo n = true) by (apply Nat.leb_le; lia).
      now rewrite L in E0.
    + injection E as <- ->. inversion Hp as [|? ? Hc Hp']; subst.
      rewrite Hc in H. simpl in H.
      apply (IH _ H p s'); [reflexivity|assumption|lia].
Qed.

Lemma rep_lazy_some (p : str) : forall n s' r,
  inclass p -> lo <= n + length p -> K s' = Some r ->
  exists r', rep_lazy k lo None K n (p ++ s') = Some r'.
Proof.
  intros n s' r Hp Hlo HK.
  destruct (rep_lazy k lo None K n (p ++ s')) eqn:E; [eauto|].
  rewrite (rep_lazy_none _ _ E p s' eq_refl Hp Hlo) in HK. discriminate.
Qed.

Lemma rep_greedy_none (q : str) : forall m s'',
  inclass q -> lo <= m + length q ->
  rep_greedy k lo None K m (q ++ s'') = None -> K s'' = None.
Proof.
  induction q as [|c q IH]; intros m s'' Hq Hlo G; simpl in *.
  - assert (L : Nat.leb lo m = true) by (apply Nat.leb_le; lia).
    destruct s'' as [|c s'']; simpl in G; rewrite L in G.
    + assumption.
    + destruct (cmatch k c && true);
        [destruct (rep_greedy k lo None K (S m) s'')|]; congruence.
  - inversion Hq as [|? ? Hc Hq']; subst. rewrite Hc in G. simpl in G.
    destruct (rep_greedy k lo None K (S m) (q ++ s'')) eqn:G'; [discriminate|].
    apply (IH (S m)); [assumption|lia|assumption].
Qed.

Lemma rep_greedy_sound (s : str) : forall n r,
  rep_greedy k lo None K n s = Some r ->
  exists p s', s = p ++ s' /\ inclass p /\ lo <= n + length p /\ K s' = Some r /\
    (forall q s'', s' = q ++ s'' -> q <> [] -> inclass q -> K s'' = None).
Proof.
  induction s as [|c s IH]; intros n r H; simpl in H.
  - destruct (Nat.leb lo n) eqn:L; [|discriminate]. apply Nat.leb_le in L.
    exists [], []. repeat split; simpl; try assumption; try constructor; try lia.
    intros q s'' E. symmetry in E. apply app_eq_nil in E as [-> _]. congruence.
  - rewrite andb_true_r in H. destruct (cmatch k c) eqn:C.
    + destruct (rep_greedy k lo None K (S n) s) eqn:G.
      * injection H as ->. apply IH in G.
        destruct G as (p & s' & -> & Hp & Hlo & HK & Hmax).
        exists (c :: p), s'. repeat split; simpl; try assumption; try lia.
        constructor; assumption.
      * destruct (Nat.leb lo n) eqn:L; [|discriminate]. apply Nat.leb_le in L.
        exists [], (c :: s). repeat split; simpl; try assumption; try constructor; try lia.
        intros q s'' E Hne Hq. destruct q as [|c' q]; [congruence|].
        simpl in E. injection E as <- ->. inversion Hq; subst.
        apply (rep_greedy_none q (S n) s''); [assumption|lia|assumption].
    + destruct (Nat.leb lo n) eqn:L; [|discriminate]. apply Nat.leb_le in L.
      exists [], (c :: s). repeat split; simpl; try assumption; try constructor; try lia.
      intros q s'' E Hne Hq. destruct q as [|c' q]; [congruence|].
      simpl in E. injection E as <- ->. inversion Hq; subst. congruence.
Qed.

Lemma rep_greedy_complete (p : str) : forall n s' r,
  inclass p -> lo <= n + length p -> K s' = Some r ->
  (forall q s'', s' = q ++ s'' -> q <> [] -> inclass q -> K s'' = None) ->
  rep_greedy k lo None K n (p ++ s') = Some r.
Proof.
  induction p as [|c p IH]; intros n s' r Hp Hlo HK Hmax; simpl in *.
  - assert (L : Nat.leb lo n = true) by (apply Nat.leb_le; lia).
    destruct s' as [|c s']; simpl; rewrite L; [assumption|].
    rewrite andb_true_r. destruct (cmatch k c) eqn:C; [|assumption].
    destruct (rep_greedy k lo None K (S n) s') eqn:G; [|assumption].
    exfalso. apply rep_greedy_sound in G.
    destruct G as (q & s'' & -> & Hq & _ & HK' & _).
    rewrite (Hmax (c :: q) s'') in HK'; [discriminate|reflexivity|discriminate|].
    constructor; assumption.
  - inversion Hp as [|? ? Hc Hp']; subst. rewrite Hc. simpl.
    rewrite (IH (S n) s' r); try assumption; try lia. reflexivity.
Qed.

(** When the continuation refuses every text that starts inside the
    class, the greedy repeat has one candidate only: the longest run. *)
Lemma rep_greedy_det (s : str) :
  (forall c s', cmatch k c = true -> K (c :: s') = None) ->
  forall n,
  rep_greedy k lo None K n s =
  if Nat.leb lo (n + length (take_while (cmatch k) s))
  then K (drop_while (cmatch k) s) else None.
Proof.
  intros HK. induction s as [|c s IH]; intros n; simpl.
  - now rewrite Nat.add_0_r.
  - rewrite andb_true_r. destruct (cmatch k c) eqn:C; simpl.
    + rewrite IH. replace (n + S (length (take_while (cmatch k) s)))
        with (S n + length (take_while (cmatch k) s)) by lia.
      destruct (Nat.leb lo (S n + _)); [|rewrite HK by assumption; now destruct (Nat.leb lo n)].
      destruct (K (drop_while (cmatch k) s)); [reflexivity|].
      rewrite HK by assumption. now destruct (Nat.leb lo n).
    + now rewrite Nat.add_0_r.
Qed.
End RepeatFacts.

Section RepeatMaps.
Variables R R' : Type.
Variable k : cclass.
Variables (lo : nat) (hi : option nat).

Lemma rep_greedy_ext (K K' : str -> option R) :
  (forall s, K s = K' s) ->
  forall s n, rep_greedy k lo hi K n s = rep_greedy k lo hi K' n s.
Proof.
  intros E. induction s as [|c s IH]; intros n; simpl.
  - now rewrite E.
  - rewrite IH, E. reflexivity.
Qed.

Lemma rep_lazy_ext (K K' : str -> option R) :
  (forall s, K s = K' s) ->
  forall s n, rep_lazy k lo hi K n s = rep_lazy k lo hi K' n s.
Proof.
  intros E. induction s as [|c s IH]; intros n; simpl.
  - now rewrite E.
  - rewrite IH, E. reflexivity.
Qed.

Lemma rep_greedy_map (f : R -> R') (K : str -> option R) :
  forall s n,
  rep_greedy k lo hi (fun s' => option_map f (K s')) n s =
  option_map f (rep_greedy k lo hi K n s).
Proof.
  induction s as [|c s IH]; intros n; simpl.
  - now destruct (Nat.leb lo n).
  - rewrite IH. destruct (cmatch k c && below hi n).
    + destruct (rep_greedy k lo hi K (S n) s); simpl; [reflexivity|].
      now destruct (Nat.leb lo n).
    + now destruct (Nat.leb lo n).
Qed.

Lemma rep_lazy_map (f : R -> R') (K : str -> option R) :
  forall s n,
  rep_lazy k lo hi (fun s' => option_map f (K s')) n s =
  option_map f (rep_lazy k lo hi K n s).
Proof.
  induction s as [|c s IH]; intros n; simpl.
  - destruct (Nat.leb lo n); [|reflexivity]. now destruct (K []).
  - rewrite IH. destruct (Nat.leb lo n); simpl.
    + destruct (K (c :: s)); simpl; [reflexivity|].
      now destruct (cmatch k c && below hi n).
    + now destruct (cmatch k c && below hi n).
Qed.
End RepeatMaps.

(** \r? in front of a continuation. *)
Lemma rep_opt (R : Type) (k : cclass) (K : str -> option R) (s : str) :
  rep_greedy k 0 (Some 1) K 0 s =
  match s with
  | c :: s' =>
      if cmatch k c
      then match K s' with Some r => Some r | None => K s end
      else K s
  | [] => K []
  end.
Proof.
  destruct s as [|c s]; simpl; [reflexivity|].
  rewrite andb_true_r. destruct (cmatch k c); [|reflexivity].
  destruct s as [|c' s]; simpl; [reflexivity|].
  now rewrite andb_false_r.
Qed.

(** \r?\n in front of a continuation. *)
Lemma run_nl (r : regex) (s : str) (g : groups) (K : cont) :
  run (RSeq (ropt (CLit CR)) (RSeq (RChar (CLit LF)) r)) s g K =
  match eat_nl s with
  | Some s' => run r s' g K
  | None => None
  end.
Proof.
  simpl. rewrite rep_opt. destruct s as [|c s]; simpl; [reflexivity|].
  destruct (c =? CR)%N eqn:E.
  - apply N.eqb_eq in E. subst c. simpl.
    destruct s as [|c' s]; simpl; [reflexivity|].
    destruct (c' =? LF)%N; [|reflexivity].
    now destruct (run r s g K).
  - now destruct (c =? LF)%N.
Qed.

(** ** The parts of the pattern *)

Lemma capture_take_while (p : char -> bool) (s : str) :
  capture s (drop_while p s) = take_while p s.
Proof.
  rewrite <- (take_drop p s) at 1. apply capture_app.
Qed.

(** \d+[：:] in front of a continuation that may use the digits. *)
Lemma greedy_digits_sep (s : str) (f : str -> str -> option result) :
  rep_greedy CDigit 1 None
    (fun s2 => match s2 with
               | c :: s3 => if cmatch seps c then f (capture s s2) s3 else None
               | [] => None
               end) 0 s =
  match digits_sep s with
  | Some (ds, s') => f ds s'
  | None => None
  end.
Proof.
  rewrite rep_greedy_det.
  - change (cmatch CDigit) with is_digit. unfold digits_sep.
    rewrite capture_take_while.
    change (cmatch seps) with is_sep.
    destruct (take_while is_digit s) eqn:T; cbn [length Nat.add Nat.leb].
    + reflexivity.
    + destruct (drop_while is_digit s) as [|c' s']; [reflexivity|].
      now destruct (is_sep c').
  - intros c s' Hc. simpl in Hc.
    destruct (cmatch seps c) eqn:S; [|reflexivity].
    apply sep_not_digit in S. congruence.
Qed.

Lemma run_digits_group (i : nat) (r : regex) (s : str) (g : groups) (K : cont) :
  run (RSeq (RGroup i (rplus CDigit)) (RSeq (RChar seps) r)) s g K =
  match digits_sep s with
  | Some (ds, s') => run r s' (set_group i ds g) K
  | None => None
  end.
Proof.
  cbn [run rplus].
  exact (greedy_digits_sep s (fun ds s3 => run r s3 (set_group i ds g) K)).
Qed.

Lemma run_digits (r : regex) (s : str) (g : groups) (K : cont) :
  run (RSeq (rplus CDigit) (RSeq (RChar seps) r)) s g K =
  match digits_sep s with
  | Some (_, s') => run r s' g K
  | None => None
  end.
Proof.
  cbn [run rplus].
  exact (greedy_digits_sep s (fun _ s3 => run r s3 g K)).
Qed.

Lemma run_digits_end (s : str) (g : groups) (K : cont) :
  run (RSeq (rplus CDigit) (RChar seps)) s g K =
  match digits_sep s with
  | Some (_, s') => K s' g
  | None => None
  end.
Proof.
  cbn [run rplus].
  exact (greedy_digits_sep s (fun _ s3 => K s3 g)).
Qed.

Lemma run_seq (r1 r2 : regex) (s : str) (g : groups) (K : cont) :
  run (RSeq r1 r2) s g K = run r1 s g (fun s' g' => run r2 s' g' K).
Proof. reflexivity. Qed.

Lemma run_lit (a : char) (r : regex) (s : str) (g : groups) (K : cont) :
  run (RSeq (RChar (CLit a)) r) s g K =
  match s with
  | c :: s' => if (c =? a)%N then run r s' g K else None
  | [] => None
  end.
Proof. reflexivity. Qed.

Lemma run_nl_end (s : str) (g : groups) (K : cont) :
  run (RSeq (ropt (CLit CR)) (RChar (CLit LF))) s g K =
  match eat_nl s with
  | Some s' => K s' g
  | None => None
  end.
Proof.
  cbn [run ropt]. rewrite rep_opt. destruct s as [|c s]; simpl; [reflexivity|].
  destruct (c =? CR)%N eqn:E.
  - apply N.eqb_eq in E. subst c. simpl.
    destruct s as [|c' s]; simpl; [reflexivity|].
    destruct (c' =? LF)%N; [|reflexivity].
    now destruct (K s g).
  - now destruct (c =? LF)%N.
Qed.

Lemma run_boundary (s : str) (g : groups) (K : cont) :
  run boundary_re s g K = if boundary s then K s g else None.
Proof.
  unfold boundary_re, rseq.
  change (run (RLook ?r) s g K) with
    (match run r s g accept with Some (_, g') => K s g' | None => None end).
  change (run (RAlt ?r1 (RAlt ?r2 REnd)) s g accept) with
    (match run r1 s g accept with
     | Some x => Some x
     | None => match run r2 s g accept with
               | Some x => Some x
               | None => match s with [] => accept s g | _ :: _ => None end
               end
     end).
  rewrite !(run_nl _ s).
  unfold boundary, bind.
  destruct (eat_nl s) as [s1|] eqn:E1.
  - destruct s as [|c0 s0]; [discriminate|].
    rewrite !(run_nl _ s1).
    destruct (eat_nl s1) as [s2|] eqn:E2; [|reflexivity].
    rewrite run_lit, run_nl_end. unfold q_marker_at.
    destruct s2 as [|c s3]; [reflexivity|].
    rewrite run_digits_end.
    destruct (c =? cQ)%N; cbn [andb orb].
    + destruct (digits_sep s3) as [[ds s4]|]; cbn [is_some orb]; [reflexivity|].
      now destruct (eat_nl (c :: s3)).
    + now destruct (eat_nl (c :: s3)).
  - destruct s; reflexivity.
Qed.

Lemma run_greedy (lo : nat) (hi : option nat) (k : cclass) (s : str)
      (g : groups) (K : cont) :
  run (RRep true lo hi k) s g K = rep_greedy k lo hi (fun s' => K s' g) 0 s.
Proof. reflexivity. Qed.

Lemma run_lazy (lo : nat) (hi : option nat) (k : cclass) (s : str)
      (g : groups) (K : cont) :
  run (RRep false lo hi k) s g K = rep_lazy k lo hi (fun s' => K s' g) 0 s.
Proof. reflexivity. Qed.

Lemma run_group (i : nat) (r : regex) (s : str) (g : groups) (K : cont) :
  run (RGroup i r) s g K =
  run r s g (fun s' g' => K s' (set_group i (capture s s') g')).
Proof. reflexivity. Qed.

Lemma run_body (s : str) (g : groups) :
  run (RSeq (RGroup 3 (rplus_lazy CAny)) boundary_re) s g accept =
  option_map (fun '(g3, rest) => (rest, set_group 3 g3 g)) (body_at s).
Proof.
  rewrite run_seq, run_group. unfold rplus_lazy. rewrite run_lazy. unfold body_at.
  rewrite <- rep_lazy_map. apply rep_lazy_ext. intros s'.
  rewrite run_boundary. now destruct (boundary s').
Qed.

Lemma run_answer (s : str) (g : groups) :
  run (RSeq (rstar CSpace) (RSeq (RGroup 3 (rplus_lazy CAny)) boundary_re))
      s g accept =
  option_map (fun '(g3, rest) => (rest, set_group 3 g3 g)) (answer_at s).
Proof.
  rewrite run_seq. unfold rstar. rewrite run_greedy. unfold answer_at.
  rewrite <- rep_greedy_map. apply rep_greedy_ext. intros s'.
  apply run_body.
Qed.

Lemma run_marker (r : regex) (s : str) (g : groups) (K : cont) :
  run (RSeq (ropt (CLit CR)) (RSeq (RChar (CLit LF)) (RSeq (rstar CSpace)
        (RSeq (RChar (CLit cA)) (RSeq (rplus CDigit) (RSeq (RChar seps) r))))))
      s g K =
  match marker_at s with
  | Some s' => run r s' g K
  | None => None
  end.
Proof.
  rewrite run_nl. unfold marker_at, bind.
  destruct (eat_nl s) as [s1|]; [|reflexivity].
  rewrite run_seq. unfold rstar. rewrite run_greedy. rewrite rep_greedy_det.
  - cbn [Nat.leb]. change (cmatch CSpace) with is_space.
    rewrite run_lit. destruct (drop_while is_space s1) as [|c s2]; [reflexivity|].
    destruct (c =? cA)%N; [|reflexivity].
    rewrite run_digits. now destruct (digits_sep s2) as [[ds s3]|].
  - intros c s' Hc. rewrite run_lit. destruct (c =? cA)%N eqn:E; [|reflexivity].
    apply N.eqb_eq in E. subst c. discriminate.
Qed.

Lemma run_question (s : str) (g : groups) :
  run (RSeq (rstar CSpace) (RSeq (RGroup 2 (rplus_lazy CAny))
        (RSeq (ropt (CLit CR)) (RSeq (RChar (CLit LF)) (RSeq (rstar CSpace)
        (RSeq (RChar (CLit cA)) (RSeq (rplus CDigit) (RSeq (RChar seps)
        (RSeq (rstar CSpace) (RSeq (RGroup 3 (rplus_lazy CAny)) boundary_re))))))))))
      s g accept =
  option_map (fun '(g2, (g3, rest)) => (rest, set_group 3 g3 (set_group 2 g2 g)))
             (question_at s).
Proof.
  rewrite run_seq. unfold rstar at 1. rewrite run_greedy. unfold question_at.
  rewrite <- rep_greedy_map. apply rep_greedy_ext. intros s4.
  rewrite run_seq, run_group. unfold rplus_lazy at 1. rewrite run_lazy.
  unfold question_body_at. rewrite <- rep_lazy_map. apply rep_lazy_ext. intros s5.
  rewrite run_marker. unfold bind.
  destruct (marker_at s5) as [s6|]; [|reflexivity].
  rewrite run_answer.
  now destruct (answer_at s6) as [[g3 rest]|].
Qed.

(** The matcher on the pattern of the source is [match_direct]. *)
Lemma match_here_pattern (s : str) :
  match_here pattern s = option_map groups_of (match_direct s).
Proof.
  unfold match_here, pattern, rseq. rewrite run_lit. unfold match_direct.
  destruct s as [|c s1]; [reflexivity|].
  destruct (c =? cQ)%N; [|reflexivity].
  rewrite run_digits_group.
  destruct (digits_sep s1) as [[g1 s3]|]; [|reflexivity].
  rewrite run_question.
  now destruct (question_at s3) as [[g2 [g3 rest]]|].
Qed.

(** ** The scans need no more fuel than the text is long *)

Lemma consumed_lt (s rest : str) : consumed s rest = true -> length rest < length s.
Proof. unfold consumed. apply Nat.ltb_lt. Qed.

Lemma findall_from_fuel (r : regex) (n : nat) : forall s f1 f2,
  length s <= n -> length s < f1 -> length s < f2 ->
  findall_from f1 r s = findall_from f2 r s.
Proof.
  induction n as [|n IH]; intros s f1 f2 Hn H1 H2;
    (destruct f1 as [|f1]; [lia|]); (destruct f2 as [|f2]; [lia|]); simpl.
  - destruct s; [|simpl in Hn; lia].
    destruct (match_here r []) as [[rest g]|]; [|reflexivity].
    destruct (consumed [] rest) eqn:C; [|reflexivity].
    apply consumed_lt in C. simpl in C. lia.
  - destruct (match_here r s) as [[rest g]|].
    + destruct (consumed s rest) eqn:C.
      * apply consumed_lt in C. f_equal. apply IH; lia.
      * destruct s as [|c s']; [reflexivity|]. simpl in *. f_equal. apply IH; lia.
    + destruct s as [|c s']; [reflexivity|]. simpl in *. apply IH; lia.
Qed.

(** The equation of the scan. *)
Lemma findall_eq (r : regex) (s : str) :
  findall r s =
  match match_here r s with
  | Some (rest, g) =>
      if consumed s rest
      then option_map (cons g) (findall r rest)
      else match s with
           | [] => Some [g]
           | _ :: s' => option_map (cons g) (findall r s')
           end
  | None =>
      match s with
      | [] => Some []
      | _ :: s' => findall r s'
      end
  end.
Proof.
  unfold findall at 1. cbn [findall_from].
  destruct (match_here r s) as [[rest g]|].
  - destruct (consumed s rest) eqn:C.
    + apply consumed_lt in C. f_equal.
      apply (findall_from_fuel r (length rest)); lia.
    + destruct s as [|c s']; [reflexivity|]. reflexivity.
  - destruct s as [|c s']; reflexivity.
Qed.

Lemma findall_total (r : regex) (s : str) : exists ms, findall r s = Some ms.
Proof.
  remember (length s) as n eqn:E. revert s E.
  induction n as [n IH] using lt_wf_ind. intros s E.
  rewrite findall_eq. destruct (match_here r s) as [[rest g]|].
  - destruct (consumed s rest) eqn:C.
    + apply consumed_lt in C.
      destruct (IH (length rest) ltac:(lia) rest eq_refl) as [ms ->]. simpl. eauto.
    + destruct s as [|c s']; [eauto|].
      destruct (IH (length s') ltac:(simpl in E; lia) s' eq_refl) as [ms ->].
      simpl. eauto.
  - destruct s as [|c s']; [eauto|].
    apply (IH (length s')); [simpl in E; lia | reflexivity].
Qed.

Lemma sub_from_fuel (r : regex) (n : nat) : forall s f1 f2,
  length s <= n -> length s < f1 -> length s < f2 ->
  sub_from f1 r s = sub_from f2 r s.
Proof.
  induction n as [|n IH]; intros s f1 f2 Hn H1 H2;
    (destruct f1 as [|f1]; [lia|]); (destruct f2 as [|f2]; [lia|]); simpl.
  - destruct s; [|simpl in Hn; lia].
    destruct (match_here r []) as [[rest g]|]; [|reflexivity].
    destruct (consumed [] rest) eqn:C; [|reflexivity].
    apply consumed_lt in C. simpl in C. lia.
  - destruct (match_here r s) as [[rest g]|].
    + destruct (consumed s rest) eqn:C.
      * apply consumed_lt in C. apply IH; lia.
      * destruct s as [|c s']; [reflexivity|]. simpl in *. f_equal. apply IH; lia.
    + destruct s as [|c s']; [reflexivity|]. simpl in *. f_equal. apply IH; lia.
Qed.

Lemma sub_empty_eq (r : regex) (s : str) :
  sub_empty r s =
  match match_here r s with
  | Some (rest, _) =>
      if consumed s rest
      then sub_empty r rest
      else match s with
           | [] => Some []
           | c :: s' => option_map (cons c) (sub_empty r s')
           end
  | None =>
      match s with
      | [] => Some []
      | c :: s' => option_map (cons c) (sub_empty r s')
      end
  end.
Proof.
  unfold sub_empty at 1. cbn [sub_from].
  destruct (match_here r s) as [[rest g]|].
  - destruct (consumed s rest) eqn:C.
    + apply consumed_lt in C.
      apply (sub_from_fuel r (length rest)); lia.
    + destruct s as [|c s']; reflexivity.
  - destruct s as [|c s']; reflexivity.
Qed.

(** A greedy repeat in front of a continuation that takes anything
    stops after the longest run. *)
Lemma rep_greedy_accept (R : Type) (k : cclass) (f : str -> R) (s : str) :
  forall n, rep_greedy k 0 None (fun s' => Some (f s')) n s =
            Some (f (drop_while (cmatch k) s)).
Proof.
  induction s as [|c s IH]; intros n; simpl; [reflexivity|].
  rewrite andb_true_r. destruct (cmatch k c); [|reflexivity].
  now rewrite IH.
Qed.

Lemma match_here_newline (s : str) :
  match_here newline_re s =
  match eat_nl s with
  | Some s1 => Some (drop_while is_space s1, [])
  | None => None
  end.
Proof.
  unfold match_here, newline_re, rseq. 
  rewrite run_nl.
  destruct (eat_nl s) as [s1|]; [|reflexivity].
  unfold rstar. rewrite run_greedy. unfold accept.
  apply (rep_greedy_accept _ CSpace (fun s' => (s', @nil (nat * str)))).
Qed.

(** ** What a match looks like *)

Lemma all_any (s : str) : all (cmatch CAny) s.
Proof. induction s; constructor; auto. Qed.

Lemma digits_sep_shape (s ds s' : str) :
  digits_sep s = Some (ds, s') ->
  exists c, s = ds ++ c :: s' /\ ds <> [] /\ all is_digit ds /\ is_sep c = true.
Proof.
  unfold digits_sep. intros H.
  pose proof (take_drop is_digit s) as E.
  pose proof (take_while_all is_digit s) as A.
  destruct (take_while is_digit s) as [|d ds'] eqn:T; [discriminate|].
  destruct (drop_while is_digit s) as [|c s''] eqn:D; [discriminate|].
  destruct (is_sep c) eqn:S; [|discriminate].
  injection H as <- <-. exists c. repeat split; try assumption; try discriminate.
  now symmetry.
Qed.

Lemma digits_sep_complete (ds s' : str) (c : char) :
  ds <> [] -> all is_digit ds -> is_sep c = true ->
  digits_sep (ds ++ c :: s') = Some (ds, s').
Proof.
  intros Hne Hd Hc. unfold digits_sep.
  rewrite take_while_app, drop_while_app; try assumption;
    try (simpl; now apply sep_not_digit).
  destruct ds; [congruence|]. now rewrite Hc.
Qed.

Lemma is_nl_space (nl : str) : is_nl nl -> all is_space nl.
Proof. intros [-> | ->]; repeat constructor. Qed.

Lemma eat_nl_shape (s s' : str) :
  eat_nl s = Some s' -> exists nl, is_nl nl /\ s = nl ++ s'.
Proof.
  unfold eat_nl. destruct s as [|c s0]; [discriminate|].
  destruct (c =? CR)%N eqn:E.
  - apply N.eqb_eq in E. subst c. destruct s0 as [|c' s1]; [discriminate|].
    destruct (c' =? LF)%N eqn:E'; [|discriminate]. apply N.eqb_eq in E'. subst c'.
    intros [= <-]. exists [CR; LF]. split; [now right | reflexivity].
  - destruct (c =? LF)%N eqn:E'; [|discriminate]. apply N.eqb_eq in E'. subst c.
    intros [= <-]. exists [LF]. split; [now left | reflexivity].
Qed.

Lemma eat_nl_complete (nl s' : str) : is_nl nl -> eat_nl (nl ++ s') = Some s'.
Proof. intros [-> | ->]; reflexivity. Qed.

Lemma marker_at_shape (s s' : str) :
  marker_at s = Some s' ->
  exists nl ws da c,
    s = nl ++ ws ++ cA :: da ++ c :: s' /\ is_nl nl /\ all is_space ws /\
    da <> [] /\ all is_digit da /\ is_sep c = true.
Proof.
  unfold marker_at, bind. destruct (eat_nl s) as [s1|] eqn:E1; [|discriminate].
  apply eat_nl_shape in E1. destruct E1 as (nl & Hnl & ->).
  pose proof (take_drop is_space s1) as E.
  pose proof (take_while_all is_space s1) as A.
  destruct (drop_while is_space s1) as [|a s2]; [discriminate|].
  destruct (a =? cA)%N eqn:Ea; [|discriminate]. apply N.eqb_eq in Ea. subst a.
  destruct (digits_sep s2) as [[da s3]|] eqn:D; [|discriminate].
  simpl. intros [= <-]. apply digits_sep_shape in D.
  destruct D as (c & -> & Hne & Hd & Hc).
  exists nl, (take_while is_space s1), da, c.
  repeat split; try assumption. now rewrite E.
Qed.

Lemma marker_at_complete (nl ws da s' : str) (c : char) :
  is_nl nl -> all is_space ws -> da <> [] -> all is_digit da -> is_sep c = true ->
  marker_at (nl ++ ws ++ cA :: da ++ c :: s') = Some s'.
Proof.
  intros Hnl Hws Hne Hd Hc. unfold marker_at, bind.
  rewrite eat_nl_complete by assumption.
  rewrite drop_while_app; [|assumption|reflexivity].
  rewrite N.eqb_refl, digits_sep_complete by assumption. reflexivity.
Qed.

(** The lazy body takes at least one character and stops at the first
    place from there on where the lookahead holds. *)
Lemma body_at_shape (s g3 rest : str) :
  body_at s = Some (g3, rest) ->
  s = g3 ++ rest /\ g3 <> [] /\ boundary rest = true /\
  (forall p p', g3 = p ++ p' -> p <> [] -> p' <> [] -> boundary (p' ++ rest) = false).
Proof.
  unfold body_at. intros H. apply rep_lazy_sound in H.
  destruct H as (p & s' & -> & _ & Hlo & HK & Hmin).
  destruct (boundary s') eqn:B; [|discriminate].
  rewrite capture_app in HK. injection HK as <- <-.
  repeat split; try assumption.
  - destruct p; [simpl in Hlo; lia | discriminate].
  - intros p1 p2 -> Hp1 Hp2.
    specialize (Hmin p1 p2 eq_refl Hp2).
    destruct (boundary (p2 ++ s')); [|reflexivity].
    destruct p1; [congruence|]. simpl in Hmin. discriminate Hmin. lia.
Qed.

Lemma body_at_complete (g3 rest : str) :
  g3 <> [] -> boundary rest = true ->
  (forall p p', g3 = p ++ p' -> p <> [] -> p' <> [] -> boundary (p' ++ rest) = false) ->
  body_at (g3 ++ rest) = Some (g3, rest).
Proof.
  intros Hne Hb Hmin. unfold body_at.
  apply rep_lazy_complete.
  - apply all_any.
  - destruct g3; [congruence | simpl; lia].
  - now rewrite Hb, capture_app.
  - intros p1 p2 -> Hp2 Hlo. destruct p1 as [|c p1]; [simpl in Hlo; lia|].
    rewrite (Hmin (c :: p1) p2); [reflexivity|reflexivity|discriminate|assumption].
Qed.

(** The body always finds an end: the end of the text is one. *)
Lemma body_at_some (s : str) : s <> [] -> exists r, body_at s = Some r.
Proof.
  intros Hne. unfold body_at.
  pose proof (rep_lazy_some _ CAny 1
                (fun s' => if boundary s' then Some (capture s s', s') else None)
                s 0 [] (capture s [], [])) as H.
  rewrite app_nil_r in H. apply H.
  - apply all_any.
  - destruct s; [congruence | simpl; lia].
  - reflexivity.
Qed.

Lemma answer_at_some (s : str) : s <> [] -> exists r, answer_at s = Some r.
Proof.
  intros Hne. destruct (answer_at s) as [r|] eqn:E; [eauto|].
  unfold answer_at in E.
  pose proof (rep_greedy_none _ CSpace 0 body_at [] 0 s (Forall_nil _)
                ltac:(simpl; lia) E) as B.
  destruct (body_at_some s Hne) as [r Hr]. congruence.
Qed.

(** After the separator the greedy [\s*] keeps every white character,
    unless nothing else is left: then the body is the last of them. *)
Lemma answer_at_shape (s g3 rest : str) :
  answer_at s = Some (g3, rest) ->
  exists w3,
    s = w3 ++ g3 ++ rest /\ all is_space w3 /\ body_at (g3 ++ rest) = Some (g3, rest) /\
    (stops is_space (g3 ++ rest) \/ (rest = [] /\ exists c, g3 = [c])).
Proof.
  unfold answer_at. intros H. apply rep_greedy_sound in H.
  destruct H as (w3 & s' & -> & Hw & _ & HK & Hmax).
  pose proof (body_at_shape _ _ _ HK) as (-> & Hne & _).
  exists w3. repeat split; try assumption.
  destruct g3 as [|c g3']; [congruence|]. simpl.
  destruct (is_space c) eqn:Sc; [|now left]. right.
  assert (N : body_at (g3' ++ rest) = None).
  { apply (Hmax [c]); [reflexivity|discriminate|repeat constructor; assumption]. }
  destruct (g3' ++ rest) as [|x y] eqn:E.
  - apply app_eq_nil in E as [-> ->]. eauto.
  - destruct (body_at_some (x :: y)) as [r Hr]; [discriminate|congruence].
Qed.

Lemma answer_at_complete (w3 g3 rest : str) :
  all is_space w3 -> stops is_space (g3 ++ rest) ->
  body_at (g3 ++ rest) = Some (g3, rest) ->
  answer_at (w3 ++ g3 ++ rest) = Some (g3, rest).
Proof.
  intros Hw Hs Hb. unfold answer_at.
  apply rep_greedy_complete; try assumption; [simpl; lia|].
  intros q s'' E Hq Hall. exfalso.
  destruct q as [|c q]; [congruence|]. rewrite E in Hs. simpl in Hs.
  inversion Hall; subst. change (cmatch CSpace c) with (is_space c) in *. congruence.
Qed.

Lemma question_body_at_eq (s : str) :
  question_body_at s =
  rep_lazy CAny 1 None
    (fun s' => option_map (pair (capture s s')) (answer_after s')) 0 s.
Proof.
  unfold question_body_at. apply rep_lazy_ext. intros s'.
  unfold answer_after, bind. destruct (marker_at s'); [|reflexivity].
  now destruct (answer_at _).
Qed.

Lemma question_body_at_shape (s g2 : str) (ar : str * str) :
  question_body_at s = Some (g2, ar) ->
  exists s5,
    s = g2 ++ s5 /\ g2 <> [] /\ answer_after s5 = Some ar /\
    (forall p p', g2 = p ++ p' -> p <> [] -> p' <> [] ->
       answer_after (p' ++ s5) = None).
Proof.
  rewrite question_body_at_eq. intros H. apply rep_lazy_sound in H.
  destruct H as (p & s5 & -> & _ & Hlo & HK & Hmin).
  rewrite capture_app in HK.
  destruct (answer_after s5) as [ar'|] eqn:A; [|discriminate].
  simpl in HK. injection HK as <- <-. exists s5.
  split; [reflexivity|]. split; [|split; [assumption|]].
  - destruct p; [simpl in Hlo; lia | discriminate].
  - intros p1 p2 -> Hp1 Hp2.
    specialize (Hmin p1 p2 eq_refl Hp2).
    destruct (answer_after (p2 ++ s5)); [|reflexivity].
    destruct p1; [congruence|]. simpl in Hmin. discriminate Hmin. lia.
Qed.

Lemma question_body_at_complete (g2 s5 : str) (ar : str * str) :
  g2 <> [] -> answer_after s5 = Some ar ->
  (forall p p', g2 = p ++ p' -> p <> [] -> p' <> [] ->
     answer_after (p' ++ s5) = None) ->
  question_body_at (g2 ++ s5) = Some (g2, ar).
Proof.
  intros Hne HA Hmin. rewrite question_body_at_eq.
  apply rep_lazy_complete.
  - apply all_any.
  - destruct g2; [congruence | simpl; lia].
  - now rewrite HA, capture_app.
  - intros p1 p2 -> Hp2 Hlo. destruct p1 as [|c p1]; [simpl in Hlo; lia|].
    rewrite (Hmin (c :: p1) p2); [reflexivity|reflexivity|discriminate|assumption].
Qed.

Lemma question_at_shape (s g2 : str) (ar : str * str) :
  question_at s = Some (g2, ar) ->
  exists w1 s5,
    s = w1 ++ g2 ++ s5 /\ all is_space w1 /\ g2 <> [] /\
    answer_after s5 = Some ar /\
    question_body_at (g2 ++ s5) = Some (g2, ar).
Proof.
  unfold question_at. intros H. apply rep_greedy_sound in H.
  destruct H as (w1 & s4 & -> & Hw & _ & HK & _).
  pose proof (question_body_at_shape _ _ _ HK) as (s5 & -> & Hne & HA & _).
  exists w1, s5. repeat split; assumption.
Qed.

Lemma question_at_complete (w1 g2 s5 : str) (ar : str * str) :
  all is_space w1 -> stops is_space (g2 ++ s5) ->
  question_body_at (g2 ++ s5) = Some (g2, ar) ->
  question_at (w1 ++ g2 ++ s5) = Some (g2, ar).
Proof.
  intros Hw Hs Hb. unfold question_at.
  apply rep_greedy_complete; try assumption; [simpl; lia|].
  intros q s'' E Hq Hall. exfalso.
  destruct q as [|c q]; [congruence|]. rewrite E in Hs. simpl in Hs.
  inversion Hall; subst. change (cmatch CSpace c) with (is_space c) in *. congruence.
Qed.

(** A match, cut into its parts. *)
Lemma match_direct_shape (s g1 g2 g3 rest : str) :
  match_direct s = Some (g1, g2, g3, rest) ->
  exists c1 w1 nl w2 da c2 w3,
    s = cQ :: g1 ++ c1 :: w1 ++ g2 ++ nl ++ w2 ++ cA :: da ++ c2 :: w3 ++ g3 ++ rest /\
    (g1 <> [] /\ all is_digit g1) /\ is_sep c1 = true /\ all is_space w1 /\
    g2 <> [] /\ is_nl nl /\ all is_space w2 /\
    (da <> [] /\ all is_digit da) /\ is_sep c2 = true /\ all is_space w3 /\
    body_at (g3 ++ rest) = Some (g3, rest) /\
    (stops is_space (g3 ++ rest) \/ (rest = [] /\ exists c, g3 = [c])).
Proof.
  unfold match_direct. destruct s as [|c s1]; [discriminate|].
  destruct (c =? cQ)%N eqn:E; [|discriminate]. apply N.eqb_eq in E. subst c.
  destruct (digits_sep s1) as [[g1' s3]|] eqn:D; [|discriminate].
  destruct (question_at s3) as [[g2' [g3' rest']]|] eqn:Q; [|discriminate].
  intros [= <- <- <- <-].
  apply digits_sep_shape in D. destruct D as (c1 & -> & Hg1 & Hd1 & Hc1).
  apply question_at_shape in Q. destruct Q as (w1 & s5 & -> & Hw1 & Hg2 & HA & _).
  unfold answer_after, bind in HA.
  destruct (marker_at s5) as [s6|] eqn:M; [|discriminate].
  apply marker_at_shape in M. destruct M as (nl & w2 & da & c2 & -> & Hnl & Hw2 & Hda & Hdd & Hc2).
  apply answer_at_shape in HA. destruct HA as (w3 & -> & Hw3 & Hb & Hst).
  exists c1, w1, nl, w2, da, c2, w3. repeat split; assumption.
Qed.

(** ** Induction on the length of a text *)

Lemma str_length_ind (P : str -> Prop) :
  (forall s, (forall t, length t < length s -> P t) -> P s) -> forall s, P s.
Proof.
  intros H s. remember (length s) as n eqn:E. revert s E.
  induction n as [n IH] using lt_wf_ind. intros s ->.
  apply H. intros t Ht. apply (IH (length t) Ht t eq_refl).
Qed.

(** ** The matcher only moves forward *)

Lemma rep_greedy_suffix (R : Type) (k : cclass) (lo : nat) (hi : option nat)
      (K : str -> option R) (s : str) :
  forall n r, rep_greedy k lo hi K n s = Some r ->
  exists p s', s = p ++ s' /\ K s' = Some r.
Proof.
  induction s as [|c s IH]; intros n r H; simpl in H.
  - destruct (Nat.leb lo n); [|discriminate]. now exists [], [].
  - destruct (cmatch k c && below hi n).
    + destruct (rep_greedy k lo hi K (S n) s) eqn:G.
      * injection H as ->. apply IH in G. destruct G as (p & s' & -> & HK).
        now exists (c :: p), s'.
      * destruct (Nat.leb lo n); [|discriminate]. now exists [], (c :: s).
    + destruct (Nat.leb lo n); [|discriminate]. now exists [], (c :: s).
Qed.

Lemma rep_lazy_suffix (R : Type) (k : cclass) (lo : nat) (hi : option nat)
      (K : str -> option R) (s : str) :
  forall n r, rep_lazy k lo hi K n s = Some r ->
  exists p s', s = p ++ s' /\ K s' = Some r.
Proof.
  induction s as [|c s IH]; intros n r H; simpl in H.
  - destruct (if Nat.leb lo n then K [] else None) eqn:E; [|discriminate].
    injection H as ->. destruct (Nat.leb lo n); [|discriminate]. now exists [], [].
  - destruct (if Nat.leb lo n then K (c :: s) else None) eqn:E.
    + injection H as ->. destruct (Nat.leb lo n); [|discriminate].
      now exists [], (c :: s).
    + destruct (cmatch k c && below hi n); [|discriminate].
      apply IH in H. destruct H as (p & s' & -> & HK). now exists (c :: p), s'.
Qed.

Lemma run_suffix (r : regex) : forall s g K res,
  run r s g K = Some res ->
  exists p s' g', s = p ++ s' /\ K s' g' = Some res.
Proof.
  induction r as [k|greedy lo hi k|r1 IH1 r2 IH2|r1 IH1 r2 IH2|i r IH|r IH| |];
    intros s g K res H; cbn [run] in H.
  - destruct s as [|c s]; [discriminate|]. destruct (cmatch k c); [|discriminate].
    now exists [c], s, g.
  - destruct greedy.
    + apply rep_greedy_suffix in H. destruct H as (p & s' & -> & HK). now exists p, s', g.
    + apply rep_lazy_suffix in H. destruct H as (p & s' & -> & HK). now exists p, s', g.
  - apply IH1 in H. destruct H as (p1 & s1 & g1 & -> & H).
    apply IH2 in H. destruct H as (p2 & s2 & g2 & -> & H).
    exists (p1 ++ p2), s2, g2. now rewrite <- app_assoc.
  - destruct (run r1 s g K) eqn:E.
    + injection H as ->. now apply IH1 in E.
    + now apply IH2 in H.
  - apply IH in H. destruct H as (p & s' & g' & -> & H). eauto.
  - destruct (run r s g (fun s' g' => Some (s', g'))) as [[? g']|]; [|discriminate].
    now exists [], s, g'.
  - destruct s; [|discriminate]. now exists [], [], g.
  - now exists [], s, g.
Qed.

Lemma match_here_suffix (r : regex) (s rest : str) (g : groups) :
  match_here r s = Some (rest, g) -> exists p, s = p ++ rest.
Proof.
  unfold match_here. intros H. apply run_suffix in H.
  destruct H as (p & s' & g' & -> & H). injection H as -> ->. now exists p.
Qed.

(** ** What [findall] returns *)

(** Every item comes from an attempt that succeeded at some place of
    the text. *)
Lemma findall_In (r : regex) (s : str) :
  forall ms m, findall r s = Some ms -> In m ms ->
  exists pre s' rest, s = pre ++ s' /\ match_here r s' = Some (rest, m).
Proof.
  induction s as [s IH] using str_length_ind. intros ms m H Hin.
  rewrite findall_eq in H.
  destruct (match_here r s) as [[rest g]|] eqn:M.
  - assert (Hhere : exists pre s' rest0, s = pre ++ s' /\ match_here r s' = Some (rest0, g))
      by (exists [], s, rest; auto).
    destruct (consumed s rest) eqn:C.
    + apply consumed_lt in C.
      destruct (findall r rest) as [ms'|] eqn:F; [|discriminate].
      injection H as <-. destruct Hin as [<-|Hin]; [assumption|].
      destruct (IH rest C ms' m F Hin) as (pre & s' & rest0 & -> & Hm).
      destruct (match_here_suffix _ _ _ _ M) as [p ->].
      exists (p ++ pre), s', rest0. now rewrite <- app_assoc.
    + destruct s as [|c s0].
      * injection H as <-. destruct Hin as [<-|[]]. assumption.
      * destruct (findall r s0) as [ms'|] eqn:F; [|discriminate].
        injection H as <-. destruct Hin as [<-|Hin]; [assumption|].
        destruct (IH s0 ltac:(simpl; lia) ms' m F Hin) as (pre & s' & rest0 & -> & Hm).
        now exists (c :: pre), s', rest0.
  - destruct s as [|c s0].
    + injection H as <-. destruct Hin.
    + destruct (IH s0 ltac:(simpl; lia) ms m H Hin) as (pre & s' & rest0 & -> & Hm).
      now exists (c :: pre), s', rest0.
Qed.

(** ** [str.strip] *)

Lemma lstrip_drop (s : str) : lstrip s = drop_while is_space s.
Proof. induction s as [|c s IH]; simpl; [reflexivity|]. now rewrite IH. Qed.

Lemma all_rev (p : char -> bool) (s : str) : all p s -> all p (rev s).
Proof. unfold all. rewrite !Forall_forall. intros H c Hc. apply H. now apply in_rev. Qed.

Lemma lstrip_split (s : str) :
  exists a, s = a ++ lstrip s /\ all is_space a.
Proof.
  exists (take_while is_space s). rewrite lstrip_drop, take_drop.
  split; [reflexivity | apply take_while_all].
Qed.

Lemma rstrip_split (s : str) :
  exists b, s = rstrip s ++ b /\ all is_space b.
Proof.
  exists (rev (take_while is_space (rev s))). unfold rstrip. rewrite lstrip_drop.
  split.
  - rewrite <- rev_app_distr, take_drop. now rewrite rev_involutive.
  - apply all_rev, take_while_all.
Qed.

(** Only white characters are cut, and only at the two ends. *)
Lemma strip_split (s : str) :
  exists a b, s = a ++ strip s ++ b /\ all is_space a /\ all is_space b.
Proof.
  destruct (lstrip_split s) as (a & Ea & Ha).
  destruct (rstrip_split (lstrip s)) as (b & Eb & Hb).
  exists a, b. unfold strip. rewrite <- Eb. auto.
Qed.

Lemma strip_trimmed (s : str) : trimmed (strip s).
Proof.
  unfold trimmed, strip. split.
  - destruct (rstrip_split (lstrip s)) as (b & Eb & _).
    pose proof (drop_while_stops is_space s) as St. rewrite <- lstrip_drop in St.
    rewrite Eb in St. destruct (rstrip (lstrip s)); [exact I | exact St].
  - unfold rstrip. rewrite rev_involutive, lstrip_drop. apply drop_while_stops.
Qed.

(** ** [int] on the digits of a question marker *)

Lemma int_digits_some (s : str) : forall acc,
  all is_digit s -> exists n, int_digits acc s = Some n.
Proof.
  induction s as [|c s IH]; intros acc H; simpl; [eauto|].
  inversion H as [|? ? Hc Hs]; subst.
  destruct (digit_has_value c Hc) as [v ->]. now apply IH.
Qed.

Lemma py_int_some (s : str) :
  s <> [] -> all is_digit s -> exists n, py_int s = Some n.
Proof.
  intros Hne H. destruct s; [congruence|]. now apply int_digits_some.
Qed.

(** ** The deletion of line breaks *)

Lemma drop_while_length (p : char -> bool) (s : str) :
  length (drop_while p s) <= length s.
Proof.
  induction s as [|c s IH]; simpl; [lia|]. destruct (p c); simpl; lia.
Qed.

Lemma eat_nl_length (s s1 : str) : eat_nl s = Some s1 -> length s1 < length s.
Proof.
  intros H. apply eat_nl_shape in H. destruct H as (nl & [-> | ->] & ->); simpl; lia.
Qed.

(** The equation of [re.sub(r'\r?\n\s*', '', s)]. *)
Lemma dewrap_eq (s : str) :
  sub_empty newline_re s =
  match s with
  | [] => Some []
  | c :: s' =>
      match eat_nl s with
      | Some s1 => sub_empty newline_re (drop_while is_space s1)
      | None => option_map (cons c) (sub_empty newline_re s')
      end
  end.
Proof.
  rewrite sub_empty_eq, match_here_newline.
  destruct s as [|c s']; [reflexivity|].
  destruct (eat_nl (c :: s')) as [s1|] eqn:E; [|reflexivity].
  assert (C : consumed (c :: s') (drop_while is_space s1) = true).
  { apply Nat.ltb_lt. apply eat_nl_length in E.
    pose proof (drop_while_length is_space s1). lia. }
  now rewrite C.
Qed.

Lemma dewrap_total (s : str) : exists out, sub_empty newline_re s = Some out.
Proof.
  induction s as [s IH] using str_length_ind. rewrite dewrap_eq.
  destruct s as [|c s']; [eauto|].
  destruct (eat_nl (c :: s')) as [s1|] eqn:E.
  - apply IH. apply eat_nl_length in E.
    pose proof (drop_while_length is_space s1). lia.
  - destruct (IH s') as [out ->]; [simpl; lia|]. simpl. eauto.
Qed.

Lemma dewrap_no_LF (s : str) : forall out,
  sub_empty newline_re s = Some out -> ~ In LF out.
Proof.
  induction s as [s IH] using str_length_ind. intros out H.
  rewrite dewrap_eq in H. destruct s as [|c s'].
  - injection H as <-. intros [].
  - destruct (eat_nl (c :: s')) as [s1|] eqn:E.
    + apply (IH (drop_while is_space s1)); [|assumption].
      apply eat_nl_length in E. pose proof (drop_while_length is_space s1). lia.
    + destruct (sub_empty newline_re s') as [out'|] eqn:S; [|discriminate].
      injection H as <-. intros [->|Hin].
      * discriminate E.
      * revert Hin. apply (IH s'); [simpl; lia | assumption].
Qed.

Lemma crlf_lines_app (a b : str) : crlf_lines (a ++ b) = true -> crlf_lines b = true.
Proof.
  induction a as [|c a IH]; simpl; [auto|].
  intros H. apply andb_true_iff in H. now apply IH.
Qed.

Lemma crlf_lines_prefix (y z : str) :
  crlf_lines (y ++ z) = true -> (forall y0, y <> y0 ++ [CR]) -> crlf_lines y = true.
Proof.
  induction y as [|c y IH]; intros H Hl; [reflexivity|].
  simpl in H |- *. apply andb_true_iff in H. destruct H as [H1 H2].
  apply andb_true_iff. split.
  - destruct (c =? CR)%N eqn:E; [|reflexivity]. apply N.eqb_eq in E. subst c.
    destruct y as [|c' y]; [|exact H1]. exfalso. now apply (Hl []).
  - apply IH; [assumption|]. intros y0 ->. now apply (Hl (c :: y0)).
Qed.

Lemma drop_while_suffix (p : char -> bool) (s : str) :
  exists a, s = a ++ drop_while p s.
Proof. exists (take_while p s). now rewrite take_drop. Qed.

Lemma dewrap_no_CR (s : str) : forall out,
  crlf_lines s = true -> sub_empty newline_re s = Some out -> ~ In CR out.
Proof.
  induction s as [s IH] using str_length_ind. intros out Hc H.
  rewrite dewrap_eq in H. destruct s as [|c s'].
  - injection H as <-. intros [].
  - destruct (eat_nl (c :: s')) as [s1|] eqn:E.
    + apply (IH (drop_while is_space s1)); [| |assumption].
      * apply eat_nl_length in E. pose proof (drop_while_length is_space s1). lia.
      * apply eat_nl_shape in E. destruct E as (nl & _ & E).
        destruct (drop_while_suffix is_space s1) as [a Ea].
        rewrite E, Ea, app_assoc in Hc. now apply crlf_lines_app in Hc.
    + destruct (sub_empty newline_re s') as [out'|] eqn:S; [|discriminate].
      injection H as <-. simpl in Hc. apply andb_true_iff in Hc. destruct Hc as [H1 H2].
      intros [->|Hin].
      * simpl in H1, E. destruct s' as [|c' s'']; [discriminate|].
        now rewrite H1 in E.
      * revert Hin. apply (IH s'); [simpl; lia | assumption | assumption].
Qed.

Lemma eat_nl_not_space (c : char) (s : str) :
  is_space c = false -> eat_nl (c :: s) = None.
Proof.
  intros H. simpl. destruct (c =? CR)%N eqn:E.
  - apply N.eqb_eq in E. subst. discriminate.
  - destruct (c =? LF)%N eqn:E'; [|reflexivity]. apply N.eqb_eq in E'. subst. discriminate.
Qed.

Lemma dewrap_first (c : char) (s : str) :
  is_space c = false ->
  sub_empty newline_re (c :: s) = option_map (cons c) (sub_empty newline_re s).
Proof. intros H. rewrite dewrap_eq. now rewrite eat_nl_not_space. Qed.

Lemma drop_while_last (p : char -> bool) (s : str) (c : char) :
  p c = false -> exists s0, drop_while p (s ++ [c]) = s0 ++ [c].
Proof.
  intros H. induction s as [|x s IH]; simpl.
  - rewrite H. now exists [].
  - destruct (p x); [assumption|]. now exists (x :: s).
Qed.

Lemma dewrap_last (s : str) : forall c out,
  is_space c = false -> sub_empty newline_re (s ++ [c]) = Some out ->
  exists out0, out = out0 ++ [c].
Proof.
  induction s as [s IH] using str_length_ind. intros c out Hc H.
  destruct s as [|x s'].
  - simpl in H. rewrite dewrap_first in H by assumption.
    rewrite dewrap_eq in H. injection H as <-. now exists [].
  - rewrite dewrap_eq in H. simpl app in H.
    destruct (eat_nl (x :: s' ++ [c])) as [s1|] eqn:E.
    + (* the line break is inside [x :: s']: what follows still ends with [c] *)
      assert (exists s1', s1 = s1' ++ [c] /\ length s1' < length (x :: s')) as (s1' & -> & L).
      { apply eat_nl_shape in E. destruct E as (nl & [-> | ->] & E); simpl in E.
        - injection E as -> <-. exists s'. split; [reflexivity | simpl; lia].
        - destruct s' as [|y s'']; simpl in E.
          + injection E as -> -> <-. discriminate Hc.
          + injection E as -> -> <-. exists s''. split; [reflexivity | simpl; lia]. }
      destruct (drop_while_last is_space s1' c Hc) as [s0 E0].
      rewrite E0 in H. apply (IH s0) in H; [assumption| |assumption].
      pose proof (drop_while_length is_space (s1' ++ [c])) as L'.
      rewrite E0, !length_app in L'. simpl in *. lia.
    + destruct (sub_empty newline_re (s' ++ [c])) as [out'|] eqn:S; [|discriminate].
      injection H as <-. apply (IH s') in S; [|simpl; lia|assumption].
      destruct S as [out0 ->]. now exists (x :: out0).
Qed.

Lemma dewrap_trimmed (s out : str) :
  trimmed s -> sub_empty newline_re s = Some out -> trimmed out.
Proof.
  intros [Hf Hl] H. split.
  - destruct s as [|c s]; [rewrite dewrap_eq in H; now injection H as <-|].
    simpl in Hf. rewrite dewrap_first in H by assumption.
    destruct (sub_empty newline_re s); [|discriminate]. now injection H as <-.
  - destruct (rev s) as [|c t] eqn:R.
    + apply (f_equal (@rev char)) in R. rewrite rev_involutive in R. simpl in R. subst s.
      rewrite dewrap_eq in H. now injection H as <-.
    + apply (f_equal (@rev char)) in R. rewrite rev_involutive in R. simpl in R. subst s.
      simpl in Hl. destruct (dewrap_last _ _ _ Hl H) as [out0 ->].
      rewrite rev_app_distr. exact Hl.
Qed.

(** A text without line feed is left as it is. *)
Lemma dewrap_plain (u : str) :
  ~ In LF u -> sub_empty newline_re u = Some u.
Proof.
  induction u as [|c u IH]; intros H; rewrite dewrap_eq; [reflexivity|].
  assert (E : eat_nl (c :: u) = None).
  { simpl. destruct (c =? CR)%N.
    - destruct u as [|c' u']; [reflexivity|].
      destruct (c' =? LF)%N eqn:E'; [|reflexivity].
      apply N.eqb_eq in E'. subst c'. exfalso. apply H. right. now left.
    - destruct (c =? LF)%N eqn:E'; [|reflexivity].
      apply N.eqb_eq in E'. subst c. exfalso. apply H. now left. }
  rewrite E, IH; [reflexivity|]. intros Hin. apply H. now right.
Qed.

(** A line break and the white characters after it are deleted, and what
    stands on either side is put together with nothing between. *)
Lemma dewrap_join (u nl ws v : str) :
  ~ In LF u -> is_nl nl -> (nl = [LF] -> forall u0, u <> u0 ++ [CR]) ->
  all is_space ws -> stops is_space v ->
  sub_empty newline_re (u ++ nl ++ ws ++ v) =
  option_map (app u) (sub_empty newline_re v).
Proof.
  intros Hu Hnl Hcr Hws Hv. induction u as [|c u IH].
  - simpl. rewrite dewrap_eq.
    destruct (nl ++ ws ++ v) as [|c s'] eqn:E.
    + destruct Hnl as [-> | ->]; discriminate.
    + rewrite <- E, eat_nl_complete by assumption.
      rewrite drop_while_app by assumption.
      now destruct (sub_empty newline_re v).
  - simpl app. rewrite dewrap_eq.
    assert (E : eat_nl (c :: u ++ nl ++ ws ++ v) = None).
    { simpl. destruct (c =? CR)%N eqn:Ec.
      - apply N.eqb_eq in Ec. subst c. destruct u as [|c' u'].
        + destruct Hnl as [-> | ->]; simpl.
          * exfalso. now apply (Hcr eq_refl []).
          * reflexivity.
        + simpl. destruct (c' =? LF)%N eqn:E'; [|reflexivity].
          apply N.eqb_eq in E'. subst c'. exfalso. apply Hu. right. now left.
      - destruct (c =? LF)%N eqn:E'; [|reflexivity].
        apply N.eqb_eq in E'. subst c. exfalso. apply Hu. now left. }
    rewrite E, IH.
    + now destruct (sub_empty newline_re v).
    + intros Hin. apply Hu. now right.
    + intros Hl u0 ->. now apply (Hcr Hl (c :: u0)).
Qed.

(** ** The stable sort *)

Lemma insert_by_id_In (x y : qa) (l : list qa) :
  In y (insert_by_id x l) <-> y = x \/ In y l.
Proof.
  induction l as [|z l IH]; simpl.
  - intuition.
  - destruct (qa_id x <=? qa_id z)%N; simpl; [intuition|].
    rewrite IH. intuition.
Qed.

Lemma sort_by_id_In (y : qa) (l : list qa) : In y (sort_by_id l) <-> In y l.
Proof.
  induction l as [|x l IH]; simpl; [reflexivity|].
  rewrite insert_by_id_In, IH. intuition.
Qed.

Lemma insert_by_id_sorted (x : qa) (l : list qa) :
  Sorted id_le l -> Sorted id_le (insert_by_id x l).
Proof.
  induction 1 as [|y l Hs IH Hhd]; simpl.
  - repeat constructor.
  - destruct (qa_id x <=? qa_id y)%N eqn:E.
    + apply N.leb_le in E. repeat constructor; assumption.
    + apply N.leb_gt in E. constructor; [assumption|].
      destruct l as [|z l]; simpl.
      * constructor. unfold id_le. lia.
      * destruct (qa_id x <=? qa_id z)%N; constructor.
        -- unfold id_le. lia.
        -- now inversion Hhd.
Qed.

Lemma sort_by_id_sorted (l : list qa) : Sorted id_le (sort_by_id l).
Proof.
  induction l as [|x l IH]; simpl; [constructor | now apply insert_by_id_sorted].
Qed.

(** An inserted record comes first among those of its own key. *)
Lemma insert_by_id_filter (k : N) (x : qa) (l : list qa) :
  filter (has_id k) (insert_by_id x l) = filter (has_id k) (x :: l).
Proof.
  induction l as [|y l IH]; [reflexivity|].
  cbn [insert_by_id]. destruct (qa_id x <=? qa_id y)%N eqn:E; [reflexivity|].
  apply N.leb_gt in E. cbn [filter] in *. rewrite IH.
  unfold has_id. destruct (qa_id x =? k)%N eqn:Ex; [|reflexivity].
  apply N.eqb_eq in Ex. destruct (qa_id y =? k)%N eqn:Ey; [|reflexivity].
  apply N.eqb_eq in Ey. lia.
Qed.

Lemma sort_by_id_stable (k : N) (l : list qa) :
  filter (has_id k) (sort_by_id l) = filter (has_id k) l.
Proof.
  induction l as [|x l IH]; [reflexivity|].
  cbn [sort_by_id fold_right]. fold (sort_by_id l).
  rewrite insert_by_id_filter. cbn [filter]. now rewrite IH.
Qed.

Lemma insert_by_id_perm (x : qa) (l : list qa) :
  Permutation (x :: l) (insert_by_id x l).
Proof.
  induction l as [|y l IH]; simpl; [reflexivity|].
  destruct (qa_id x <=? qa_id y)%N; [reflexivity|].
  rewrite perm_swap. now constructor.
Qed.

Lemma sort_by_id_perm (l : list qa) : Permutation l (sort_by_id l).
Proof.
  induction l as [|x l IH]; simpl; [constructor|].
  rewrite <- insert_by_id_perm. now constructor.
Qed.

(** ** From the matches to the records *)

Lemma match_here_groups (s rest : str) (g : groups) :
  match_here pattern s = Some (rest, g) ->
  exists g1 g2 g3,
    match_direct s = Some (g1, g2, g3, rest) /\
    get_group 1 g = g1 /\ get_group 2 g = g2 /\ get_group 3 g = g3.
Proof.
  rewrite match_here_pattern.
  destruct (match_direct s) as [[[[g1 g2] g3] rest']|]; [|discriminate].
  simpl. intros [= <- <-]. now exists g1, g2, g3.
Qed.

Lemma record_of_total (s rest : str) (g : groups) :
  match_here pattern s = Some (rest, g) -> exists r, record_of g = Some r.
Proof.
  intros H. apply match_here_groups in H.
  destruct H as (g1 & g2 & g3 & H & E1 & E2 & E3).
  apply match_direct_shape in H.
  destruct H as (c1 & w1 & nl & w2 & da & c2 & w3 & _ & [Hne Hd] & _).
  unfold record_of, bind. rewrite E1.
  destruct (py_int_some g1 Hne Hd) as [n ->].
  destruct (dewrap_total (strip (get_group 3 g))) as [a ->]. eauto.
Qed.

Lemma records_of_total (ms : list groups) :
  (forall m, In m ms -> exists r, record_of m = Some r) ->
  exists rs, records_of ms = Some rs.
Proof.
  induction ms as [|m ms IH]; intros H; simpl; [eauto|].
  destruct (H m (or_introl eq_refl)) as [r ->].
  destruct IH as [rs ->]; [intros m' Hm'; apply H; now right|].
  simpl. eauto.
Qed.

Lemma records_of_In (ms : list groups) : forall rs r,
  records_of ms = Some rs -> In r rs ->
  exists m, In m ms /\ record_of m = Some r.
Proof.
  induction ms as [|m ms IH]; intros rs r H Hin; simpl in H.
  - injection H as <-. destruct Hin.
  - unfold bind in H. destruct (record_of m) as [r0|] eqn:R; [|discriminate].
    destruct (records_of ms) as [rs0|] eqn:Rs; [|discriminate].
    injection H as <-. destruct Hin as [<-|Hin].
    + exists m. split; [now left | assumption].
    + destruct (IH rs0 r eq_refl Hin) as (m' & Hm' & Hr).
      exists m'. split; [now right | assumption].
Qed.

Lemma collected_total (content : str) : exists cs, collected content = Some cs.
Proof.
  unfold collected, bind.
  destruct (findall_total pattern content) as [ms F]. rewrite F.
  apply records_of_total. intros m Hm.
  destruct (findall_In pattern content ms m F Hm) as (pre & s' & rest & _ & M).
  now apply record_of_total in M.
Qed.

Lemma qa_list_total (content : str) : exists rs, qa_list content = Some rs.
Proof.
  unfold qa_list. destruct (collected_total content) as [cs ->]. simpl. eauto.
Qed.

(** Every record of the result was built from a match somewhere in the
    text. *)
Lemma qa_list_In (content : str) (rs : list qa) (r : qa) :
  qa_list content = Some rs -> In r rs ->
  exists pre s rest g,
    content = pre ++ s /\ match_here pattern s = Some (rest, g) /\
    record_of g = Some r.
Proof.
  unfold qa_list, collected, bind. intros H Hin.
  destruct (findall pattern content) as [ms|] eqn:F; [|discriminate].
  destruct (records_of ms) as [cs|] eqn:Rs; [|discriminate].
  simpl in H. injection H as <-. rewrite sort_by_id_In in Hin.
  destruct (records_of_In ms cs r Rs Hin) as (m & Hm & Hr).
  destruct (findall_In pattern content ms m F Hm) as (pre & s' & rest & E & M).
  now exists pre, s', rest, m.
Qed.

Lemma record_of_fields (g : groups) (r : qa) :
  record_of g = Some r ->
  py_int (get_group 1 g) = Some (qa_id r) /\
  question r = strip (get_group 2 g) /\
  sub_empty newline_re (strip (get_group 3 g)) = Some (answer r).
Proof.
  unfold record_of, bind.
  destruct (py_int (get_group 1 g)) as [n|]; [|discriminate].
  destruct (sub_empty newline_re (strip (get_group 3 g))) as [a|]; [|discriminate].
  intros [= <-]. auto.
Qed.

Lemma records_of_length (ms : list groups) : forall rs,
  records_of ms = Some rs -> length rs = length ms.
Proof.
  induction ms as [|m ms IH]; intros rs H; simpl in H.
  - now injection H as <-.
  - unfold bind in H. destruct (record_of m); [|discriminate].
    destruct (records_of ms) as [rs0|]; [|discriminate].
    injection H as <-. simpl. now rewrite (IH rs0).
Qed.

Lemma qa_list_In_matched (content : str) (rs : list qa) (r : qa) :
  qa_list content = Some rs -> In r rs ->
  exists g, matched_in content g /\ record_of g = Some r.
Proof.
  intros H Hin. destruct (qa_list_In content rs r H Hin) as (pre & s & rest & g & E & M & R).
  exists g. split; [now exists pre, s, rest | assumption].
Qed.

(** The groups of a match are pieces of the text. *)
Lemma matched_in_texts (content : str) (g : groups) :
  matched_in content g ->
  sub_text (get_group 2 g) content /\ sub_text (get_group 3 g) content.
Proof.
  intros (pre & s & rest & -> & M).
  apply match_here_groups in M. destruct M as (g1 & g2 & g3 & M & _ & -> & ->).
  apply match_direct_shape in M.
  destruct M as (c1 & w1 & nl & w2 & da & c2 & w3 & -> & _).
  split.
  - exists (pre ++ cQ :: g1 ++ c1 :: w1), (nl ++ w2 ++ cA :: da ++ c2 :: w3 ++ g3 ++ rest).
    now rewrite <- !app_assoc, <- !app_comm_cons, <- !app_assoc.
  - exists (pre ++ cQ :: g1 ++ c1 :: w1 ++ g2 ++ nl ++ w2 ++ cA :: da ++ c2 :: w3), rest.
    repeat (rewrite <- ?app_assoc, <- ?app_comm_cons). reflexivity.
Qed.

Lemma trimmed_not_CR (s : str) : trimmed s -> forall y0, s <> y0 ++ [CR].
Proof.
  intros [_ H] y0 ->. rewrite rev_app_distr in H. simpl in H. discriminate.
Qed.

Lemma crlf_lines_strip (content body : str) :
  crlf_lines content = true -> sub_text body content ->
  crlf_lines (strip body) = true.
Proof.
  intros Hc (pre & post & ->).
  destruct (strip_split body) as (a & b & E & _ & _).
  assert (E' : pre ++ body ++ post = (pre ++ a) ++ strip body ++ (b ++ post)).
  { rewrite E at 1. now rewrite <- !app_assoc. }
  rewrite E' in Hc. apply crlf_lines_app in Hc.
  apply crlf_lines_prefix in Hc; [assumption|].
  apply trimmed_not_CR, strip_trimmed.
Qed.

(** The lookahead of the source and [boundary] say the same. *)
Lemma match_here_boundary (s : str) :
  match_here boundary_re s = if boundary s then Some (s, []) else None.
Proof. unfold match_here. now rewrite run_boundary. Qed.

(** The three ways of being at the end of an answer. *)
Lemma boundary_iff (s : str) :
  boundary s = true <->
  s = [] \/
  (exists nl1 nl2 ds c t, is_nl nl1 /\ is_nl nl2 /\ ds <> [] /\ all is_digit ds /\
     is_sep c = true /\ s = nl1 ++ nl2 ++ cQ :: ds ++ c :: t) \/
  (exists nl1 nl2 nl3 t, is_nl nl1 /\ is_nl nl2 /\ is_nl nl3 /\
     s = nl1 ++ nl2 ++ nl3 ++ t).
Proof.
  split.
  - intros H. destruct s as [|c0 s0]; [now left|]. right.
    unfold boundary, bind in H.
    destruct (eat_nl (c0 :: s0)) as [s1|] eqn:E1; [|discriminate].
    destruct (eat_nl s1) as [s2|] eqn:E2; [|discriminate].
    apply eat_nl_shape in E1. destruct E1 as (nl1 & H1 & E1).
    apply eat_nl_shape in E2. destruct E2 as (nl2 & H2 & ->).
    apply orb_true_iff in H. destruct H as [H|H].
    + left. unfold q_marker_at in H. destruct s2 as [|c s3]; [discriminate|].
      apply andb_true_iff in H. destruct H as [Hc H]. apply N.eqb_eq in Hc. subst c.
      destruct (digits_sep s3) as [[ds t]|] eqn:D; [|discriminate].
      apply digits_sep_shape in D. destruct D as (c & -> & Hne & Hd & Hc).
      exists nl1, nl2, ds, c, t. auto 10.
    + right. destruct (eat_nl s2) as [t|] eqn:E3; [|discriminate].
      apply eat_nl_shape in E3. destruct E3 as (nl3 & H3 & ->).
      exists nl1, nl2, nl3, t. auto.
  - intros [->|[(nl1 & nl2 & ds & c & t & H1 & H2 & Hne & Hd & Hc & ->)
                |(nl1 & nl2 & nl3 & t & H1 & H2 & H3 & ->)]]; [reflexivity| |].
    + unfold boundary, bind.
      destruct (nl1 ++ nl2 ++ cQ :: ds ++ c :: t) eqn:E;
        [destruct H1 as [-> | ->]; discriminate|]. rewrite <- E.
      rewrite !eat_nl_complete by assumption. unfold q_marker_at.
      now rewrite N.eqb_refl, digits_sep_complete.
    + unfold boundary, bind.
      destruct (nl1 ++ nl2 ++ nl3 ++ t) eqn:E;
        [destruct H1 as [-> | ->]; discriminate|]. rewrite <- E.
      rewrite !eat_nl_complete by assumption. apply orb_true_r.
Qed.

(** ** Well-formed documents *)

Lemma forallb_all (p : char -> bool) (s : str) : forallb p s = true <-> all p s.
Proof. unfold all. rewrite forallb_forall, Forall_forall. reflexivity. Qed.

Lemma one_line_app (a b : str) :
  one_line (a ++ b) = one_line a && one_line b.
Proof. apply forallb_app. Qed.

Lemma one_line_eat_nl (c : char) (s t : str) :
  one_line (c :: s) = true -> eat_nl (c :: t) = None.
Proof.
  simpl. intros H. apply andb_true_iff in H. destruct H as [H _].
  apply negb_true_iff, orb_false_iff in H. destruct H as [H1 H2].
  now rewrite H2, H1.
Qed.

Lemma one_line_answer_after (p t : str) :
  p <> [] -> one_line p = true -> answer_after (p ++ t) = None.
Proof.
  intros Hne H. destruct p as [|c p]; [congruence|].
  unfold answer_after, marker_at, bind. simpl app. now rewrite (one_line_eat_nl c p).
Qed.

Lemma digits_ok_spec (d : str) : digits_ok d = true -> d <> [] /\ all is_digit d.
Proof.
  destruct d as [|c d]; [discriminate|]. intros H. split; [discriminate|].
  now apply forallb_all.
Qed.

Lemma text_ok_spec (s : str) :
  text_ok s = true -> s <> [] /\ one_line s = true /\ forall t, stops is_space (s ++ t).
Proof.
  destruct s as [|c s]; [discriminate|]. unfold text_ok. intros H.
  apply andb_true_iff in H. destruct H as [H1 H2]. apply negb_true_iff in H1.
  repeat split; [discriminate | assumption | intros t; exact H1].
Qed.

Lemma pad_ok_spec (w : str) : pad_ok w = true -> all is_space w.
Proof.
  unfold pad_ok. intros H. apply andb_true_iff in H. now apply forallb_all.
Qed.

Lemma entry_tail_boundary (nl tail : str) :
  is_nl nl -> entry_tail nl tail -> boundary tail = true.
Proof.
  intros Hnl [->|(e & t & W & ->)]; [reflexivity|].
  apply boundary_iff. right. left.
  unfold well_formed in W. repeat (apply andb_true_iff in W; destruct W as [W ?]).
  apply digits_ok_spec in W. destruct W as [Hne Hd].
  exists nl, nl, (e_qdigits e), (e_qsep e).
  eexists. repeat split; try eassumption.
  unfold render. simpl. rewrite <- app_assoc. simpl. reflexivity.
Qed.

Lemma no_blank_line_app (a b : str) :
  no_blank_line (a ++ b) = true -> no_blank_line b = true.
Proof.
  induction a as [|c a IH]; simpl; [auto|].
  intros H. apply andb_true_iff in H. now apply IH.
Qed.

Lemma last_not_break_app (a b : str) :
  b <> [] -> last_not_break (a ++ b) = last_not_break b.
Proof.
  intros Hne. unfold last_not_break. rewrite rev_app_distr.
  destruct (rev b) as [|c t] eqn:E; [|reflexivity].
  apply (f_equal (@rev char)) in E. rewrite rev_involutive in E. now subst.
Qed.

Lemma boundary_two_breaks (s : str) :
  s <> [] -> boundary s = true -> two_breaks s = true.
Proof.
  intros Hne H. destruct s as [|c s]; [congruence|].
  unfold boundary in H. unfold two_breaks.
  destruct (s1 <- eat_nl (c :: s) ;; eat_nl s1); [reflexivity | discriminate].
Qed.

Lemma is_break_cases (c : char) :
  is_break c = false -> (c =? LF)%N = false /\ (c =? CR)%N = false.
Proof. unfold is_break. apply orb_false_iff. Qed.

(** Two line breaks that start inside a text whose last character is
    not a line break lie inside that text. *)
Lemma two_breaks_inside (p t : str) :
  last_not_break p = true -> two_breaks (p ++ t) = true -> two_breaks p = true.
Proof.
  intros Hl H. unfold two_breaks, bind in *.
  destruct p as [|c1 p]; [discriminate|].
  assert (L : forall a b, last_not_break (a ++ [b]) = true ->
              (b =? LF)%N = false /\ (b =? CR)%N = false).
  { intros a b Hb. unfold last_not_break in Hb. rewrite rev_app_distr in Hb.
    simpl in Hb. apply negb_true_iff in Hb. now apply is_break_cases. }
  destruct p as [|c2 p]; [destruct (L [] c1 Hl) as [E1 E2]|].
  2: destruct p as [|c3 p]; [destruct (L [c1] c2 Hl) as [E1 E2]|].
  3: destruct p as [|c4 p]; [destruct (L [c1; c2] c3 Hl) as [E1 E2]|].
  all: clear L Hl; revert H; simpl; unfold eat_nl.
  all: repeat match goal with
           | |- context [(?c =? ?d)%N] => destruct (c =? d)%N eqn:?
           end.
  all: simpl; try (intros _; reflexivity); try (intros H; discriminate H);
    try congruence.
Qed.

Lemma answer_ok_spec (a : str) :
  answer_ok a = true ->
  a <> [] /\ (forall t, stops is_space (a ++ t)) /\
  (forall p p' t, a = p ++ p' -> p' <> [] -> boundary (p' ++ t) = false).
Proof.
  destruct a as [|c a]; [discriminate|]. unfold answer_ok. intros H.
  apply andb_true_iff in H. destruct H as [H H3].
  apply andb_true_iff in H. destruct H as [H1 H2]. apply negb_true_iff in H1.
  split; [discriminate|]. split; [intros t; exact H1|].
  intros p p' t E Hne.
  destruct (boundary (p' ++ t)) eqn:B; [|reflexivity]. exfalso.
  rewrite E in H2, H3. apply no_blank_line_app in H2.
  rewrite last_not_break_app in H3 by assumption.
  apply boundary_two_breaks in B; [|destruct p'; [congruence | discriminate]].
  apply two_breaks_inside in B; [|assumption].
  destruct p' as [|x p']; [congruence|]. simpl in H2.
  apply andb_true_iff in H2. destruct H2 as [H2 _].
  apply negb_true_iff in H2. congruence.
Qed.

(** A well-formed entry is matched as it stands, whatever entry
    follows. *)
Lemma match_entry (nl : str) (e : entry) (tail : str) :
  is_nl nl -> well_formed e = true -> entry_tail nl tail ->
  match_direct (render nl e ++ tail) =
  Some (e_qdigits e, e_question e, e_answer e, tail).
Proof.
  intros Hnl W Ht. pose proof (entry_tail_boundary nl tail Hnl Ht) as Hb.
  unfold well_formed in W.
  repeat (apply andb_true_iff in W; destruct W as [W ?]).
  destruct e as [qd qs qp q ad asp ap a]; simpl in *.
  apply digits_ok_spec in W. destruct W as [Hqd1 Hqd2].
  match goal with H : digits_ok ad = true |- _ =>
    apply digits_ok_spec in H; destruct H as [Had1 Had2] end.
  repeat match goal with H : pad_ok _ = true |- _ => apply pad_ok_spec in H end.
  match goal with H : text_ok _ = true |- _ =>
    apply text_ok_spec in H; destruct H as (? & ? & ?) end.
  match goal with H : answer_ok _ = true |- _ =>
    apply answer_ok_spec in H; destruct H as (? & ? & Hmin) end.
  unfold render; simpl. unfold match_direct.
  repeat (rewrite <- app_assoc; simpl).
  rewrite digits_sep_complete by assumption.
  assert (HA : answer_after (nl ++ cA :: ad ++ asp :: ap ++ a ++ tail) = Some (a, tail)).
  { unfold answer_after, bind.
    pose proof (marker_at_complete nl [] ad (ap ++ a ++ tail) asp Hnl
                  (Forall_nil _) Had1 Had2 ltac:(assumption)) as M.
    simpl in M. rewrite M.
    apply answer_at_complete; auto.
    apply body_at_complete; auto.
    intros p p' E Hp Hp'. now apply (Hmin p p'). }
  rewrite (question_at_complete qp q _ (a, tail)); auto.
  apply question_body_at_complete; auto.
  intros p p' -> Hp Hp'. apply one_line_answer_after; [assumption|].
  match goal with H : one_line (p ++ p') = true |- _ =>
    rewrite one_line_app in H; apply andb_true_iff in H; apply H end.
Qed.

(** A match of the pattern takes at least its [Q]. *)
Lemma match_here_consumes (s rest : str) (g : groups) :
  match_here pattern s = Some (rest, g) -> consumed s rest = true.
Proof.
  intros M. apply match_here_groups in M. destruct M as (g1 & g2 & g3 & M & _).
  apply match_direct_shape in M.
  destruct M as (c1 & w1 & nl & w2 & da & c2 & w3 & -> & _).
  apply Nat.ltb_lt. simpl. repeat (rewrite ?length_app; simpl). lia.
Qed.

Lemma findall_match (s rest : str) (g : groups) :
  match_here pattern s = Some (rest, g) ->
  findall pattern s = option_map (cons g) (findall pattern rest).
Proof.
  intros M. rewrite findall_eq, M. now rewrite (match_here_consumes s rest g M).
Qed.

Lemma match_here_not_Q (c : char) (s : str) :
  c <> cQ -> match_here pattern (c :: s) = None.
Proof.
  intros H. rewrite match_here_pattern. unfold match_direct.
  apply N.eqb_neq in H. now rewrite H.
Qed.

Lemma findall_skip (c : char) (s : str) :
  c <> cQ -> findall pattern (c :: s) = findall pattern s.
Proof. intros H. rewrite findall_eq. now rewrite match_here_not_Q. Qed.

Lemma findall_skip_nl (nl s : str) :
  is_nl nl -> findall pattern (nl ++ s) = findall pattern s.
Proof.
  intros [-> | ->]; simpl; rewrite ?findall_skip; try reflexivity; discriminate.
Qed.

Lemma document_head (nl : str) (e : entry) (es : list entry) :
  exists t, document nl (e :: es) = render nl e ++ t.
Proof.
  destruct es as [|e' es]; simpl.
  - exists []. now rewrite app_nil_r.
  - eauto.
Qed.

Lemma findall_document (nl : str) (es : list entry) :
  is_nl nl -> forallb well_formed es = true ->
  findall pattern (document nl es) = Some (map entry_groups es).
Proof.
  intros Hnl. induction es as [|e es IH]; intros W; [reflexivity|].
  simpl in W. apply andb_true_iff in W. destruct W as [We Wes].
  specialize (IH Wes).
  assert (M : forall tail, entry_tail nl tail ->
            match_here pattern (render nl e ++ tail) = Some (tail, entry_groups e)).
  { intros tail Ht. rewrite match_here_pattern, (match_entry nl e tail); auto. }
  destruct es as [|e' es'].
  - simpl. rewrite <- (app_nil_r (render nl e)).
    rewrite (findall_match _ _ _ (M [] (or_introl eq_refl))). reflexivity.
  - change (document nl (e :: e' :: es'))
      with (render nl e ++ nl ++ nl ++ document nl (e' :: es')).
    rewrite (findall_match _ (nl ++ nl ++ document nl (e' :: es')) (entry_groups e)).
    + rewrite !findall_skip_nl by assumption. now rewrite IH.
    + apply M. right. simpl in Wes. apply andb_true_iff in Wes.
      destruct (document_head nl e' es') as [t ->].
      exists e', t. split; [apply Wes | reflexivity].
Qed.

Lemma record_of_entry (e : entry) :
  well_formed e = true ->
  exists r, record_of (entry_groups e) = Some r /\
            py_int (e_qdigits e) = Some (qa_id r) /\
            question r = strip (e_question e) /\
            sub_empty newline_re (strip (e_answer e)) = Some (answer r).
Proof.
  intros W. unfold well_formed in W.
  repeat (apply andb_true_iff in W; destruct W as [W ?]).
  apply digits_ok_spec in W. destruct W as [Hne Hd].
  destruct (py_int_some _ Hne Hd) as [n Hn].
  destruct (dewrap_total (strip (e_answer e))) as [a Ha].
  exists (mk_qa n (strip (e_question e)) a).
  unfold record_of, bind, entry_groups. simpl. rewrite Hn, Ha. auto.
Qed.

(** ** Success of the repeats, as a search *)

Lemma lazy_any (R : Type) (lo : nat) (K : str -> option R) (P : str -> bool) :
  (forall s, is_some (K s) = P s) ->
  forall s n, lo <= n ->
  is_some (rep_lazy CAny lo None K n s) = any_at P s.
Proof.
  intros HP. induction s as [|c s IH]; intros n Hn; simpl;
    (assert (L : Nat.leb lo n = true) by (apply Nat.leb_le; lia)); rewrite L.
  - rewrite <- HP. destruct (K []); reflexivity.
  - rewrite <- HP. destruct (K (c :: s)); [reflexivity|].
    simpl. apply IH. lia.
Qed.

Lemma lazy_any_1 (R : Type) (K : str -> option R) (P : str -> bool) :
  (forall s, is_some (K s) = P s) ->
  forall s, is_some (rep_lazy CAny 1 None K 0 s) =
            match s with
            | [] => false
            | _ :: s' => any_at P s'
            end.
Proof.
  intros HP [|c s]; simpl; [reflexivity|]. now apply lazy_any.
Qed.

Lemma greedy_any (R : Type) (K : str -> option R) (P : str -> bool) :
  (forall s, is_some (K s) = P s) ->
  forall s n, is_some (rep_greedy CSpace 0 None K n s) = any_ws P s.
Proof.
  intros HP. induction s as [|c s IH]; intros n; simpl.
  - rewrite <- HP. now rewrite orb_false_r.
  - rewrite andb_true_r, <- HP. destruct (is_space c); simpl.
    + rewrite <- (IH (S n)). destruct (rep_greedy CSpace 0 None K (S n) s); simpl.
      * now rewrite orb_true_r.
      * now rewrite orb_false_r.
    + now rewrite orb_false_r.
Qed.

(** ** A character that a reading cannot pass *)

Lemma eat_nl_stop (y : str) (q : char) (r : str) :
  q <> CR -> q <> LF ->
  eat_nl (y ++ q :: r) = option_map (fun y' => y' ++ q :: r) (eat_nl y).
Proof.
  intros H1 H2. apply N.eqb_neq in H1, H2.
  destruct y as [|c1 y]; simpl; [now rewrite H1, H2|].
  destruct (c1 =? CR)%N.
  - destruct y as [|c2 y]; simpl; [now rewrite H2|]. now destruct (c2 =? LF)%N.
  - now destruct (c1 =? LF)%N.
Qed.

Lemma drop_while_stop (p : char -> bool) (y : str) (q : char) (r : str) :
  p q = false -> drop_while p (y ++ q :: r) = drop_while p y ++ q :: r.
Proof.
  intros H. induction y as [|c y IH]; simpl; [now rewrite H|].
  now destruct (p c).
Qed.

Lemma take_while_stop (p : char -> bool) (y : str) (q : char) (r : str) :
  p q = false -> take_while p (y ++ q :: r) = take_while p y.
Proof.
  intros H. induction y as [|c y IH]; simpl; [now rewrite H|].
  destruct (p c); [now rewrite IH | reflexivity].
Qed.

Lemma digits_sep_stop (y : str) (q : char) (r : str) :
  is_digit q = false -> is_sep q = false ->
  digits_sep (y ++ q :: r) =
  option_map (fun dr => (fst dr, snd dr ++ q :: r)) (digits_sep y).
Proof.
  intros H1 H2. unfold digits_sep.
  rewrite take_while_stop, drop_while_stop by assumption.
  destruct (take_while is_digit y) as [|d ds]; [reflexivity|].
  destruct (drop_while is_digit y) as [|c y']; simpl; [now rewrite H2|].
  now destruct (is_sep c).
Qed.

(** ** Other digits in an answer marker *)

Lemma is_some_map (A B : Type) (f : A -> B) (x : option A) :
  is_some (option_map f x) = is_some x.
Proof. now destruct x. Qed.

Lemma is_some_None (A : Type) (x : option A) : is_some x = false <-> x = None.
Proof. destruct x; simpl; split; congruence. Qed.

Lemma is_some_answer_at (s : str) :
  is_some (answer_at s) = match s with [] => false | _ :: _ => true end.
Proof.
  destruct s as [|c s]; [reflexivity|].
  destruct (answer_at_some (c :: s)) as [r ->]; [discriminate | reflexivity].
Qed.

(** ** The letter A stops every reading but that of an answer marker *)

Lemma boundary_stop_A (z r1 r2 : str) :
  boundary (z ++ cA :: r1) = boundary (z ++ cA :: r2).
Proof.
  assert (E : forall r, boundary (z ++ cA :: r) =
              match z with
              | [] => false
              | _ :: _ =>
                  match z1 <- eat_nl z ;; eat_nl z1 with
                  | Some z2 =>
                      match z2 with
                      | [] => false
                      | c :: z3 => (c =? cQ)%N && is_some (digits_sep z3)
                      end || is_some (eat_nl z2)
                  | None => false
                  end
              end).
  { intros r. destruct z as [|c0 z0]; [reflexivity|].
    unfold boundary. rewrite <- app_comm_cons. rewrite app_comm_cons.
    unfold bind. rewrite eat_nl_stop by discriminate.
    destruct (eat_nl (c0 :: z0)) as [z1|]; simpl; [|reflexivity].
    rewrite eat_nl_stop by discriminate.
    destruct (eat_nl z1) as [z2|]; simpl; [|reflexivity].
    rewrite eat_nl_stop, is_some_map by discriminate. f_equal.
    destruct z2 as [|c z3]; simpl; [reflexivity|].
    rewrite digits_sep_stop, is_some_map by reflexivity. reflexivity. }
  now rewrite !E.
Qed.

Lemma marker_at_stop_A (z r : str) :
  marker_at (z ++ cA :: r) =
  match eat_nl z with
  | None => None
  | Some z1 =>
      match drop_while is_space z1 with
      | [] => option_map snd (digits_sep r)
      | c1 :: z2 =>
          if (c1 =? cA)%N
          then option_map (fun dr => snd dr ++ cA :: r) (digits_sep z2)
          else None
      end
  end.
Proof.
  unfold marker_at, bind. rewrite eat_nl_stop by discriminate.
  destruct (eat_nl z) as [z1|]; simpl; [|reflexivity].
  rewrite drop_while_stop by reflexivity.
  destruct (drop_while is_space z1) as [|c1 z2]; simpl; [reflexivity|].
  destruct (c1 =? cA)%N; [|reflexivity].
  rewrite digits_sep_stop by reflexivity.
  now destruct (digits_sep z2) as [[? ?]|].
Qed.

Lemma rev_inj (a b : str) : rev a = rev b -> a = b.
Proof.
  intros H. apply (f_equal (@rev char)) in H. now rewrite !rev_involutive in H.
Qed.

(** A text splits in one way only into something that does not end
    inside [p] and a run of [p]. *)
Lemma split_unique_rev (p : char -> bool) (a b w w' : str) :
  all p w -> all p w' -> stops p (rev a) -> stops p (rev b) ->
  a ++ w = b ++ w' -> a = b /\ w = w'.
Proof.
  intros Hw Hw' Ha Hb E. apply (f_equal (@rev char)) in E.
  rewrite !rev_app_distr in E.
  destruct (split_unique p (rev w) (rev w') (rev a) (rev b)) as [E1 E2];
    auto using all_rev.
  split; now apply rev_inj.
Qed.

Lemma stops_rev_snoc (p : char -> bool) (a : str) (x : char) :
  p x = false -> stops p (rev (a ++ [x])).
Proof. intros H. rewrite rev_app_distr. exact H. Qed.

Lemma is_some_question_body_at (s : str) :
  is_some (question_body_at s) =
  match s with
  | [] => false
  | _ :: s' => any_at (fun x => is_some (answer_after x)) s'
  end.
Proof.
  rewrite question_body_at_eq. apply lazy_any_1. intros x. apply is_some_map.
Qed.

Lemma answer_after_not_nl (x : char) (r : str) :
  x <> CR /\ x <> LF -> answer_after (x :: r) = None.
Proof.
  intros [H1 H2]. apply N.eqb_neq in H1, H2.
  unfold answer_after, marker_at, bind. simpl. now rewrite H1, H2.
Qed.

(** No answer marker starts inside a run without line break. *)
Lemma any_at_skip (m u : str) :
  (forall x, In x m -> x <> CR /\ x <> LF) ->
  any_at (fun x => is_some (answer_after x)) (m ++ u) =
  any_at (fun x => is_some (answer_after x)) u.
Proof.
  induction m as [|x m IH]; intros H; [reflexivity|].
  simpl app. cbn [any_at]. rewrite answer_after_not_nl by (apply H; now left).
  simpl. apply IH. intros y Hy. apply H. now right.
Qed.

Lemma any_at_marker_digits (ds : str) (c : char) (u : str) :
  all is_digit ds -> is_sep c = true ->
  any_at (fun x => is_some (answer_after x)) (ds ++ c :: u) =
  any_at (fun x => is_some (answer_after x)) u.
Proof.
  intros Hd Hc. change (ds ++ c :: u) with (ds ++ [c] ++ u).
  rewrite app_assoc. apply any_at_skip. intros x Hx.
  apply in_app_or in Hx. destruct Hx as [Hx|[<-|[]]].
  - unfold all in Hd. rewrite Forall_forall in Hd. apply Hd in Hx.
    apply digit_not_space in Hx. split; intros ->; discriminate.
  - apply sep_not_space in Hc. split; intros ->; discriminate.
Qed.

Ltac reassoc := repeat (rewrite <- ?app_assoc, <- ?app_comm_cons); reflexivity.

Section MarkerDigits.
Variables (d d' : str) (c : char) (U : str).
Hypothesis Hd : d <> [] /\ all is_digit d.
Hypothesis Hd' : d' <> [] /\ all is_digit d'.
Hypothesis Hc : is_sep c = true.

(** The text with the one marker, and with the other. *)
Local Abbreviation V z := (z ++ cA :: d ++ c :: U).
Local Abbreviation V' z := (z ++ cA :: d' ++ c :: U).

Lemma boundary_var (z : str) : boundary (V z) = boundary (V' z).
Proof. apply boundary_stop_A. Qed.

(** What follows a marker read before the one that changes is the same
    text, up to that one. *)
Lemma marker_at_var (z : str) :
  (marker_at (V z) = None /\ marker_at (V' z) = None) \/
  (exists r0, marker_at (V z) = Some (V r0) /\ marker_at (V' z) = Some (V' r0)) \/
  (marker_at (V z) = Some U /\ marker_at (V' z) = Some U /\
   exists nl ws, is_nl nl /\ all is_space ws /\ z = nl ++ ws).
Proof.
  rewrite !marker_at_stop_A.
  destruct (eat_nl z) as [z1|] eqn:E; [|now left].
  pose proof (take_drop is_space z1) as TD.
  pose proof (take_while_all is_space z1) as TA.
  destruct (drop_while is_space z1) as [|c1 z2].
  - right. right. destruct Hd, Hd'.
    rewrite !digits_sep_complete by assumption. simpl.
    split; [reflexivity|]. split; [reflexivity|].
    apply eat_nl_shape in E. destruct E as (nl & Hnl & ->).
    exists nl, z1. rewrite app_nil_r in TD. rewrite TD in TA. auto.
  - destruct (c1 =? cA)%N; [|now left].
    destruct (digits_sep z2) as [[ds r0]|]; [|now left].
    right. left. exists r0. now split.
Qed.

Lemma answer_after_var_some (z : str) :
  is_some (answer_after (V z)) = is_some (answer_after (V' z)).
Proof.
  unfold answer_after, bind.
  destruct (marker_at_var z) as [[-> ->]|[(r0 & -> & ->)|(-> & -> & _)]];
    try reflexivity.
  rewrite !is_some_answer_at. now destruct r0.
Qed.

Lemma any_at_marker (ds : str) :
  all is_digit ds ->
  any_at (fun x => is_some (answer_after x)) (cA :: ds ++ c :: U) =
  any_at (fun x => is_some (answer_after x)) U.
Proof.
  intros Hds. cbn [any_at].
  rewrite answer_after_not_nl by (split; discriminate). simpl.
  now apply any_at_marker_digits.
Qed.

Lemma any_at_var (z : str) :
  any_at (fun x => is_some (answer_after x)) (V z) =
  any_at (fun x => is_some (answer_after x)) (V' z).
Proof.
  induction z as [|c0 z IH].
  - simpl app. now rewrite !any_at_marker by (apply Hd || apply Hd').
  - change (any_at ?P ((c0 :: z) ++ ?r)) with
      (P ((c0 :: z) ++ r) || any_at P (z ++ r)).
    now rewrite IH, answer_after_var_some.
Qed.

Lemma question_body_at_var_some (z : str) :
  is_some (question_body_at (V z)) = is_some (question_body_at (V' z)).
Proof.
  rewrite !is_some_question_body_at. destruct z as [|c0 z].
  - simpl app. cbv iota.
    now rewrite !any_at_marker_digits by (apply Hd || apply Hd' || exact Hc).
  - apply any_at_var.
Qed.

Lemma greedy_var_some (z : str) (n : nat) :
  is_some (rep_greedy CSpace 0 None question_body_at n (V z)) =
  is_some (rep_greedy CSpace 0 None question_body_at n (V' z)).
Proof.
  rewrite !(greedy_any _ question_body_at (fun x => is_some (question_body_at x)))
    by reflexivity.
  induction z as [|c0 z IH].
  - cbn [app any_ws]. pose proof (question_body_at_var_some []) as E.
    cbn [app] in E. rewrite E.
    replace (is_space cA) with false by reflexivity. reflexivity.
  - change (any_ws ?P ((c0 :: z) ++ ?r)) with
      (P ((c0 :: z) ++ r) || (is_space c0 && any_ws P (z ++ r))).
    now rewrite IH, (question_body_at_var_some (c0 :: z)).
Qed.

(** A position where no match starts stays one. *)
Lemma match_direct_var_some (z : str) :
  is_some (match_direct (V z)) = is_some (match_direct (V' z)).
Proof.
  destruct z as [|c0 z]; [reflexivity|].
  unfold match_direct. rewrite <- !app_comm_cons.
  destruct (c0 =? cQ)%N; [|reflexivity].
  rewrite !digits_sep_stop by reflexivity.
  destruct (digits_sep z) as [[g1 h]|]; [|reflexivity]. simpl.
  pose proof (greedy_var_some h 0) as E. fold (question_at (V h)) in E.
  fold (question_at (V' h)) in E.
  destruct (question_at (V h)) as [[g2 [g3 rest]]|],
           (question_at (V' h)) as [[g2' [g3' rest']]|]; simpl in *; congruence.
Qed.

(** ** Matches whose answer marker is not the one that changes *)

Section Transfer.
Variables (g2 g3 rt rt' : str).
Hypothesis body_transfer :
  forall h, question_body_at (V h) = Some (g2, (g3, rt)) ->
            question_body_at (V' h) = Some (g2, (g3, rt')).

Lemma greedy_transfer (h : str) : forall n,
  rep_greedy CSpace 0 None question_body_at n (V h) = Some (g2, (g3, rt)) ->
  rep_greedy CSpace 0 None question_body_at n (V' h) = Some (g2, (g3, rt')).
Proof.
  induction h as [|c0 h IH]; intros n H.
  - cbn [app rep_greedy] in *.
    replace (cmatch CSpace cA) with false in * by reflexivity.
    cbn [andb Nat.leb] in *. now apply (body_transfer []).
  - rewrite <- app_comm_cons in *. cbn [rep_greedy] in *.
    destruct (cmatch CSpace c0 && below None n).
    + pose proof (greedy_var_some h (S n)) as E.
      destruct (rep_greedy CSpace 0 None question_body_at (S n) (V h)) as [r|] eqn:G.
      * injection H as ->. now rewrite (IH (S n) G).
      * destruct (rep_greedy CSpace 0 None question_body_at (S n) (V' h));
          [discriminate E|].
        cbn [Nat.leb] in *. now apply (body_transfer (c0 :: h)).
    + cbn [Nat.leb] in *. now apply (body_transfer (c0 :: h)).
Qed.

Lemma match_direct_transfer (g1 z : str) :
  match_direct (V z) = Some (g1, g2, g3, rt) ->
  match_direct (V' z) = Some (g1, g2, g3, rt').
Proof.
  destruct z as [|c0 z]; [discriminate|].
  unfold match_direct. rewrite <- !app_comm_cons.
  destruct (c0 =? cQ)%N; [|discriminate].
  rewrite !digits_sep_stop by reflexivity.
  destruct (digits_sep z) as [[g1' h]|]; [|discriminate]. simpl.
  destruct (question_at (V h)) as [[g2' [g3' r]]|] eqn:Q; [|discriminate].
  intros [= -> -> -> ->]. unfold question_at in *.
  now rewrite (greedy_transfer h 0 Q).
Qed.
End Transfer.

(** The match ends before the marker that changes. *)
Lemma body_transfer_before (g2 g3 r0 h : str) :
  question_body_at (V h) = Some (g2, (g3, V r0)) ->
  question_body_at (V' h) = Some (g2, (g3, V' r0)).
Proof.
  intros H. destruct (question_body_at_shape _ _ _ H) as (s5 & E & Hne & HA & Hmin).
  unfold answer_after, bind in HA.
  destruct (marker_at s5) as [s6|] eqn:M; [|discriminate].
  destruct (marker_at_shape _ _ M) as (nl & ws & da & c2 & -> & Hnl & Hws & Hda & Hdd & Hc2).
  destruct (answer_at_shape _ _ _ HA) as (w3 & -> & Hw3 & Hb & Hst).
  destruct (body_at_shape _ _ _ Hb) as (_ & Hg3 & Hbd & Hmin3).
  assert (Eh : h = g2 ++ nl ++ ws ++ cA :: da ++ c2 :: w3 ++ g3 ++ r0).
  { apply (app_inv_tail (cA :: d ++ c :: U)). rewrite E. reassoc. }
  subst h. clear E H M HA.
  replace (V' (g2 ++ nl ++ ws ++ cA :: da ++ c2 :: w3 ++ g3 ++ r0))
    with (g2 ++ nl ++ ws ++ cA :: da ++ c2 :: w3 ++ g3 ++ V' r0) by reassoc.
  apply question_body_at_complete; [assumption| |].
  - unfold answer_after, bind. rewrite marker_at_complete by assumption.
    apply answer_at_complete; [assumption| |].
    + destruct Hst as [Hst|[Hst _]]; [|now destruct r0].
      destruct g3; [congruence | exact Hst].
    + apply body_at_complete; [assumption| |].
      * now rewrite <- boundary_var.
      * intros p p' Eg Hp Hp'.
        replace (p' ++ V' r0) with (V' (p' ++ r0)) by reassoc.
        rewrite <- boundary_var.
        replace (V (p' ++ r0)) with (p' ++ V r0) by reassoc.
        now apply (Hmin3 p p').
  - intros p p' Eg Hp Hp'.
    pose proof (answer_after_var_some
                  (p' ++ nl ++ ws ++ cA :: da ++ c2 :: w3 ++ g3 ++ r0)) as Ev.
    replace (V (p' ++ nl ++ ws ++ cA :: da ++ c2 :: w3 ++ g3 ++ r0))
      with (p' ++ nl ++ ws ++ cA :: da ++ c2 :: w3 ++ g3 ++ V r0) in Ev by reassoc.
    replace (V' (p' ++ nl ++ ws ++ cA :: da ++ c2 :: w3 ++ g3 ++ r0))
      with (p' ++ nl ++ ws ++ cA :: da ++ c2 :: w3 ++ g3 ++ V' r0) in Ev by reassoc.
    rewrite (Hmin p p' Eg Hp Hp') in Ev. symmetry in Ev. now apply is_some_None in Ev.
Qed.

(** The marker that changes is the answer marker of the match: it
    stands right before the answer body and the white characters in
    front of it. *)
Lemma body_transfer_at (g2 g3 rest w3 h : str) :
  U = w3 ++ g3 ++ rest -> all is_space w3 ->
  question_body_at (V h) = Some (g2, (g3, rest)) ->
  question_body_at (V' h) = Some (g2, (g3, rest)).
Proof.
  intros EU Hw3 H.
  destruct (question_body_at_shape _ _ _ H) as (s5 & E & Hne & HA & Hmin).
  unfold answer_after, bind in HA.
  destruct (marker_at s5) as [s6|] eqn:M; [|discriminate].
  destruct (marker_at_shape _ _ M) as (nl & ws & da & c2 & -> & Hnl & Hws & Hda & Hdd & Hc2).
  destruct (answer_at_shape _ _ _ HA) as (w3' & Es6 & Hw3' & Hb & Hst).
  (* the two readings of the text agree on where the marker is *)
  assert (E1 : (h ++ cA :: d ++ [c]) ++ w3 = (g2 ++ nl ++ ws ++ cA :: da ++ [c2]) ++ w3').
  { apply (app_inv_tail (g3 ++ rest)).
    transitivity (V h); [rewrite EU; reassoc|]. rewrite E, Es6. reassoc. }
  apply split_unique_rev with (p := is_space) in E1; try assumption.
  2: { replace (h ++ cA :: d ++ [c]) with ((h ++ cA :: d) ++ [c]) by reassoc.
       apply stops_rev_snoc. now apply sep_not_space. }
  2: { replace (g2 ++ nl ++ ws ++ cA :: da ++ [c2])
         with ((g2 ++ nl ++ ws ++ cA :: da) ++ [c2]) by reassoc.
       apply stops_rev_snoc. now apply sep_not_space. }
  destruct E1 as [E1 <-].
  replace (h ++ cA :: d ++ [c]) with ((h ++ cA :: d) ++ [c]) in E1 by reassoc.
  replace (g2 ++ nl ++ ws ++ cA :: da ++ [c2])
    with ((g2 ++ nl ++ ws ++ cA :: da) ++ [c2]) in E1 by reassoc.
  apply app_inj_tail in E1. destruct E1 as [E1 <-].
  replace (h ++ cA :: d) with ((h ++ [cA]) ++ d) in E1 by reassoc.
  replace (g2 ++ nl ++ ws ++ cA :: da) with ((g2 ++ nl ++ ws ++ [cA]) ++ da) in E1 by reassoc.
  apply split_unique_rev with (p := is_digit) in E1;
    try apply Hd; try assumption; try (apply stops_rev_snoc; reflexivity).
  2: { replace (g2 ++ nl ++ ws ++ [cA]) with ((g2 ++ nl ++ ws) ++ [cA]) by reassoc.
       apply stops_rev_snoc. reflexivity. }
  destruct E1 as [E1 <-].
  replace (g2 ++ nl ++ ws ++ [cA]) with ((g2 ++ nl ++ ws) ++ [cA]) in E1 by reassoc.
  apply app_inj_tail in E1. destruct E1 as [-> _].
  assert (Es : s6 = U) by (rewrite Es6, EU; reflexivity).
  rewrite Es in *. clear Es Es6.
  replace (V' (g2 ++ nl ++ ws)) with (g2 ++ nl ++ ws ++ cA :: d' ++ c :: U) by reassoc.
  apply question_body_at_complete; [assumption| |].
  - unfold answer_after, bind.
    rewrite marker_at_complete; try assumption; apply Hd'.
  - intros p p' Eg Hp Hp'.
    pose proof (answer_after_var_some (p' ++ nl ++ ws)) as Ev.
    replace (V (p' ++ nl ++ ws)) with (p' ++ nl ++ ws ++ cA :: d ++ c :: U) in Ev by reassoc.
    replace (V' (p' ++ nl ++ ws)) with (p' ++ nl ++ ws ++ cA :: d' ++ c :: U) in Ev by reassoc.
    rewrite (Hmin p p' Eg Hp Hp') in Ev. symmetry in Ev. now apply is_some_None in Ev.
Qed.

Lemma match_direct_var_before (g1 g2 g3 r0 z : str) :
  match_direct (V z) = Some (g1, g2, g3, V r0) ->
  match_direct (V' z) = Some (g1, g2, g3, V' r0).
Proof.
  apply match_direct_transfer. intros h. apply body_transfer_before.
Qed.

Lemma match_direct_var_at (g1 g2 g3 rest w3 z : str) :
  U = w3 ++ g3 ++ rest -> all is_space w3 ->
  match_direct (V z) = Some (g1, g2, g3, rest) ->
  match_direct (V' z) = Some (g1, g2, g3, rest).
Proof.
  intros EU Hw3. apply match_direct_transfer. intros h.
  now apply (body_transfer_at g2 g3 rest w3 h).
Qed.
End MarkerDigits.

Lemma match_here_direct (s rest : str) (g : groups) :
  match_here pattern s = Some (rest, g) <->
  exists g1 g2 g3,
    match_direct s = Some (g1, g2, g3, rest) /\ g = [(3, g3); (2, g2); (1, g1)].
Proof.
  rewrite match_here_pattern. split.
  - destruct (match_direct s) as [[[[g1 g2] g3] rest']|]; [|discriminate].
    simpl. intros [= <- <-]. now exists g1, g2, g3.
  - intros (g1 & g2 & g3 & -> & ->). reflexivity.
Qed.

Lemma match_here_None (s : str) :
  match_here pattern s = None <-> is_some (match_direct s) = false.
Proof.
  rewrite match_here_pattern. destruct (match_direct s); simpl; split; congruence.
Qed.

Section ScanDigits.
Variables (d d' : str) (c : char) (U : str).
Hypothesis Hd : d <> [] /\ all is_digit d.
Hypothesis Hd' : d' <> [] /\ all is_digit d'.
Hypothesis Hc : is_sep c = true.

Local Abbreviation V z := (z ++ cA :: d ++ c :: U).
Local Abbreviation V' z := (z ++ cA :: d' ++ c :: U).

(** The scan finds the same matches when the answer marker of one of
    them gets other digits. *)
Lemma findall_var (T u : str) :
  reaches T u ->
  forall head rest w3 g,
    u = V head -> match_here pattern (V head) = Some (rest, g) ->
    U = w3 ++ get_group 3 g ++ rest -> all is_space w3 ->
    exists pre, T = pre ++ V head /\
                findall pattern (pre ++ V' head) = findall pattern T.
Proof.
  induction 1 as [t|c0 t u Hnone Hr IH|t rest0 u g0 Hm Hr IH];
    intros head rest w3 g -> M EU Hw3.
  - exists []. split; [reflexivity|]. simpl app.
    rewrite (findall_match _ _ _ M).
    apply match_here_direct in M. destruct M as (g1 & g2 & g3 & M & ->).
    simpl in EU.
    apply (match_direct_var_at d d' c U Hd Hd' Hc g1 g2 g3 rest w3 head EU Hw3) in M.
    assert (M' : match_here pattern (V' head) = Some (rest, [(3, g3); (2, g2); (1, g1)]))
      by (apply match_here_direct; now exists g1, g2, g3).
    now rewrite (findall_match _ _ _ M').
  - destruct (IH head rest w3 g eq_refl M EU Hw3) as (pre & -> & E).
    exists (c0 :: pre). split; [reflexivity|].
    rewrite (findall_eq pattern (c0 :: pre ++ V head)), Hnone.
    rewrite <- app_comm_cons, (findall_eq pattern (c0 :: pre ++ V' head)).
    assert (N : match_here pattern (c0 :: pre ++ V' head) = None).
    { apply match_here_None. apply match_here_None in Hnone.
      replace (c0 :: pre ++ V' head) with (V' (c0 :: pre ++ head)) by reassoc.
      rewrite <- (match_direct_var_some d d' c U Hd Hd' Hc).
      now replace (V (c0 :: pre ++ head)) with (c0 :: pre ++ V head) by reassoc. }
    now rewrite N.
  - destruct (IH head rest w3 g eq_refl M EU Hw3) as (pre & -> & E).
    destruct (match_here_suffix _ _ _ _ Hm) as [X ->].
    exists (X ++ pre). split; [now rewrite <- app_assoc|].
    rewrite (findall_match _ _ _ Hm).
    apply match_here_direct in Hm. destruct Hm as (g1 & g2 & g3 & Hm & ->).
    replace (X ++ pre ++ V head) with (V (X ++ pre ++ head)) in Hm by reassoc.
    replace (pre ++ V head) with (V (pre ++ head)) in Hm by reassoc.
    apply (match_direct_var_before d d' c U Hd Hd' Hc) in Hm.
    assert (M' : match_here pattern ((X ++ pre) ++ V' head) =
                 Some (pre ++ V' head, [(3, g3); (2, g2); (1, g1)])).
    { apply match_here_direct. exists g1, g2, g3. split; [|reflexivity].
      replace ((X ++ pre) ++ V' head) with (V' (X ++ pre ++ head)) by reassoc.
      now replace (pre ++ V' head) with (V' (pre ++ head)) by reassoc. }
    now rewrite (findall_match _ _ _ M'), E.
Qed.
End ScanDigits.

Lemma findall_variant (t t' : str) :
  answer_digits_variant t t' -> findall pattern t = findall pattern t'.
Proof.
  induction 1 as [t|pre head d d' c w3 rest g t' R M Hd Hd' Hc Hw3 _ IH];
    [reflexivity|].
  rewrite <- IH.
  destruct (findall_var d d' c (w3 ++ get_group 3 g ++ rest) Hd Hd' Hc _ _ R
              head rest w3 g eq_refl M eq_refl Hw3) as (pre' & E & F).
  apply app_inv_tail in E. subst pre'. now symmetry.
Qed.
(** * Further lemmas: the scan, character classes, numbers *)


(** ** Induction along the scan *)

Lemma findall_scan_ind (P : str -> list groups -> Prop) :
  P [] [] ->
  (forall c s ms, match_here pattern (c :: s) = None ->
     findall pattern s = Some ms -> P s ms -> P (c :: s) ms) ->
  (forall s rest g ms, match_here pattern s = Some (rest, g) ->
     findall pattern rest = Some ms -> P rest ms -> P s (g :: ms)) ->
  forall s ms, findall pattern s = Some ms -> P s ms.
Proof.
  intros Hnil Hskip Hmatch s.
  induction s as [s IH] using str_length_ind. intros ms F.
  destruct (match_here pattern s) as [[rest g]|] eqn:M.
  - rewrite (findall_match s rest g M) in F.
    destruct (findall pattern rest) as [ms'|] eqn:F'; [|discriminate].
    injection F as <-. apply (Hmatch s rest g ms' M F').
    apply IH; [|assumption].
    apply consumed_lt. apply (match_here_consumes s rest g M).
  - rewrite findall_eq, M in F. destruct s as [|c s'].
    + injection F as <-. assumption.
    + apply Hskip; [assumption..|]. apply IH; [simpl; lia | assumption].
Qed.

(** ** Counting markers *)

Lemma occurrences_app (c : char) (a b : str) :
  occurrences c (a ++ b) = occurrences c a + occurrences c b.
Proof. unfold occurrences. now rewrite filter_app, length_app. Qed.

Lemma occurrences_cons (c d : char) (s : str) :
  occurrences c (d :: s) = (if (c =? d)%N then 1 else 0) + occurrences c s.
Proof. unfold occurrences. simpl. now destruct (c =? d)%N. Qed.

Lemma occurrences_nl (nl : str) : is_nl nl -> occurrences LF nl = 1.
Proof. intros [-> | ->]; reflexivity. Qed.

(** A match holds a [Q], an [A] and a line break of its own. *)
Lemma match_here_markers (s rest : str) (g : groups) :
  match_here pattern s = Some (rest, g) ->
  occurrences cQ rest < occurrences cQ s /\
  occurrences cA rest < occurrences cA s /\
  occurrences LF rest < occurrences LF s.
Proof.
  intros M. apply match_here_groups in M. destruct M as (g1 & g2 & g3 & M & _).
  apply match_direct_shape in M.
  destruct M as (c1 & w1 & nl & w2 & da & c2 & w3 & -> & _ & _ & _ & _ & Hnl & _).
  apply occurrences_nl in Hnl.
  repeat (rewrite ?occurrences_app, ?occurrences_cons). rewrite Hnl.
  rewrite !N.eqb_refl. repeat split; lia.
Qed.

Lemma findall_markers (s : str) (ms : list groups) :
  findall pattern s = Some ms ->
  length ms <= occurrences cQ s /\
  length ms <= occurrences cA s /\
  length ms <= occurrences LF s.
Proof.
  revert s ms. apply findall_scan_ind.
  - simpl. repeat split; lia.
  - intros c s ms _ _ IH. rewrite !occurrences_cons. repeat split; lia.
  - intros s rest g ms M _ IH. apply match_here_markers in M. simpl.
    repeat split; lia.
Qed.

(** ** Text in front *)

Lemma findall_skip_prefix (junk s : str) :
  ~ In cQ junk -> findall pattern (junk ++ s) = findall pattern s.
Proof.
  induction junk as [|c junk IH]; intros H; [reflexivity|].
  simpl. rewrite findall_skip.
  - apply IH. intros Hin. apply H. now right.
  - intros ->. apply H. now left.
Qed.

(** ** The groups in the text *)

Lemma in_order_skip (ps : list str) (pre t : str) :
  in_order ps t -> in_order ps (pre ++ t).
Proof.
  intros H. destruct H as [t | p ps pre' t H].
  - constructor.
  - rewrite app_assoc. now constructor.
Qed.

Lemma findall_in_order (s : str) (ms : list groups) :
  findall pattern s = Some ms -> in_order (flat_map pieces ms) s.
Proof.
  revert s ms. apply findall_scan_ind.
  - constructor.
  - intros c s ms _ _ IH. now apply (in_order_skip _ [c]).
  - intros s rest g ms M _ IH.
    apply match_here_groups in M. destruct M as (g1 & g2 & g3 & M & E1 & E2 & E3).
    apply match_direct_shape in M.
    destruct M as (c1 & w1 & nl & w2 & da & c2 & w3 & -> & _).
    simpl. unfold pieces at 1. rewrite E1, E2, E3. simpl.
    apply (in_order_cons g1 _ [cQ]).
    apply (in_order_cons g2 _ (c1 :: w1)).
    replace (nl ++ w2 ++ cA :: da ++ c2 :: w3 ++ g3 ++ rest)
      with ((nl ++ w2 ++ cA :: da ++ c2 :: w3) ++ g3 ++ rest)
      by (now repeat (rewrite <- ?app_assoc; simpl)).
    now apply in_order_cons.
Qed.

(** ** When an attempt succeeds *)

Lemma question_at_reaches (x : char) (u s5 : str) (ar : str * str) :
  answer_after s5 = Some ar ->
  exists r, question_at (x :: u ++ s5) = Some r.
Proof.
  intros HA.
  destruct (question_at (x :: u ++ s5)) as [r|] eqn:E; [eauto|]. exfalso.
  unfold question_at in E.
  pose proof (rep_greedy_none _ CSpace 0 question_body_at [] 0 (x :: u ++ s5)
                (Forall_nil _) (Nat.le_0_l _) E) as E'.
  unfold question_body_at in E'.
  pose proof (rep_lazy_none _ CAny 1 _ _ 0 E' (x :: u) s5 eq_refl (all_any _)
                ltac:(simpl; lia)) as E''.
  cbv beta in E''. unfold answer_after in HA.
  destruct (marker_at s5) as [s6|]; [|discriminate]. simpl in HA, E''.
  rewrite HA in E''. discriminate.
Qed.

Lemma match_here_reaches (ds : str) (c x : char) (u nl ws da : str) (c2 y : char) (v : str) :
  ds <> [] -> all is_digit ds -> is_sep c = true ->
  is_nl nl -> all is_space ws ->
  da <> [] -> all is_digit da -> is_sep c2 = true ->
  exists rest g,
    match_here pattern
      (cQ :: ds ++ c :: x :: u ++ nl ++ ws ++ cA :: da ++ c2 :: y :: v) = Some (rest, g).
Proof.
  intros Hds Dds Hc Hnl Hws Hda Dda Hc2.
  rewrite match_here_pattern. unfold match_direct. rewrite N.eqb_refl.
  rewrite (digits_sep_complete ds _ c Hds Dds Hc).
  destruct (answer_at_some (y :: v) ltac:(discriminate)) as [ar Har].
  destruct (question_at_reaches x u (nl ++ ws ++ cA :: da ++ c2 :: y :: v) ar) as [[g2 [g3 rest]] ->].
  - unfold answer_after. rewrite (marker_at_complete nl ws da (y :: v) c2); auto.
  - simpl. eauto.
Qed.

Lemma match_here_reached (s rest : str) (g : groups) :
  match_here pattern s = Some (rest, g) ->
  exists ds c x u nl ws da c2 y v,
    s = cQ :: ds ++ c :: x :: u ++ nl ++ ws ++ cA :: da ++ c2 :: y :: v /\
    (ds <> [] /\ all is_digit ds) /\ is_sep c = true /\
    is_nl nl /\ all is_space ws /\
    (da <> [] /\ all is_digit da) /\ is_sep c2 = true.
Proof.
  intros M. apply match_here_groups in M. destruct M as (g1 & g2 & g3 & M & _).
  apply match_direct_shape in M.
  destruct M as (c1 & w1 & nl & w2 & da & c2 & w3 & -> & Hg1 & Hc1 & _ & Hg2 & Hnl & Hw2
                 & Hda & Hc2 & _ & Hb & _).
  apply body_at_shape in Hb. destruct Hb as (_ & Hg3 & _).
  destruct (w1 ++ g2) as [|x u] eqn:E1.
  { apply app_eq_nil in E1. destruct E1; congruence. }
  destruct (w3 ++ g3 ++ rest) as [|y v] eqn:E3.
  { apply app_eq_nil in E3. destruct E3 as [_ E3].
    apply app_eq_nil in E3. destruct E3; congruence. }
  exists g1, c1, x, u, nl, w2, da, c2, y, v.
  split; [|tauto]. now rewrite (app_assoc w1 g2), E1.
Qed.

(** ** Characters replaced by others of the same classes *)

Section CharMap.
Variable f : char -> char.

Lemma rep_greedy_mapf (R R' : Type) (k : cclass) (lo : nat) (hi : option nat)
  (K : str -> option R) (K' : str -> option R') (h : R -> R') :
  (forall c, cmatch k (f c) = cmatch k c) ->
  (forall s, K' (map f s) = option_map h (K s)) ->
  forall s n,
    rep_greedy k lo hi K' n (map f s) = option_map h (rep_greedy k lo hi K n s).
Proof.
  intros Hk HK. induction s as [|c s IH]; intros n; simpl.
  - destruct (Nat.leb lo n); [apply (HK [])|reflexivity].
  - rewrite Hk. destruct (cmatch k c && below hi n).
    + rewrite IH. destruct (rep_greedy k lo hi K (S n) s); [reflexivity|].
      simpl. destruct (Nat.leb lo n); [apply (HK (c :: s))|reflexivity].
    + destruct (Nat.leb lo n); [apply (HK (c :: s))|reflexivity].
Qed.

Lemma rep_lazy_mapf (R R' : Type) (k : cclass) (lo : nat) (hi : option nat)
  (K : str -> option R) (K' : str -> option R') (h : R -> R') :
  (forall c, cmatch k (f c) = cmatch k c) ->
  (forall s, K' (map f s) = option_map h (K s)) ->
  forall s n,
    rep_lazy k lo hi K' n (map f s) = option_map h (rep_lazy k lo hi K n s).
Proof.
  intros Hk HK. induction s as [|c s IH]; intros n; simpl.
  - destruct (Nat.leb lo n); [|reflexivity].
    pose proof (HK []) as H0. cbn [map] in H0. rewrite H0. now destruct (K []).
  - pose proof (HK (c :: s)) as H1. cbn [map] in H1.
    destruct (Nat.leb lo n).
    + rewrite H1. destruct (K (c :: s)); [reflexivity|]. simpl.
      rewrite Hk. destruct (cmatch k c && below hi n); [apply IH|reflexivity].
    + rewrite Hk. destruct (cmatch k c && below hi n); [apply IH|reflexivity].
Qed.

Lemma capture_mapf (s s' : str) :
  capture (map f s) (map f s') = map f (capture s s').
Proof. unfold capture. now rewrite !length_map, firstn_map. Qed.

Lemma get_group_mapf (i : nat) (g : groups) :
  get_group i (map_groups f g) = map f (get_group i g).
Proof.
  induction g as [|[j v] g IH]; simpl; [reflexivity|].
  now destruct (Nat.eqb i j).
Qed.

Lemma run_mapf (r : regex) : keeps_classes f r ->
  forall s g (K K' : cont),
    (forall s' g', K' (map f s') (map_groups f g') = option_map (map_result f) (K s' g')) ->
    run r (map f s) (map_groups f g) K' = option_map (map_result f) (run r s g K).
Proof.
  induction r as [k | gr lo hi k | r1 IH1 r2 IH2 | r1 IH1 r2 IH2 | i r1 IH1 | r1 IH1 | |];
    intros Hr s g K K' HK.
  - simpl in Hr. destruct s as [|c s]; simpl; [reflexivity|].
    rewrite Hr. destruct (cmatch k c); [apply HK|reflexivity].
  - simpl in Hr. destruct gr; simpl.
    + apply rep_greedy_mapf; [assumption|]. intros s'. apply HK.
    + apply rep_lazy_mapf; [assumption|]. intros s'. apply HK.
  - destruct Hr as [H1 H2]. simpl. apply IH1; [assumption|].
    intros s' g'. now apply IH2.
  - destruct Hr as [H1 H2]. simpl. rewrite (IH1 H1 s g K K' HK).
    destruct (run r1 s g K); [reflexivity|]. simpl. now apply IH2.
  - simpl in Hr. simpl. apply IH1; [assumption|].
    intros s' g'. rewrite capture_mapf. apply (HK s' (set_group i (capture s s') g')).
  - simpl in Hr. simpl.
    rewrite (IH1 Hr s g (fun s' g' => Some (s', g')) (fun s' g' => Some (s', g')));
      [|reflexivity].
    destruct (run r1 s g (fun s' g' => Some (s', g'))) as [[s1 g1]|]; simpl;
      [apply HK|reflexivity].
  - destruct s; simpl; [apply (HK [])|reflexivity].
  - simpl. apply HK.
Qed.

Lemma match_here_mapf (r : regex) (s : str) :
  keeps_classes f r ->
  match_here r (map f s) = option_map (map_result f) (match_here r s).
Proof. intros Hr. apply (run_mapf r Hr s [] accept accept). reflexivity. Qed.

Lemma consumed_mapf (s rest : str) : consumed (map f s) (map f rest) = consumed s rest.
Proof. unfold consumed. now rewrite !length_map. Qed.

Lemma findall_mapf (r : regex) (s : str) :
  keeps_classes f r ->
  findall r (map f s) = option_map (map (map_groups f)) (findall r s).
Proof.
  intros Hr. induction s as [s IH] using str_length_ind.
  rewrite (findall_eq r s), (findall_eq r (map f s)), (match_here_mapf r s Hr).
  destruct (match_here r s) as [[rest g]|]; simpl.
  - rewrite consumed_mapf. destruct (consumed s rest) eqn:C.
    + rewrite (IH rest (consumed_lt _ _ C)). now destruct (findall r rest).
    + destruct s as [|c s']; simpl; [reflexivity|].
      rewrite (IH s'); [|simpl; lia]. now destruct (findall r s').
  - destruct s as [|c s']; simpl; [reflexivity|]. apply IH. simpl. lia.
Qed.

Lemma sub_empty_mapf (r : regex) (s : str) :
  keeps_classes f r ->
  sub_empty r (map f s) = option_map (map f) (sub_empty r s).
Proof.
  intros Hr. induction s as [s IH] using str_length_ind.
  rewrite (sub_empty_eq r s), (sub_empty_eq r (map f s)), (match_here_mapf r s Hr).
  destruct (match_here r s) as [[rest g]|]; simpl.
  - rewrite consumed_mapf. destruct (consumed s rest) eqn:C.
    + apply (IH rest (consumed_lt _ _ C)).
    + destruct s as [|c s']; simpl; [reflexivity|].
      rewrite (IH s'); [|simpl; lia]. now destruct (sub_empty r s').
  - destruct s as [|c s']; simpl; [reflexivity|].
    rewrite (IH s'); [|simpl; lia]. now destruct (sub_empty r s').
Qed.

Hypothesis Hf : class_preserving f.

Lemma keeps_space (c : char) : is_space (f c) = is_space c.
Proof. apply Hf. Qed.

Lemma keeps_lit (a : char) (c : char) :
  In a [cQ; cA; CR; LF] -> cmatch (CLit a) (f c) = cmatch (CLit a) c.
Proof.
  destruct (Hf c) as (_ & _ & _ & _ & HQ & HA & HCR & HLF).
  simpl. intros [<-|[<-|[<-|[<-|[]]]]]; assumption.
Qed.

Lemma keeps_pattern : keeps_classes f pattern.
Proof.
  assert (HS : forall c, cmatch CSpace (f c) = cmatch CSpace c) by (intros c; apply Hf).
  assert (HD : forall c, cmatch CDigit (f c) = cmatch CDigit c) by (intros c; apply Hf).
  assert (HP : forall c, cmatch seps (f c) = cmatch seps c) by (intros c; apply Hf).
  assert (HQ : forall c, cmatch (CLit cQ) (f c) = cmatch (CLit cQ) c)
    by (intros c; apply keeps_lit; simpl; tauto).
  assert (HA : forall c, cmatch (CLit cA) (f c) = cmatch (CLit cA) c)
    by (intros c; apply keeps_lit; simpl; tauto).
  assert (HCR : forall c, cmatch (CLit CR) (f c) = cmatch (CLit CR) c)
    by (intros c; apply keeps_lit; simpl; tauto).
  assert (HLF : forall c, cmatch (CLit LF) (f c) = cmatch (CLit LF) c)
    by (intros c; apply keeps_lit; simpl; tauto).
  unfold pattern, boundary_re, rstar, rplus, ropt, rplus_lazy.
  cbn [rseq keeps_classes]. repeat split; try assumption; reflexivity.
Qed.

Lemma keeps_newline_re : keeps_classes f newline_re.
Proof.
  unfold newline_re, rstar, ropt. cbn [rseq keeps_classes].
  repeat split; intros c; try apply keeps_lit; simpl; try tauto. apply Hf.
Qed.

Lemma lstrip_mapf (s : str) : lstrip (map f s) = map f (lstrip s).
Proof.
  induction s as [|c s IH]; simpl; [reflexivity|].
  rewrite keeps_space. now destruct (is_space c).
Qed.

Lemma strip_mapf (s : str) : strip (map f s) = map f (strip s).
Proof.
  unfold strip, rstrip. now rewrite lstrip_mapf, <- map_rev, lstrip_mapf, map_rev.
Qed.

Lemma int_digits_mapf (s : str) : forall a,
  int_digits a (map f s) = int_digits a s.
Proof.
  induction s as [|c s IH]; intros a; simpl; [reflexivity|].
  destruct (Hf c) as (_ & _ & -> & _). destruct (digit_value c); [apply IH|reflexivity].
Qed.

Lemma py_int_mapf (s : str) : py_int (map f s) = py_int s.
Proof. destruct s as [|c s]; [reflexivity|]. apply (int_digits_mapf (c :: s)). Qed.

Lemma record_of_mapf (g : groups) :
  record_of (map_groups f g) = option_map (map_texts f) (record_of g).
Proof.
  unfold record_of. rewrite !get_group_mapf, py_int_mapf, !strip_mapf.
  rewrite (sub_empty_mapf newline_re _ keeps_newline_re).
  destruct (py_int (get_group 1 g)); [|reflexivity]. simpl.
  now destruct (sub_empty newline_re (strip (get_group 3 g))).
Qed.

Lemma records_of_mapf (ms : list groups) :
  records_of (map (map_groups f) ms) = option_map (map (map_texts f)) (records_of ms).
Proof.
  induction ms as [|m ms IH]; [reflexivity|].
  simpl. rewrite record_of_mapf, IH.
  destruct (record_of m); [|reflexivity]. simpl.
  now destruct (records_of ms).
Qed.

Lemma insert_by_id_mapf (x : qa) (l : list qa) :
  insert_by_id (map_texts f x) (map (map_texts f) l) =
  map (map_texts f) (insert_by_id x l).
Proof.
  induction l as [|y l IH]; [reflexivity|].
  simpl. destruct (qa_id x <=? qa_id y)%N; [reflexivity|]. simpl. now rewrite IH.
Qed.

Lemma sort_by_id_mapf (l : list qa) :
  sort_by_id (map (map_texts f) l) = map (map_texts f) (sort_by_id l).
Proof.
  induction l as [|x l IH]; [reflexivity|].
  unfold sort_by_id in *. simpl. rewrite IH. apply insert_by_id_mapf.
Qed.

Lemma qa_list_mapf (content : str) :
  qa_list (map f content) = option_map (map (map_texts f)) (qa_list content).
Proof.
  unfold qa_list, collected. rewrite (findall_mapf pattern content keeps_pattern).
  destruct (findall pattern content) as [ms|]; [|reflexivity]. simpl.
  rewrite records_of_mapf. destruct (records_of ms); [|reflexivity]. simpl.
  now rewrite sort_by_id_mapf.
Qed.

End CharMap.

Lemma to_fullwidth_preserving : class_preserving to_fullwidth.
Proof.
  intros c. unfold to_fullwidth. destruct (c =? colon)%N eqn:E.
  - apply N.eqb_eq in E. subst c. repeat split; reflexivity.
  - repeat split; reflexivity.
Qed.

Lemma to_halfwidth_preserving : class_preserving to_halfwidth.
Proof.
  intros c. unfold to_halfwidth. destruct (c =? fwcolon)%N eqn:E.
  - apply N.eqb_eq in E. subst c. repeat split; reflexivity.
  - repeat split; reflexivity.
Qed.

(** ** The visible characters *)

Lemma visible_app (a b : str) : visible (a ++ b) = visible a ++ visible b.
Proof. apply filter_app. Qed.

Lemma visible_space (w : str) : all is_space w -> visible w = [].
Proof.
  induction 1 as [|c w Hc _ IH]; [reflexivity|].
  unfold visible in *. simpl. now rewrite Hc.
Qed.

Lemma visible_nl (nl : str) : is_nl nl -> visible nl = [].
Proof. intros [-> | ->]; reflexivity. Qed.

Lemma visible_strip (s : str) : visible (strip s) = visible s.
Proof.
  destruct (strip_split s) as (a & b & E & Ha & Hb).
  rewrite E at 2. rewrite !visible_app, (visible_space a Ha), (visible_space b Hb).
  now rewrite app_nil_r.
Qed.

Lemma visible_dewrap (s : str) : forall out,
  sub_empty newline_re s = Some out -> visible out = visible s.
Proof.
  induction s as [s IH] using str_length_ind. intros out H.
  rewrite dewrap_eq in H. destruct s as [|c s']; [now injection H as <-|].
  destruct (eat_nl (c :: s')) as [s1|] eqn:E.
  - pose proof (eat_nl_length _ _ E) as L.
    pose proof (drop_while_length is_space s1) as L'.
    rewrite (IH (drop_while is_space s1) ltac:(lia) out H).
    apply eat_nl_shape in E. destruct E as (nl & Hnl & ->).
    rewrite visible_app, (visible_nl nl Hnl). simpl.
    rewrite <- (take_drop is_space s1) at 2.
    now rewrite visible_app, (visible_space _ (take_while_all is_space s1)).
  - destruct (sub_empty newline_re s') as [out'|] eqn:F; [|discriminate].
    injection H as <-. unfold visible in *. simpl.
    rewrite (IH s' ltac:(simpl; lia) out' F). reflexivity.
Qed.

(** ** Fields that are already clean *)

Lemma lstrip_stops (s : str) : stops is_space s -> lstrip s = s.
Proof. destruct s as [|c s]; simpl; [reflexivity|]. now intros ->. Qed.

Lemma strip_fixed (s : str) : trimmed s -> strip s = s.
Proof.
  intros [H1 H2]. unfold strip, rstrip.
  rewrite (lstrip_stops s H1), (lstrip_stops (rev s) H2). apply rev_involutive.
Qed.

(** ** Records that are already in order *)

Lemma sort_by_id_sorted_id (l : list qa) : Sorted id_le l -> sort_by_id l = l.
Proof.
  induction 1 as [|x l Hl IH Hd]; [reflexivity|].
  unfold sort_by_id in *. simpl. rewrite IH.
  destruct Hd as [|y l' Hxy]; [reflexivity|].
  simpl. unfold id_le in Hxy. apply N.leb_le in Hxy. now rewrite Hxy.
Qed.

(** ** What the two functions write and print *)


Lemma preview_length (rs : list qa) : length (flat_map preview rs) = 3 * length rs.
Proof.
  induction rs as [|r rs IH]; [reflexivity|].
  cbn [flat_map preview app length]. rewrite IH. lia.
Qed.

Lemma preview_widths (r : qa) :
  exists ql al,
    preview r = [Print ql; Print al; Print []] /\
    length ql <= 51 + length (str_of_N (qa_id r)) /\
    length al <= 63.
Proof.
  unfold preview. eexists. eexists. split; [reflexivity|].
  pose proof (firstn_le_length 40 (question r)).
  pose proof (firstn_le_length 50 (answer r)).
  split; repeat (rewrite ?length_app; cbn [length txt]); lia.
Qed.

(** ** The size of the records *)

Lemma strip_length (s : str) : length (strip s) <= length s.
Proof.
  destruct (strip_split s) as (a & b & E & _). rewrite E at 2.
  rewrite !length_app. lia.
Qed.

Lemma dewrap_length (s : str) : forall out,
  sub_empty newline_re s = Some out -> length out <= length s.
Proof.
  induction s as [s IH] using str_length_ind. intros out H.
  rewrite dewrap_eq in H. destruct s as [|c s']; [now injection H as <-|].
  destruct (eat_nl (c :: s')) as [s1|] eqn:E.
  - pose proof (eat_nl_length _ _ E) as L.
    pose proof (drop_while_length is_space s1) as L'.
    pose proof (IH (drop_while is_space s1) ltac:(lia) out H). lia.
  - destruct (sub_empty newline_re s') as [out'|] eqn:F; [|discriminate].
    injection H as <-. pose proof (IH s' ltac:(simpl; lia) out' F). simpl. lia.
Qed.

Lemma record_of_size (g : groups) (r : qa) :
  record_of g = Some r ->
  length (question r) <= length (get_group 2 g) /\
  length (answer r) <= length (get_group 3 g).
Proof.
  intros R. apply record_of_fields in R. destruct R as (_ & Eq & Ea). split.
  - rewrite Eq. apply strip_length.
  - pose proof (dewrap_length _ _ Ea). pose proof (strip_length (get_group 3 g)). lia.
Qed.

Lemma collected_size (s : str) (ms : list groups) :
  findall pattern s = Some ms ->
  forall cs, records_of ms = Some cs ->
  text_size cs + 7 * length cs <= length s.
Proof.
  revert s ms.
  apply (findall_scan_ind (fun s ms => forall cs, records_of ms = Some cs ->
                             text_size cs + 7 * length cs <= length s)).
  - intros cs E. injection E as <-. simpl. lia.
  - intros c s ms _ _ IH cs E. specialize (IH cs E). simpl. lia.
  - intros s rest g ms M _ IH cs E.
    simpl in E. destruct (record_of g) as [r|] eqn:R; [|discriminate].
    destruct (records_of ms) as [cs'|] eqn:R'; [|discriminate].
    injection E as <-. specialize (IH cs' eq_refl).
    apply record_of_size in R. destruct R as [Rq Ra].
    apply match_here_groups in M. destruct M as (g1 & g2 & g3 & M & E1 & E2 & E3).
    apply match_direct_shape in M.
    destruct M as (c1 & w1 & nl & w2 & da & c2 & w3 & -> & [Hg1 _] & _ & _ & _ & Hnl & _
                   & [Hda _] & _).
    assert (1 <= length g1) by (destruct g1; [congruence | simpl; lia]).
    assert (1 <= length da) by (destruct da; [congruence | simpl; lia]).
    assert (1 <= length nl) by (destruct Hnl as [-> | ->]; simpl; lia).
    rewrite E2 in Rq. rewrite E3 in Ra.
    cbn [text_size length]. repeat (rewrite ?length_app; cbn [length]). lia.
Qed.

Lemma insert_by_id_size (x : qa) (l : list qa) :
  text_size (insert_by_id x l) = text_size (x :: l) /\
  length (insert_by_id x l) = length (x :: l).
Proof.
  induction l as [|y l [IH1 IH2]]; [split; reflexivity|].
  simpl. destruct (qa_id x <=? qa_id y)%N; [split; reflexivity|].
  simpl in *. rewrite IH1, IH2. split; lia.
Qed.

Lemma sort_by_id_size (l : list qa) :
  text_size (sort_by_id l) = text_size l /\ length (sort_by_id l) = length l.
Proof.
  induction l as [|x l [IH1 IH2]]; [split; reflexivity|].
  unfold sort_by_id in *. simpl.
  destruct (insert_by_id_size x (fold_right insert_by_id [] l)) as [-> ->].
  simpl. rewrite IH1, IH2. split; reflexivity.
Qed.

(** * The host: lemmas *)

(** The question marker of the match has too many digits. *)
Local Abbreviation too_long limit := (fun g : groups => Host.over_limit limit (get_group 1 g)).

Lemma host_record_of (limit : nat) (m : groups) :
  Host.record_of limit m =
  if Host.over_limit limit (get_group 1 m) then None else record_of m.
Proof.
  unfold Host.record_of, Host.py_int, record_of.
  now destruct (Host.over_limit limit (get_group 1 m)).
Qed.

Lemma host_records_of (limit : nat) (ms : list groups) :
  Host.records_of limit ms =
  if existsb (too_long limit) ms then None else records_of ms.
Proof.
  induction ms as [|m ms IH]; [reflexivity|].
  cbn [Host.records_of records_of existsb]. rewrite host_record_of, IH.
  destruct (Host.over_limit limit (get_group 1 m)); [reflexivity|]. simpl.
  destruct (record_of m); [|now destruct (existsb _ ms)]. simpl.
  now destruct (existsb _ ms).
Qed.

Lemma host_qa_list (limit : nat) (content : str) :
  Host.qa_list limit content =
  match findall pattern content with
  | Some ms => if existsb (too_long limit) ms then None else qa_list content
  | None => None
  end.
Proof.
  unfold Host.qa_list, Host.collected, qa_list, collected.
  destruct (findall pattern content) as [ms|] eqn:F; [|reflexivity]. simpl.
  rewrite host_records_of. now destruct (existsb _ ms).
Qed.

(** Whenever the extraction returns under a limit, it returns the list of
    the model without a limit. *)
Lemma host_qa_list_Some (limit : nat) (content : str) (rs : list qa) :
  Host.qa_list limit content = Some rs -> qa_list content = Some rs.
Proof.
  rewrite host_qa_list. destruct (findall pattern content) as [ms|]; [|discriminate].
  now destruct (existsb _ ms).
Qed.

Lemma host_qa_list_0 (content : str) : Host.qa_list 0 content = qa_list content.
Proof.
  rewrite host_qa_list. destruct (findall_total pattern content) as [ms ->].
  replace (existsb (too_long 0) ms) with false; [reflexivity|].
  symmetry. induction ms as [|m ms IH]; [reflexivity|]. exact IH.
Qed.

Lemma existsb_Exists (limit : nat) (ms : list groups) :
  existsb (too_long limit) ms = true <-> Exists (fun g => too_long limit g = true) ms.
Proof.
  rewrite existsb_exists, Exists_exists. reflexivity.
Qed.

Lemma existsb_Forall (limit : nat) (ms : list groups) :
  existsb (too_long limit) ms = false <-> Forall (fun g => too_long limit g = false) ms.
Proof.
  induction ms as [|m ms IH]; simpl.
  - split; [constructor | reflexivity].
  - rewrite orb_false_iff, IH. split.
    + intros [H1 H2]. now constructor.
    + intros H. inversion H; subst. now split.
Qed.

(** ** A host with no limit and a console that takes every line

    There the functions of [Host] are those of the first model. *)

Lemma preview_all_ideal (w : world) (rs : list qa) :
  Host.preview_all (Host.ideal w) rs = (flat_map preview rs, Host.Done tt).
Proof.
  induction rs as [|r rs IH]; [reflexivity|].
  cbn [Host.preview_all flat_map]. rewrite IH. reflexivity.
Qed.

Lemma convert_ideal (w : world) (input_file output_file : str) :
  Host.convert_txt_to_json (Host.ideal w) input_file output_file =
  Host.of_outcome (convert_txt_to_json w input_file output_file).
Proof.
  unfold Host.convert_txt_to_json, convert_txt_to_json. cbn [Host.files Host.ideal].
  destruct (read_file w input_file) as [content|e].
  - cbn [Host.int_max_str_digits]. rewrite host_qa_list_0.
    destruct (qa_list content) as [l|]; [|reflexivity].
    unfold Host.write_json. cbn [Host.files Host.ideal].
    destruct (write_fails w output_file); reflexivity.
  - destruct e; reflexivity.
Qed.

Lemma main_ideal (w : world) (argv : list str) (default_input default_output : str) :
  Host.main (Host.ideal w) argv default_input default_output =
  Host.of_ending (main w argv default_input default_output).
Proof.
  unfold Host.main, main.
  destruct (choose_paths argv default_input default_output) as [i o].
  rewrite convert_ideal.
  destruct (convert_txt_to_json w i o) as [ev [l|code|e]]; cbn.
  - rewrite preview_all_ideal. reflexivity.
  - reflexivity.
  - reflexivity.
Qed.


(** ** White text after the last entry *)

Lemma all_app_inv (p : char -> bool) (a b : str) :
  all p (a ++ b) -> all p a /\ all p b.
Proof. unfold all. apply Forall_app. Qed.

Lemma white_no_Q (w : str) : all is_space w -> ~ In cQ w.
Proof.
  intros H Hin. unfold all in H. rewrite Forall_forall in H.
  specialize (H cQ Hin). discriminate H.
Qed.

Lemma findall_white (w : str) : all is_space w -> findall pattern w = Some [].
Proof.
  intros H. rewrite <- (app_nil_r w).
  rewrite (findall_skip_prefix w [] (white_no_Q w H)). reflexivity.
Qed.

Lemma lstrip_white (w s : str) : all is_space w -> lstrip (w ++ s) = lstrip s.
Proof.
  induction 1 as [|c w Hc _ IH]; [reflexivity|]. simpl. now rewrite Hc.
Qed.

Lemma lstrip_app (a t : str) : lstrip a <> [] -> lstrip (a ++ t) = lstrip a ++ t.
Proof.
  induction a as [|c a IH]; simpl; [congruence|].
  destruct (is_space c); [exact IH | reflexivity].
Qed.

Lemma lstrip_all_white (w : str) : all is_space w -> lstrip w = [].
Proof.
  intros H. rewrite <- (app_nil_r w). now rewrite lstrip_white.
Qed.

(** White characters at the end do not change what [strip] gives. *)
Lemma strip_white_end (a t : str) : all is_space t -> strip (a ++ t) = strip a.
Proof.
  intros Ht. unfold strip.
  destruct (lstrip a) as [|c a'] eqn:E.
  - assert (Ha : all is_space a).
    { destruct (lstrip_split a) as (w & Ew & Hw). rewrite E, app_nil_r in Ew. now subst. }
    rewrite lstrip_all_white; [reflexivity|]. apply Forall_app. now split.
  - rewrite lstrip_app by (rewrite E; discriminate). rewrite E.
    unfold rstrip. rewrite rev_app_distr.
    now rewrite lstrip_white by (apply all_rev; assumption).
Qed.

(** The last entry, with white text after it: group 3 runs on into
    that text, up to the first place where the lookahead holds. *)
Lemma match_entry_last (nl : str) (e : entry) (trailing : str) :
  is_nl nl -> well_formed e = true -> all is_space trailing ->
  exists t1 t2,
    trailing = t1 ++ t2 /\
    match_direct (render nl e ++ trailing) =
      Some (e_qdigits e, e_question e, e_answer e ++ t1, t2).
Proof.
  intros Hnl W Ht.
  unfold well_formed in W.
  repeat (apply andb_true_iff in W; destruct W as [W ?]).
  destruct e as [qd qs qp q ad asp ap a]; simpl in *.
  apply digits_ok_spec in W. destruct W as [Hqd1 Hqd2].
  match goal with H : digits_ok ad = true |- _ =>
    apply digits_ok_spec in H; destruct H as [Had1 Had2] end.
  repeat match goal with H : pad_ok _ = true |- _ => apply pad_ok_spec in H end.
  match goal with H : text_ok _ = true |- _ =>
    apply text_ok_spec in H; destruct H as (? & ? & ?) end.
  match goal with H : answer_ok _ = true |- _ =>
    apply answer_ok_spec in H; destruct H as (Hane & Hstop & Hmin) end.
  destruct (body_at_some (a ++ trailing)) as [[g3 rest] Hb].
  { destruct a; [congruence | discriminate]. }
  pose proof (body_at_shape _ _ _ Hb) as (Es & Hg3 & Hbd & _).
  assert (Hsplit : exists t1, g3 = a ++ t1 /\ trailing = t1 ++ rest).
  { apply app_eq_app in Es. destruct Es as [l [[E1 E2] | [E1 E2]]].
    - destruct l as [|x l].
      + exists []. rewrite app_nil_r in E1. simpl in E2. subst.
        split; [now rewrite app_nil_r | reflexivity].
      + exfalso. rewrite E2 in Hbd.
        rewrite (Hmin g3 (x :: l) trailing E1 ltac:(discriminate)) in Hbd.
        discriminate.
    - exists l. now split. }
  destruct Hsplit as (t1 & -> & Et). exists t1, rest. split; [assumption|].
  unfold render; simpl. unfold match_direct.
  repeat (rewrite <- app_assoc; simpl).
  rewrite digits_sep_complete by assumption.
  assert (HA : answer_after (nl ++ cA :: ad ++ asp :: ap ++ a ++ trailing) =
               Some (a ++ t1, rest)).
  { unfold answer_after, bind.
    pose proof (marker_at_complete nl [] ad (ap ++ a ++ trailing) asp Hnl
                  (Forall_nil _) Had1 Had2 ltac:(assumption)) as M.
    simpl in M. rewrite M. rewrite Es.
    apply answer_at_complete; [assumption | | now rewrite <- Es].
    rewrite <- app_assoc. apply Hstop. }
  rewrite (question_at_complete qp q _ (a ++ t1, rest)); auto.
  apply question_body_at_complete; auto.
  intros p p' -> Hp Hp'. apply one_line_answer_after; [assumption|].
  match goal with H : one_line (p ++ p') = true |- _ =>
    rewrite one_line_app in H; apply andb_true_iff in H; apply H end.
Qed.

Lemma findall_document_trailing (nl : str) (es : list entry) (trailing : str) :
  is_nl nl -> forallb well_formed es = true -> all is_space trailing ->
  exists ms,
    findall pattern (document nl es ++ trailing) = Some ms /\
    Forall2 entry_matched es ms.
Proof.
  intros Hnl W Ht. induction es as [|e es IH].
  - exists []. split; [apply (findall_white trailing Ht) | constructor].
  - simpl in W. apply andb_true_iff in W. destruct W as [We Wes].
    specialize (IH Wes). destruct es as [|e' es'].
    + destruct (match_entry_last nl e trailing Hnl We Ht) as (t1 & t2 & Et & M).
      assert (Ht12 : all is_space t1 /\ all is_space t2).
      { apply all_app_inv. now rewrite <- Et. }
      exists [[(3, e_answer e ++ t1); (2, e_question e); (1, e_qdigits e)]]. split.
      * cbn [document].
        rewrite (findall_match _ t2 [(3, e_answer e ++ t1); (2, e_question e); (1, e_qdigits e)]).
        -- now rewrite (findall_white t2 (proj2 Ht12)).
        -- rewrite match_here_pattern, M. reflexivity.
      * constructor; [|constructor]. repeat split. exists t1. now split.
    + destruct IH as (ms & F & F2).
      exists (entry_groups e :: ms). split.
      * change (document nl (e :: e' :: es'))
          with (render nl e ++ nl ++ nl ++ document nl (e' :: es')).
        repeat rewrite <- app_assoc.
        rewrite (findall_match _ (nl ++ nl ++ document nl (e' :: es') ++ trailing)
                   (entry_groups e)).
        -- rewrite !findall_skip_nl by assumption. now rewrite F.
        -- rewrite match_here_pattern, (match_entry nl e); auto.
           right. simpl in Wes. apply andb_true_iff in Wes.
           destruct (document_head nl e' es') as [t ->].
           exists e', (t ++ trailing). split; [apply Wes|].
           now repeat rewrite <- app_assoc.
      * constructor; [|assumption]. repeat split. exists []. split; [|constructor].
        now rewrite app_nil_r.
Qed.

Lemma record_of_matched (limit : nat) (e : entry) (g : groups) :
  well_formed e = true -> Host.over_limit limit (e_qdigits e) = false ->
  entry_matched e g ->
  exists r, Host.record_of limit g = Some r /\
            py_int (e_qdigits e) = Some (qa_id r) /\
            question r = strip (e_question e) /\
            sub_empty newline_re (strip (e_answer e)) = Some (answer r).
Proof.
  intros W L (E1 & E2 & t & E3 & Ht).
  destruct (record_of_entry e W) as (r & _ & Hid & Hq & Ha).
  exists r. rewrite host_record_of, E1, L.
  unfold record_of, bind. rewrite E1, E2, E3, Hid, (strip_white_end _ _ Ht), Ha.
  destruct r as [i q a]. simpl in *. subst q. auto.
Qed.

Lemma records_of_matched (limit : nat) (es : list entry) : forall ms,
  forallb well_formed es = true ->
  Forall (fun e => Host.over_limit limit (e_qdigits e) = false) es ->
  Forall2 entry_matched es ms ->
  exists cs,
    Host.records_of limit ms = Some cs /\
    Forall2 (fun e r => py_int (e_qdigits e) = Some (qa_id r) /\
                        question r = strip (e_question e) /\
                        sub_empty newline_re (strip (e_answer e)) = Some (answer r))
            es cs.
Proof.
  induction es as [|e es IH]; intros ms W L F2.
  - inversion F2; subst. exists []. split; [reflexivity | constructor].
  - inversion F2 as [|e0 g es0 ms0 Hm F2']; subst.
    simpl in W. apply andb_true_iff in W. destruct W as [We Wes].
    inversion L as [|e0 es0 Le Les]; subst.
    destruct (IH ms0 Wes Les F2') as (cs & R & F).
    destruct (record_of_matched limit e g We Le Hm) as (r & Hr & Hf).
    exists (r :: cs). split; [|now constructor].
    cbn [Host.records_of]. rewrite Hr, R. reflexivity.
Qed.

Lemma preview_all_prints (h : Host.host) (rs : list qa) :
  (forall line, Host.print_fails h line = None) ->
  Host.preview_all h rs = (flat_map preview rs, Host.Done tt).
Proof.
  intros P. induction rs as [|r rs IH]; [reflexivity|].
  cbn [Host.preview_all flat_map]. unfold Host.print. rewrite !P, IH. reflexivity.
Qed.

(** * The claims *)

(** C1: on the example document the extraction gives the record of Q1,
    then the record of Q2, whose two answer lines are joined with
    nothing between them. *)
Theorem example_doc_records :
  qa_list example_doc =
  Some [mk_qa 1 (txt "What is Y?") (txt "Y is simple.");
        mk_qa 2 (txt "What is X?") (txt "X isa thing.")].
Proof. vm_compute. reflexivity. Qed.

(** C7, as the specification has it, fails: [int] raises [ValueError] on
    a question marker of more digits than the interpreter allows, 4300
    unless the host sets another limit.  On a text with an entry of 4301
    digits the loop raises, and the call ends with that exception
    before anything is written or printed. *)
Lemma long_id_raises_value_error :
  ~ returns_records Host.default_max_str_digits long_id_doc /\
  Host.qa_list Host.default_max_str_digits long_id_doc = None /\
  Host.convert_txt_to_json (Host.usual long_id_world) (txt "qa.txt") (txt "faq.json") =
    ([], Host.Raises ValueError).
Proof.
  assert (H : Host.qa_list Host.default_max_str_digits long_id_doc = None)
    by (vm_compute; reflexivity).
  split; [|split].
  - intros [rs Hrs]. rewrite H in Hrs. discriminate Hrs.
  - exact H.
  - vm_compute. reflexivity.
Qed.

(** C7, amended: on every text the scan ends and gives the matches, and
    the loop raises at most one error, the [ValueError] of [int],
    exactly when the question marker of some match has more digits than
    the limit of the host.  Otherwise the extraction returns a list with
    one record for each match, none when nothing matches; it is the list
    of the model without a limit.  With no limit (0) it never raises. *)
Theorem extraction_raises_only_over_digit_limit (limit : nat) (content : str) :
  exists ms,
    findall pattern content = Some ms /\
    ((Forall (fun g => Host.over_limit limit (get_group 1 g) = false) ms /\
      exists rs,
        Host.qa_list limit content = Some rs /\
        qa_list content = Some rs /\
        length rs = length ms) \/
     (Exists (fun g => Host.over_limit limit (get_group 1 g) = true) ms /\
      Host.qa_list limit content = None)) /\
    (limit = 0 -> exists rs, Host.qa_list limit content = Some rs).
Proof.
  destruct (findall_total pattern content) as [ms F].
  destruct (qa_list_total content) as [rs Q].
  exists ms. split; [assumption|].
  pose proof (host_qa_list limit content) as H. rewrite F in H.
  split.
  - destruct (existsb (fun g => Host.over_limit limit (get_group 1 g)) ms) eqn:E.
    + right. split; [now apply existsb_Exists | assumption].
    + left. split; [now apply existsb_Forall|].
      exists rs. rewrite H. repeat split; try assumption.
      unfold qa_list, collected in Q. rewrite F in Q. simpl in Q.
      destruct (records_of ms) as [cs|] eqn:R; [|discriminate].
      injection Q as <-.
      rewrite <- (Permutation_length (sort_by_id_perm cs)).
      apply (records_of_length ms cs R).
  - intros ->. exists rs. now rewrite host_qa_list_0.
Qed.

(** C3: the records come out in ascending order of [id], those of equal
    [id] in the order in which they were found in the text; so a text
    with Q5 before Q1 gives the record 1 before the record 5. *)
Theorem records_sorted_stably (content : str) :
  exists cs rs,
    collected content = Some cs /\
    qa_list content = Some rs /\
    StronglySorted id_le rs /\
    (forall k, filter (has_id k) rs = filter (has_id k) cs) /\
    option_map (map qa_id) (collected q5_q1_doc) = Some [5; 1]%N /\
    option_map (map qa_id) (qa_list q5_q1_doc) = Some [1; 5]%N.
Proof.
  destruct (collected_total content) as [cs H].
  exists cs, (sort_by_id cs). split; [assumption|].
  split; [unfold qa_list; now rewrite H|].
  split.
  - apply Sorted_StronglySorted; [|apply sort_by_id_sorted].
    intros a b c. unfold id_le. lia.
  - split; [intros k; apply sort_by_id_stable|].
    split; vm_compute; reflexivity.
Qed.

(** C5: no record has a white character at the start or at the end of
    its question or of its answer. *)
Theorem fields_are_trimmed (content : str) :
  exists rs,
    qa_list content = Some rs /\
    Forall (fun r => trimmed (question r) /\ trimmed (answer r)) rs.
Proof.
  destruct (qa_list_total content) as [rs H]. exists rs. split; [assumption|].
  apply Forall_forall. intros r Hin.
  destruct (qa_list_In_matched content rs r H Hin) as (g & _ & R).
  apply record_of_fields in R. destruct R as (_ & Eq & Ea). split.
  - rewrite Eq. apply strip_trimmed.
  - apply (dewrap_trimmed (strip (get_group 3 g))); [apply strip_trimmed | assumption].
Qed.

(** C4: when every carriage return of the text belongs to a CRLF line
    break, no answer holds a line feed or a carriage return.  The answer
    is the trimmed body of group 3 in which each line break goes away
    together with the white characters after it, what stands before and
    after being joined with nothing between. *)
Theorem answers_have_no_line_breaks (content : str) :
  crlf_lines content = true ->
  exists rs,
    qa_list content = Some rs /\
    Forall (fun r =>
      ~ In LF (answer r) /\ ~ In CR (answer r) /\
      exists g, matched_in content g /\
                sub_empty newline_re (strip (get_group 3 g)) = Some (answer r)) rs /\
    (forall u, ~ In LF u -> sub_empty newline_re u = Some u) /\
    (forall u nl ws v,
       ~ In LF u -> is_nl nl -> (nl = [LF] -> forall u0, u <> u0 ++ [CR]) ->
       all is_space ws -> stops is_space v ->
       sub_empty newline_re (u ++ nl ++ ws ++ v) =
       option_map (app u) (sub_empty newline_re v)).
Proof.
  intros Hc. destruct (qa_list_total content) as [rs H]. exists rs.
  split; [assumption|]. split; [|split; [exact dewrap_plain | exact dewrap_join]].
  apply Forall_forall. intros r Hin.
  destruct (qa_list_In_matched content rs r H Hin) as (g & M & R).
  apply record_of_fields in R. destruct R as (_ & _ & Ea).
  split; [now apply (dewrap_no_LF _ _ Ea)|]. split.
  - apply (dewrap_no_CR _ _ (crlf_lines_strip content _ Hc (proj2 (matched_in_texts _ _ M))) Ea).
  - now exists g.
Qed.

Lemma answers_have_no_line_breaks_witness :
  exists rs, qa_list two_line_doc = Some rs /\
             Forall (fun r => ~ In LF (answer r) /\ ~ In CR (answer r)) rs.
Proof.
  destruct (answers_have_no_line_breaks two_line_doc eq_refl) as (rs & H & F & _).
  exists rs. split; [exact H|].
  eapply Forall_impl; [|exact F]. intros r (H1 & H2 & _). now split.
Defined.

(** C10: the question of a record is the text of group 2 less the white
    characters at its two ends, and stands in the source as it is, line
    breaks included; only the answer has its line breaks deleted. *)
Theorem question_keeps_line_breaks (content : str) :
  exists rs,
    qa_list content = Some rs /\
    Forall (fun r =>
      exists g w1 w2,
        matched_in content g /\
        get_group 2 g = w1 ++ question r ++ w2 /\
        all is_space w1 /\ all is_space w2 /\
        sub_text (question r) content) rs /\
    qa_list two_line_doc =
      Some [mk_qa 1 (txt "first line" ++ [LF] ++ txt "second line") (txt "onetwo")].
Proof.
  destruct (qa_list_total content) as [rs H]. exists rs.
  split; [assumption|]. split; [|vm_compute; reflexivity].
  apply Forall_forall. intros r Hin.
  destruct (qa_list_In_matched content rs r H Hin) as (g & M & R).
  apply record_of_fields in R. destruct R as (_ & Eq & _).
  destruct (strip_split (get_group 2 g)) as (w1 & w2 & E & H1 & H2).
  exists g, w1, w2. rewrite Eq. repeat split; try assumption.
  destruct (proj1 (matched_in_texts _ _ M)) as (pre & post & ->).
  exists (pre ++ w1), (w2 ++ post). rewrite E at 1.
  now rewrite <- !app_assoc.
Qed.

(** C6, as the specification has it, fails: after [A1:] the text goes on
    with a blank line and the marker [Q2:], so the lookahead holds right
    after the separator; yet the match runs to the end of the text and
    the answer of record 1 is made of the whole second entry. *)
Lemma empty_answer_swallows_next_entry :
  ~ body_to_first_boundary empty_answer_doc /\
  qa_list empty_answer_doc = Some [mk_qa 1 (txt "a") (txt "Q2:bA2:c")].
Proof.
  split; [|vm_compute; reflexivity].
  intros H.
  specialize (H [] [(3, txt "Q2:b" ++ [LF] ++ txt "A2:c"); (2, txt "a"); (1, txt "1")]
                (txt "Q1:a" ++ [LF] ++ txt "A1:")
                ([LF; LF] ++ txt "Q2:b" ++ [LF] ++ txt "A2:c")
                [] ([LF; LF] ++ txt "Q2:b" ++ [LF] ++ txt "A2:c")).
  destruct H as [_ H].
  - vm_compute. reflexivity.
  - reflexivity.
  - exists colon, [], [LF], (txt "1"), colon.
    repeat split; try reflexivity; try discriminate; repeat constructor.
  - split; [reflexivity|]. split; [vm_compute; reflexivity|].
    intros x1 x2 E Hne. symmetry in E. apply app_eq_nil in E. now destruct E.
  - discriminate H.
Qed.

(** C6, amended: the answer body starts after the answer separator and
    the white characters that follow it (when nothing but white
    characters is left, it is the last of them); it holds at least one
    character, and it ends at the first place after its first character
    where the lookahead holds: a blank line and a question marker, two
    blank lines, or the end of the text.  What stands at that place or
    after it is not part of the body. *)
Theorem answer_body_extent (s rest : str) (g : groups) :
  match_here pattern s = Some (rest, g) ->
  exists head w3,
    s = head ++ w3 ++ get_group 3 g ++ rest /\
    answer_head g head /\ all is_space w3 /\
    (stops is_space (get_group 3 g ++ rest) \/
     (rest = [] /\ exists c, get_group 3 g = [c])) /\
    get_group 3 g <> [] /\
    boundary rest = true /\
    (forall p p', get_group 3 g = p ++ p' -> p <> [] -> p' <> [] ->
       boundary (p' ++ rest) = false).
Proof.
  intros M. apply match_here_groups in M.
  destruct M as (g1 & g2 & g3 & M & <- & <- & <-).
  apply match_direct_shape in M.
  destruct M as (c1 & w1 & nl & w2 & da & c2 & w3 & -> & [Hg1 Hd1] & Hc1 & Hw1 &
                 Hg2 & Hnl & Hw2 & [Hda Hdd] & Hc2 & Hw3 & Hb & Hst).
  apply body_at_shape in Hb. destruct Hb as (_ & Hne & Hbd & Hmin).
  exists (cQ :: get_group 1 g ++ c1 :: w1 ++ get_group 2 g ++ (nl ++ w2) ++ cA :: da ++ [c2]), w3.
  split; [|split; [|auto]].
  - repeat (rewrite <- ?app_assoc, <- ?app_comm_cons). reflexivity.
  - exists c1, w1, (nl ++ w2), da, c2. repeat split; try assumption.
    apply Forall_app. split; [now apply is_nl_space | assumption].
Qed.

Lemma answer_body_extent_witness :
  exists head w3,
    example_doc =
      head ++ w3 ++ (txt "X is" ++ [LF] ++ txt "a thing.") ++
      ([LF; LF] ++ txt "Q1" ++ [fwcolon] ++ txt "What is Y?" ++ [LF] ++
       txt "A1" ++ [fwcolon] ++ txt "Y is simple.") /\
    all is_space w3.
Proof.
  destruct (answer_body_extent example_doc
              ([LF; LF] ++ txt "Q1" ++ [fwcolon] ++ txt "What is Y?" ++ [LF] ++
               txt "A1" ++ [fwcolon] ++ txt "Y is simple.")
              [(3, txt "X is" ++ [LF] ++ txt "a thing."); (2, txt "What is X?");
               (1, txt "2")])
    as (head & w3 & E & _ & Hw & _).
  - vm_compute. reflexivity.
  - exists head, w3. split; [exact E | exact Hw].
Defined.

(** C2, as the specification has it, fails: an entry in the form of the
    claim gives no record when its question is empty, and two such
    entries give one record when the answer of the first is a space,
    the first entry taking the second as its answer. *)
Lemma claimed_entries_not_all_extracted :
  forallb as_claimed empty_question_entries = true /\
  ~ all_extracted Host.default_max_str_digits [LF] empty_question_entries /\
  Host.qa_list Host.default_max_str_digits (document [LF] empty_question_entries) =
    Some [] /\
  forallb as_claimed white_answer_entries = true /\
  ~ all_extracted Host.default_max_str_digits [LF] white_answer_entries /\
  Host.qa_list Host.default_max_str_digits (document [LF] white_answer_entries) =
    Some [mk_qa 1 (txt "a") (txt "Q2:bA2:c")].
Proof.
  assert (H1 : Host.qa_list Host.default_max_str_digits
                 (document [LF] empty_question_entries) = Some [])
    by (vm_compute; reflexivity).
  assert (H2 : Host.qa_list Host.default_max_str_digits
                 (document [LF] white_answer_entries) =
               Some [mk_qa 1 (txt "a") (txt "Q2:bA2:c")])
    by (vm_compute; reflexivity).
  repeat split; try assumption; try (vm_compute; reflexivity).
  - intros (rs & Hrs & L). rewrite H1 in Hrs. injection Hrs as <-. discriminate L.
  - intros (rs & Hrs & L). rewrite H2 in Hrs. injection Hrs as <-. discriminate L.
Qed.

(** C2, amended: a document of N entries, one blank line between two of
    them and white characters at most after the last, gives N records,
    one for each entry and in their order before the sort, when every
    entry is well-formed: digits, a colon, blank padding and a question
    that is not empty, starts with a visible character and holds no
    line break; a line break; then digits, a colon, blank padding and
    an answer that is not empty, starts with a visible character, has
    no blank line inside and does not end with a line break; and when
    no question marker has more digits than the limit of the host. *)
Theorem well_formed_entries_all_extracted
  (limit : nat) (nl : str) (es : list entry) (trailing : str) :
  is_nl nl -> forallb well_formed es = true -> all is_space trailing ->
  Forall (fun e => Host.over_limit limit (e_qdigits e) = false) es ->
  exists cs rs,
    Host.collected limit (document nl es ++ trailing) = Some cs /\
    Forall2 (fun e r => py_int (e_qdigits e) = Some (qa_id r) /\
                        question r = strip (e_question e) /\
                        sub_empty newline_re (strip (e_answer e)) = Some (answer r))
            es cs /\
    Host.qa_list limit (document nl es ++ trailing) = Some rs /\
    Permutation cs rs /\
    length rs = length es.
Proof.
  intros Hnl W Ht L.
  destruct (findall_document_trailing nl es trailing Hnl W Ht) as (ms & F & F2).
  destruct (records_of_matched limit es ms W L F2) as (cs & R & Fr).
  exists cs, (sort_by_id cs).
  assert (C : Host.collected limit (document nl es ++ trailing) = Some cs).
  { unfold Host.collected, bind. now rewrite F. }
  repeat split; try assumption.
  - unfold Host.qa_list. now rewrite C.
  - apply sort_by_id_perm.
  - rewrite <- (Permutation_length (sort_by_id_perm cs)).
    symmetry. apply (Forall2_length Fr).
Qed.

Lemma well_formed_entries_all_extracted_witness :
  exists rs,
    Host.qa_list Host.default_max_str_digits
      (document [CR; LF] sample_entries ++ [CR; LF; CR; LF]) = Some rs /\
    length rs = 2.
Proof.
  destruct (well_formed_entries_all_extracted Host.default_max_str_digits
              [CR; LF] sample_entries [CR; LF; CR; LF])
    as (cs & rs & _ & _ & H & _ & L).
  - right. reflexivity.
  - vm_compute. reflexivity.
  - repeat constructor.
  - repeat constructor.
  - exists rs. split; [exact H | exact L].
Defined.




(** C8, as the specification has it, fails: an [A<digits><colon>] after
    a line break is not always the answer marker of a match.  In
    [empty_answer_doc] the match of Q1 runs to the end of the text, the
    line [A2:c] is part of its answer body, and other digits there give
    another answer. *)
Lemma answer_digits_in_body_are_kept :
  ~ answer_digits_never_matter Host.default_max_str_digits /\
  answer_digits_changed empty_answer_doc empty_answer_doc_A7 /\
  Host.qa_list Host.default_max_str_digits empty_answer_doc =
    Some [mk_qa 1 (txt "a") (txt "Q2:bA2:c")] /\
  Host.qa_list Host.default_max_str_digits empty_answer_doc_A7 =
    Some [mk_qa 1 (txt "a") (txt "Q2:bA7:c")].
Proof.
  assert (V : answer_digits_changed empty_answer_doc empty_answer_doc_A7).
  { exists (txt "Q1:a" ++ [LF] ++ txt "A1:" ++ [LF; LF] ++ txt "Q2:b"),
           [LF], [], (txt "2"), (txt "7"), colon, (txt "c").
    repeat split; try discriminate; try (repeat constructor). }
  assert (H1 : Host.qa_list Host.default_max_str_digits empty_answer_doc =
               Some [mk_qa 1 (txt "a") (txt "Q2:bA2:c")]) by (vm_compute; reflexivity).
  assert (H2 : Host.qa_list Host.default_max_str_digits empty_answer_doc_A7 =
               Some [mk_qa 1 (txt "a") (txt "Q2:bA7:c")]) by (vm_compute; reflexivity).
  repeat split; try assumption.
  intros N. specialize (N _ _ V). rewrite H1, H2 in N. discriminate N.
Qed.

(** C8, amended: the digits of an answer marker that a match consumes
    as its answer marker play no part.  A text and the same text with
    other digits in such markers give the same records, on every host;
    and each record is made from a match of the text, its [id] being the
    number read from the digits that follow the [Q] at the start of
    that match. *)
Theorem answer_marker_digits_ignored (t t' : str) :
  answer_digits_variant t t' ->
  (forall limit, Host.qa_list limit t = Host.qa_list limit t') /\
  qa_list t = qa_list t' /\
  forall limit rs,
    Host.qa_list limit t = Some rs ->
    Forall (fun r =>
      exists pre s rest g c1 post,
        t = pre ++ s /\ match_here pattern s = Some (rest, g) /\
        Host.record_of limit g = Some r /\
        s = cQ :: get_group 1 g ++ c1 :: post /\ is_sep c1 = true /\
        Host.py_int limit (get_group 1 g) = Some (qa_id r)) rs.
Proof.
  intros H. split; [|split].
  - intros limit. unfold Host.qa_list, Host.collected.
    now rewrite (findall_variant t t' H).
  - unfold qa_list, collected. now rewrite (findall_variant t t' H).
  - intros limit rs Hrs. apply Forall_forall. intros r Hin.
    unfold Host.qa_list, Host.collected in Hrs.
    destruct (findall pattern t) as [ms|] eqn:F; [|discriminate]. simpl in Hrs.
    rewrite host_records_of in Hrs.
    destruct (existsb (fun g => Host.over_limit limit (get_group 1 g)) ms) eqn:E;
      [discriminate|].
    destruct (records_of ms) as [cs|] eqn:R; [|discriminate].
    injection Hrs as <-. rewrite sort_by_id_In in Hin.
    destruct (records_of_In ms cs r R Hin) as (g & Hg & Rg).
    destruct (findall_In pattern t ms g F Hg) as (pre & s & rest & Et & M).
    assert (Lg : Host.over_limit limit (get_group 1 g) = false).
    { apply existsb_Forall in E. rewrite Forall_forall in E. now apply E. }
    pose proof (record_of_fields g r Rg) as (Hid & _).
    destruct (match_here_groups _ _ _ M) as (g1 & g2 & g3 & Md & E1 & _).
    apply match_direct_shape in Md.
    destruct Md as (c1 & w1 & nl & w2 & da & c2 & w3 & Es & _ & Hc1 & _).
    exists pre, s, rest, g, c1,
      (w1 ++ g2 ++ nl ++ w2 ++ cA :: da ++ c2 :: w3 ++ g3 ++ rest).
    repeat split; try assumption.
    + now rewrite host_record_of, Lg.
    + now rewrite Es, E1.
    + unfold Host.py_int. now rewrite Lg.
Qed.

Lemma answer_marker_digits_ignored_witness :
  Host.qa_list Host.default_max_str_digits numbered_doc =
  Host.qa_list Host.default_max_str_digits renumbered_doc.
Proof.
  refine (proj1 (answer_marker_digits_ignored numbered_doc renumbered_doc _)
            Host.default_max_str_digits).
  (* the answer marker of Q1 *)
  refine (adv_marker (txt "Q2:b" ++ [LF] ++ txt "A2: y" ++ [LF; LF])
            (txt "Q1:a" ++ [LF]) (txt "1") (txt "950") colon []
            ([LF; LF] ++ txt "Q3:c" ++ [LF] ++ txt "A3:z")
            [(3, txt "x"); (2, txt "a"); (1, txt "1")] renumbered_doc
            _ _ _ _ _ _ _).
  - eapply reach_match; [vm_compute; reflexivity|].
    apply reach_skip; [vm_compute; reflexivity|].
    apply reach_skip; [vm_compute; reflexivity|].
    apply reach_here.
  - vm_compute. reflexivity.
  - split; [discriminate | repeat constructor].
  - split; [discriminate | repeat constructor].
  - reflexivity.
  - constructor.
  - (* the answer marker of Q3 *)
    refine (adv_marker
              (txt "Q2:b" ++ [LF] ++ txt "A2: y" ++ [LF; LF] ++
               txt "Q1:a" ++ [LF] ++ txt "A950:x" ++ [LF; LF])
              (txt "Q3:c" ++ [LF]) (txt "3") (txt "0") colon [] []
              [(3, txt "z"); (2, txt "c"); (1, txt "3")] renumbered_doc
              _ _ _ _ _ _ _).
    + eapply reach_match; [vm_compute; reflexivity|].
      apply reach_skip; [vm_compute; reflexivity|].
      apply reach_skip; [vm_compute; reflexivity|].
      eapply reach_match; [vm_compute; reflexivity|].
      apply reach_skip; [vm_compute; reflexivity|].
      apply reach_skip; [vm_compute; reflexivity|].
      apply reach_here.
    + vm_compute. reflexivity.
    + split; [discriminate | repeat constructor].
    + split; [discriminate | repeat constructor].
    + reflexivity.
    + constructor.
    + apply adv_same.
Defined.

(** * Further properties of the extraction and of the command line *)


(** X1: there are never more records than there are letters [Q] in the
    text, nor than letters [A], nor than line feeds: each match holds
    one of each that no other match holds.  A text without one of them
    gives no record. *)
Theorem records_bounded_by_markers (content : str) :
  exists rs,
    qa_list content = Some rs /\
    length rs <= occurrences cQ content /\
    length rs <= occurrences cA content /\
    length rs <= occurrences LF content.
Proof.
  unfold qa_list, collected.
  destruct (findall_total pattern content) as [ms F]. rewrite F. simpl.
  destruct (records_of_total ms) as [cs R].
  { intros m Hin. destruct (findall_In pattern content ms m F Hin) as (pre & s & rest & _ & M).
    apply (record_of_total s rest m M). }
  rewrite R. simpl. exists (sort_by_id cs). split; [reflexivity|].
  rewrite <- (Permutation_length (sort_by_id_perm cs)).
  rewrite (records_of_length ms cs R).
  apply (findall_markers content ms F).
Qed.

(** X2: what stands in the text before its first letter [Q] plays no
    part in the result. *)
Theorem text_before_first_Q_ignored (junk content : str) :
  ~ In cQ junk -> qa_list (junk ++ content) = qa_list content.
Proof.
  intros H. unfold qa_list, collected. now rewrite (findall_skip_prefix junk content H).
Qed.

Lemma text_before_first_Q_ignored_witness :
  ~ In cQ (txt "Notes" ++ [LF; LF]) /\
  qa_list ((txt "Notes" ++ [LF; LF]) ++ example_doc) = qa_list example_doc.
Proof.
  assert (H : ~ In cQ (txt "Notes" ++ [LF; LF])).
  { simpl. intros H. repeat (destruct H as [H|H]; [discriminate H|]). exact H. }
  split; [exact H|].
  apply (text_before_first_Q_ignored (txt "Notes" ++ [LF; LF]) example_doc H).
Defined.

(** X3: an attempt of the pattern succeeds exactly on a text that starts
    with a question marker, has at least one character after it, then,
    anywhere further on, a line break, white characters if any and an
    answer marker, and at least one character after that.  Nothing that
    stands in between stops it, neither a blank line nor another
    question marker: a question with no answer of its own takes the
    answer of the entry that follows. *)
Theorem attempt_succeeds_iff_answer_marker_ahead (s : str) :
  ((exists rest g, match_here pattern s = Some (rest, g)) <->
   (exists ds c x u nl ws da c2 y v,
      s = cQ :: ds ++ c :: x :: u ++ nl ++ ws ++ cA :: da ++ c2 :: y :: v /\
      (ds <> [] /\ all is_digit ds) /\ is_sep c = true /\
      is_nl nl /\ all is_space ws /\
      (da <> [] /\ all is_digit da) /\ is_sep c2 = true)) /\
  qa_list unanswered_doc =
    Some [mk_qa 1 (txt "a" ++ [LF; LF] ++ txt "Q2:b") (txt "c")].
Proof.
  split; [split|].
  - intros (rest & g & M). apply (match_here_reached s rest g M).
  - intros (ds & c & x & u & nl & ws & da & c2 & y & v & -> & [H1 H2] & H3 & H4 & H5 &
            [H6 H7] & H8).
    now apply match_here_reaches.
  - vm_compute. reflexivity.
Qed.

(** X4: the groups of the matches lie in the text one after the other,
    group 1, group 2 and group 3 of the first match, then those of the
    second, and so on: no character of the text belongs to two groups. *)
Theorem groups_lie_in_order (content : str) :
  exists ms,
    findall pattern content = Some ms /\
    in_order (flat_map pieces ms) content.
Proof.
  destruct (findall_total pattern content) as [ms F].
  exists ms. split; [assumption|]. now apply findall_in_order.
Qed.

(** X5: the extraction sees of a character only its classes: white or
    not, digit and which one, separator or not, [Q], [A], carriage
    return, line feed.  Characters replaced by others of the same
    classes give the same records, with the same replacement made in
    their texts.  Half-width and full-width colons are such a case, in
    both directions. *)
Theorem same_classes_same_records :
  (forall f content,
     class_preserving f ->
     qa_list (map f content) = option_map (map (map_texts f)) (qa_list content)) /\
  class_preserving to_fullwidth /\
  class_preserving to_halfwidth.
Proof.
  split; [|split].
  - intros f content Hf. now apply qa_list_mapf.
  - apply to_fullwidth_preserving.
  - apply to_halfwidth_preserving.
Qed.

(** X6: from group 2 to the question and from group 3 to the answer only
    white characters go away: the visible characters are the same, in
    the same order. *)
Theorem only_white_characters_removed (content : str) :
  exists rs,
    qa_list content = Some rs /\
    Forall (fun r =>
      exists g, matched_in content g /\
                visible (question r) = visible (get_group 2 g) /\
                visible (answer r) = visible (get_group 3 g)) rs.
Proof.
  destruct (qa_list_total content) as [rs H]. exists rs. split; [assumption|].
  apply Forall_forall. intros r Hin.
  destruct (qa_list_In_matched content rs r H Hin) as (g & Hg & R).
  exists g. split; [assumption|].
  apply record_of_fields in R. destruct R as (_ & Eq & Ea). split.
  - rewrite Eq. apply visible_strip.
  - rewrite (visible_dewrap _ _ Ea). apply visible_strip.
Qed.

(** X7: the texts of a record are clean for good: [strip] leaves the
    question and the answer as they are, and so does the deletion of
    line breaks on the answer. *)
Theorem fields_are_fixed_points (content : str) :
  exists rs,
    qa_list content = Some rs /\
    Forall (fun r =>
      strip (question r) = question r /\
      strip (answer r) = answer r /\
      sub_empty newline_re (answer r) = Some (answer r)) rs.
Proof.
  destruct (qa_list_total content) as [rs H]. exists rs. split; [assumption|].
  apply Forall_forall. intros r Hin.
  destruct (qa_list_In_matched content rs r H Hin) as (g & _ & R).
  apply record_of_fields in R. destruct R as (_ & Eq & Ea). repeat split.
  - rewrite Eq. apply strip_fixed, strip_trimmed.
  - apply strip_fixed.
    apply (dewrap_trimmed (strip (get_group 3 g))); [apply strip_trimmed | assumption].
  - apply dewrap_plain. apply (dewrap_no_LF _ _ Ea).
Qed.

(** X8: the sort changes the order of the records exactly when the
    entries do not come in ascending order of number in the text. *)
Theorem ascending_document_keeps_its_order (content : str) (cs : list qa) :
  collected content = Some cs ->
  (qa_list content = Some cs <-> Sorted id_le cs).
Proof.
  intros H. unfold qa_list. rewrite H. simpl. split.
  - intros E. injection E as E. rewrite <- E. apply sort_by_id_sorted.
  - intros S. now rewrite (sort_by_id_sorted_id cs S).
Qed.

Lemma ascending_document_keeps_its_order_witness :
  collected (document [LF] (rev sample_entries)) =
    Some [mk_qa 3 (txt "When?") (txt "Now.");
          mk_qa 7 (txt "Where?") (txt "Here,or there.")] /\
  (qa_list (document [LF] (rev sample_entries)) =
     Some [mk_qa 3 (txt "When?") (txt "Now.");
           mk_qa 7 (txt "Where?") (txt "Here,or there.")] <->
   Sorted id_le [mk_qa 3 (txt "When?") (txt "Now.");
                 mk_qa 7 (txt "Where?") (txt "Here,or there.")]).
Proof.
  assert (H : collected (document [LF] (rev sample_entries)) =
              Some [mk_qa 3 (txt "When?") (txt "Now.");
                    mk_qa 7 (txt "Where?") (txt "Here,or there.")])
    by (vm_compute; reflexivity).
  split; [exact H|].
  apply (ascending_document_keeps_its_order _ _ H).
Defined.

(** X9: the sort only moves records: the list returned holds the
    records of the loop, each as often as the loop found it; records of
    equal number are all kept. *)
Theorem sort_keeps_every_record (content : str) :
  exists cs rs,
    collected content = Some cs /\
    qa_list content = Some rs /\
    Permutation cs rs.
Proof.
  destruct (collected_total content) as [cs H].
  exists cs, (sort_by_id cs). unfold qa_list. rewrite H.
  repeat split. apply sort_by_id_perm.
Qed.

(** X10: a document of well-formed entries gives the same records
    whether its entries are set apart and their two lines are separated
    with LF or with CRLF line breaks. *)
Theorem line_break_style_is_immaterial (es : list entry) :
  forallb well_formed es = true ->
  qa_list (document [LF] es) = qa_list (document [CR; LF] es).
Proof.
  intros W. unfold qa_list, collected.
  rewrite (findall_document [LF] es (or_introl eq_refl) W).
  rewrite (findall_document [CR; LF] es (or_intror eq_refl) W).
  reflexivity.
Qed.

Lemma line_break_style_is_immaterial_witness :
  forallb well_formed sample_entries = true /\
  qa_list (document [LF] sample_entries) = qa_list (document [CR; LF] sample_entries).
Proof.
  assert (W : forallb well_formed sample_entries = true) by (vm_compute; reflexivity).
  split; [exact W|]. apply (line_break_style_is_immaterial sample_entries W).
Defined.

(** X11: once the source is read, the call ends in one of four ways.
    The loop raises [ValueError], before anything is written or
    printed, exactly when the question marker of some match has more
    digits than the limit of the host.  Otherwise the output is opened:
    if that fails, the exception leaves the call and nothing is
    printed.  Otherwise the sorted records are written, and the message
    with their number is printed: if the console refuses it, the
    exception leaves the call with the file written.  Otherwise the
    call returns the records. *)
Theorem readable_source_four_endings
  (h : Host.host) (input_file output_file content : str) :
  read_file (Host.files h) input_file = ReadText content ->
  exists ms,
    findall pattern content = Some ms /\
    ((Exists (fun g => Host.over_limit (Host.int_max_str_digits h) (get_group 1 g) = true) ms /\
      Host.convert_txt_to_json h input_file output_file = ([], Host.Raises ValueError)) \/
     (Forall (fun g => Host.over_limit (Host.int_max_str_digits h) (get_group 1 g) = false) ms /\
      exists l,
        Host.qa_list (Host.int_max_str_digits h) content = Some l /\
        qa_list content = Some l /\
        Host.convert_txt_to_json h input_file output_file =
          match write_fails (Host.files h) output_file with
          | Some e => ([], Host.Raises e)
          | None =>
              match Host.print_fails h (done_msg (length l) output_file) with
              | Some e => ([WriteJson output_file l], Host.Raises e)
              | None =>
                  ([WriteJson output_file l; Print (done_msg (length l) output_file)],
                   Host.Done l)
              end
          end)).
Proof.
  intros R. destruct (findall_total pattern content) as [ms F].
  destruct (qa_list_total content) as [l Q].
  exists ms. split; [assumption|].
  pose proof (host_qa_list (Host.int_max_str_digits h) content) as H. rewrite F in H.
  unfold Host.convert_txt_to_json. rewrite R.
  destruct (existsb (fun g => Host.over_limit (Host.int_max_str_digits h) (get_group 1 g)) ms)
    eqn:E.
  - left. split; [now apply existsb_Exists|]. now rewrite H.
  - right. split; [now apply existsb_Forall|].
    exists l. rewrite H, Q. repeat split.
    unfold Host.write_json, Host.print.
    destruct (write_fails (Host.files h) output_file); [reflexivity|].
    destruct (Host.print_fails h (done_msg (length l) output_file)); reflexivity.
Qed.

Lemma readable_source_four_endings_witness :
  read_file (Host.files plain_console_host) (txt "qa.txt") = ReadText example_doc /\
  exists ms,
    findall pattern example_doc = Some ms /\
    ((Exists (fun g => Host.over_limit Host.default_max_str_digits (get_group 1 g) = true) ms /\
      Host.convert_txt_to_json plain_console_host (txt "qa.txt") (txt "faq.json") =
        ([], Host.Raises ValueError)) \/
     (Forall (fun g => Host.over_limit Host.default_max_str_digits (get_group 1 g) = false) ms /\
      exists l,
        Host.qa_list Host.default_max_str_digits example_doc = Some l /\
        qa_list example_doc = Some l /\
        Host.convert_txt_to_json plain_console_host (txt "qa.txt") (txt "faq.json") =
          ([WriteJson (txt "faq.json") l], Host.Raises UnicodeEncodeError))).
Proof.
  split; [reflexivity|].
  apply (readable_source_four_endings plain_console_host (txt "qa.txt") (txt "faq.json")
           example_doc eq_refl).
Defined.

(** X12: the call writes at most once, to the output path and nowhere
    else, and what it writes is the extraction of the text it read.
    After the write it returns what it wrote, unless the console
    refuses the message that follows the write: then the file is
    written and the exception leaves the call, as on a console with no
    code for the check mark of the message.  When it returns, it has
    written the list it returns and printed the message with its
    length, and nothing else. *)
Theorem writes_once_what_it_extracted (h : Host.host) (input_file output_file : str) :
  (let (ev, out) := Host.convert_txt_to_json h input_file output_file in
   (forall p d, In (WriteJson p d) ev ->
      p = output_file /\
      (exists content,
         read_file (Host.files h) input_file = ReadText content /\
         Host.qa_list (Host.int_max_str_digits h) content = Some d) /\
      (out = Host.Done d \/
       exists e, Host.print_fails h (done_msg (length d) output_file) = Some e /\
                 out = Host.Raises e)) /\
   (forall l, out = Host.Done l ->
      ev = [WriteJson output_file l; Print (done_msg (length l) output_file)]) /\
   length (filter is_write ev) <= 1) /\
  Host.convert_txt_to_json plain_console_host (txt "qa.txt") (txt "faq.json") =
    ([WriteJson (txt "faq.json")
        [mk_qa 1 (txt "What is Y?") (txt "Y is simple.");
         mk_qa 2 (txt "What is X?") (txt "X isa thing.")]],
     Host.Raises UnicodeEncodeError).
Proof.
  split; [|vm_compute; reflexivity].
  assert (Nothing : forall (out : Host.result (list qa)),
            (forall l, out <> Host.Done l) ->
            (forall p d, In (WriteJson p d) [] ->
               p = output_file /\
               (exists content,
                  read_file (Host.files h) input_file = ReadText content /\
                  Host.qa_list (Host.int_max_str_digits h) content = Some d) /\
               (out = Host.Done d \/
                exists e, Host.print_fails h (done_msg (length d) output_file) = Some e /\
                          out = Host.Raises e)) /\
            (forall l, out = Host.Done l ->
               @nil event = [WriteJson output_file l; Print (done_msg (length l) output_file)]) /\
            length (filter is_write []) <= 1).
  { intros out Hout. split; [intros p d []|]. split; [|simpl; lia].
    intros l E. now destruct (Hout l). }
  unfold Host.convert_txt_to_json.
  destruct (read_file (Host.files h) input_file) as [content|e] eqn:R.
  - destruct (Host.qa_list (Host.int_max_str_digits h) content) as [l|] eqn:Q.
    + unfold Host.write_json, Host.print.
      destruct (write_fails (Host.files h) output_file) as [e|].
      * unfold Host.and_then, Host.raise, Host.sys_exit, Host.ret; cbn [app]. apply Nothing. discriminate.
      * destruct (Host.print_fails h (done_msg (length l) output_file)) as [e|] eqn:P;
          unfold Host.and_then, Host.raise, Host.sys_exit, Host.ret; cbn [app].
        -- split; [|split; [intros l' E; discriminate E | cbn [filter is_write length]; lia]].
           intros p d [E|[]]. injection E as <- <-.
           split; [reflexivity|]. split; [eauto|]. right. eauto.
        -- split; [|split; [|cbn [filter is_write length]; lia]].
           ++ intros p d [E|[E|[]]]; [|discriminate E]. injection E as <- <-.
              split; [reflexivity|]. split; [eauto|]. now left.
           ++ intros l' E. injection E as <-. reflexivity.
    + unfold Host.and_then, Host.raise, Host.sys_exit, Host.ret; cbn [app]. apply Nothing. discriminate.
  - assert (NF : forall (ev : list event) (out : Host.result (list qa)),
              (ev = [] \/ ev = [Print (not_found_msg input_file)]) ->
              (forall l, out <> Host.Done l) ->
              (forall p d, In (WriteJson p d) ev ->
                 p = output_file /\
                 (exists content,
                    ReadFails e = ReadText content /\
                    Host.qa_list (Host.int_max_str_digits h) content = Some d) /\
                 (out = Host.Done d \/
                  exists e, Host.print_fails h (done_msg (length d) output_file) = Some e /\
                            out = Host.Raises e)) /\
              (forall l, out = Host.Done l ->
                 ev = [WriteJson output_file l; Print (done_msg (length l) output_file)]) /\
              length (filter is_write ev) <= 1).
    { intros ev out Hev Hout. split; [|split].
      - intros p d Hin. destruct Hev as [-> | ->]; [destruct Hin|].
        destruct Hin as [E|[]]. discriminate E.
      - intros l E. now destruct (Hout l).
      - destruct Hev as [-> | ->]; simpl; lia. }
    destruct e; try (unfold Host.and_then, Host.raise, Host.sys_exit, Host.ret; cbn [app]; apply NF; [now left | discriminate]).
    unfold Host.print.
    destruct (Host.print_fails h (not_found_msg input_file));
      unfold Host.and_then, Host.raise, Host.sys_exit, Host.ret; cbn [app]; apply NF; try discriminate; auto.
Qed.


(** X14: when the source can be read, no question marker has more
    digits than the limit, the output can be written and the console
    takes every line, [main] announces the two paths, has all the
    records written, and previews the first three of them in the order
    of the list, that is those of smallest number: three lines each,
    the question cut to 40 and the answer to 50 characters, followed by
    three dots in any case. *)
Theorem main_previews_first_three
  (h : Host.host) (argv : list str) (default_input default_output : str)
  (input_file output_file content : str) (l : list qa) :
  choose_paths argv default_input default_output = (input_file, output_file) ->
  read_file (Host.files h) input_file = ReadText content ->
  Host.qa_list (Host.int_max_str_digits h) content = Some l ->
  write_fails (Host.files h) output_file = None ->
  (forall line, Host.print_fails h line = None) ->
  Host.main h argv default_input default_output =
    ([Print (reading_msg input_file); Print (writing_msg output_file);
      WriteJson output_file l; Print (done_msg (length l) output_file);
      Print preview_header] ++ flat_map preview (firstn 3 l),
     Host.Done tt) /\
  length (flat_map preview (firstn 3 l)) = 3 * Nat.min 3 (length l) /\
  Forall (fun r =>
    exists ql al,
      preview r = [Print ql; Print al; Print []] /\
      length ql <= 51 + length (str_of_N (qa_id r)) /\
      length al <= 63) l.
Proof.
  intros C R Q W P. split; [|split].
  - unfold Host.main, Host.convert_txt_to_json, Host.write_json, Host.print.
    rewrite C, R, Q, W, !P. cbn. rewrite (preview_all_prints h _ P). reflexivity.
  - rewrite preview_length, length_firstn. reflexivity.
  - apply Forall_forall. intros r _. apply preview_widths.
Qed.

Lemma main_previews_first_three_witness :
  Host.main (Host.usual example_world) [txt "convert_qa.py"; txt "qa.txt"]
    (txt "in.txt") (txt "faq.json") =
    ([Print (reading_msg (txt "qa.txt")); Print (writing_msg (txt "faq.json"));
      WriteJson (txt "faq.json")
        [mk_qa 1 (txt "What is Y?") (txt "Y is simple.");
         mk_qa 2 (txt "What is X?") (txt "X isa thing.")];
      Print (done_msg 2 (txt "faq.json"));
      Print preview_header] ++
     flat_map preview
       [mk_qa 1 (txt "What is Y?") (txt "Y is simple.");
        mk_qa 2 (txt "What is X?") (txt "X isa thing.")],
     Host.Done tt).
Proof.
  apply (main_previews_first_three (Host.usual example_world)
           [txt "convert_qa.py"; txt "qa.txt"] (txt "in.txt") (txt "faq.json")
           (txt "qa.txt") (txt "faq.json") example_doc
           [mk_qa 1 (txt "What is Y?") (txt "Y is simple.");
            mk_qa 2 (txt "What is X?") (txt "X isa thing.")]).
  - reflexivity.
  - reflexivity.
  - vm_compute. reflexivity.
  - reflexivity.
  - reflexivity.
Defined.



(** X17: the records never hold more text than the source: the
    characters of all questions and answers together, and seven more
    for each record (the least its two markers and the line break
    between them take), are no more than the characters of the text. *)
Theorem records_no_larger_than_source (content : str) :
  exists rs,
    qa_list content = Some rs /\
    text_size rs + 7 * length rs <= length content.
Proof.
  unfold qa_list, collected.
  destruct (findall_total pattern content) as [ms F]. rewrite F. simpl.
  destruct (records_of_total ms) as [cs R].
  { intros m Hin. destruct (findall_In pattern content ms m F Hin) as (pre & s & rest & _ & M).
    apply (record_of_total s rest m M). }
  rewrite R. simpl. exists (sort_by_id cs). split; [reflexivity|].
  destruct (sort_by_id_size cs) as [-> ->].
  apply (collected_size content ms F cs R).
Qed.
